(** * DualPI2 queue discipline (ns-3, traffic-control/model/dual-pi2-queue-disc.cc)

    A shallow embedding of the coupled dual-queue AQM: the classifier and
    enqueue path, the PI2 controller, LAQM and [Recur], the two AQM-decorated
    dequeues, the weighted DRR scheduler and the pending-dequeue protocol.

    Conventions of the embedding.
    - [uint32_t] values are integers in [Z] reduced modulo 2^32 after every
      arithmetic operation ([u32]).
    - [Time] is a signed count of nanoseconds (the simulator's default
      resolution) kept in [Z]; [GetSeconds] divides by 10^9.
    - [double] values are exact rationals ([Q]): the arithmetic of the source
      is followed operation by operation, rounding is not represented.
    - [NS_ASSERT_MSG], [NS_ABORT_MSG_IF] and [NS_FATAL_ERROR] end the run:
      operations return a [result], either [Ok] or [Fatal] with the guard
      that tripped.
    - Trace callbacks and log statements only observe; they are left out,
      except for the drop statistics, kept as a log of (item, reason).
    - The class header, the queue-disc base class, the internal drop-tail
      queues and the IP item classes are outside the source file; what the
      code needs from them is modelled from the specification and marked
      as such. *)

From Stdlib Require Import ZArith QArith Qminmax Qround Lqa Lia List Bool.
From Stdlib Require Import Permutation.
Import ListNotations.

Local Open Scope Z_scope.

(** ** Machine integers *)

Definition two32 : Z := 4294967296.

Definition u32 (z : Z) : Z := z mod two32.

Definition is_u32 (z : Z) : Prop := 0 <= z < two32.

(** ** Fallible operations *)

Inductive fatal : Type :=
| MtuTooSmall            (* "Error: MTU does not meet RFC 791 minimum" *)
| AggBufferLimitUnset    (* "Configuration error: aggregation buffer limit is not set" *)
| NeitherEligible        (* "Error: Neither queue is eligible" *)
| DrrLogicError          (* "Error in DRR logic (should be unreachable)" *)
| InfiniteLoop           (* "Error: infinite loop" *)
| InsufficientPending    (* "Error, insufficient pending bytes" *)
| CannotMarkL4s          (* "Make sure we can mark in L4S queue" *)
| MarksWithoutCoupling   (* "There should not be any marks if coupling probability is zero" *)
| OutOfFuel.             (* the embedding's recursion bound; shown unreachable *)

Inductive result (A : Type) : Type :=
| Ok (a : A)
| Fatal (f : fatal).

Arguments Ok {A} a.
Arguments Fatal {A} f.

Definition bind {A B} (r : result A) (k : A -> result B) : result B :=
  match r with
  | Ok a => k a
  | Fatal f => Fatal f
  end.

Notation "x <- r ;; k" := (bind r (fun x => k))
  (at level 61, r at next level, right associativity).
Notation "' pat <- r ;; k" := (bind r (fun x => match x with pat => k end))
  (at level 61, pat pattern, r at next level, right associativity).

Definition assert (b : bool) (f : fatal) : result unit :=
  if b then Ok tt else Fatal f.

(** ** Doubles as rationals *)

Local Open Scope Q_scope.

(** [std::max<double>(a, b)] is [(a < b) ? b : a]; [std::min<double>(a, b)]
    is [(b < a) ? b : a]. *)
Definition Qltb (a b : Q) : bool := negb (Qle_bool b a).

Definition std_max (a b : Q) : Q := if Qltb a b then b else a.
Definition std_min (a b : Q) : Q := if Qltb b a then b else a.

(** ** [Recur] (lines 842-853)

    [count] is passed by reference: the updated counter is returned next to
    the boolean. *)
Definition Recur (count likelihood : Q) : bool * Q :=
  let count := count + likelihood in
  if Qltb 1 count then (true, count - 1) else (false, count).

(** ** Time *)

Local Open Scope Z_scope.

Definition Time := Z.

(** [Time::GetSeconds]. *)
Definition GetSeconds (t : Time) : Q := Qmake t 1000000000.

Definition MicroSeconds (us : Z) : Time := us * 1000.
Definition MilliSeconds (ms : Z) : Time := ms * 1000000.

(** [std::max<Time>] and [std::min<Time>], written as the library does. *)
Definition max_Time (a b : Time) : Time := if a <? b then b else a.
Definition min_Time (a b : Time) : Time := if b <? a then b else a.

(** ** Packets

    A queue-disc item exposes its size, its enqueue time stamp and, for IP
    packets, the DS field ([GetUint8Value (IP_DSFIELD, tos)] fails on items
    that carry none). *)
Record QueueDiscItem : Type := mkItem {
  GetSize : Z;               (* uint32_t, bytes *)
  GetTimeStamp : Time;
  dsField : option Z         (* uint8_t when present *)
}.

Definition ecn_bits (tosByte : Z) : Z := Z.land tosByte 3.

(** Modelled from the spec: [QueueDiscItem::Mark], implemented by the IP item
    classes outside this module. "mark() sets ECN bits to CE, returns true on
    success; fails for Not-ECT packets". *)
Definition item_Mark (item : QueueDiscItem) : bool * QueueDiscItem :=
  match dsField item with
  | Some tos =>
      if ecn_bits tos =? 0 then (false, item)
      else (true, mkItem (GetSize item) (GetTimeStamp item) (Some (Z.lor tos 3)))
  | None => (false, item)
  end.

Inductive DropReason : Type :=
| FORCED_DROP
| UNFORCED_CLASSIC_DROP
| UNFORCED_L4S_DROP
| INTERNAL_QUEUE_DROP.

(** Index into the internal queues (lines 48-51). *)
Inductive QueueIndex : Type := CLASSIC | L4S | NONE.

(** [std::bitset<2> m_drrQueues], indexed by CLASSIC = 0 and L4S = 1. *)
Record bitset2 : Type := mkBits { bit_CLASSIC : bool; bit_L4S : bool }.

Definition bits_none (b : bitset2) : bool := negb (bit_CLASSIC b) && negb (bit_L4S b).

(** ** Attributes (GetTypeId, lines 53-154) *)
Record Attributes : Type := mkAttrs {
  m_mtu : Z;
  m_alpha : Q;
  m_beta : Q;
  m_tUpdate : Time;
  m_queueLimit : Z;
  m_target : Time;
  m_minTh : Time;
  m_range : Time;
  m_k : Q;
  m_schedulingWeight : Q;
  m_drrQuantum : Z;
  m_disableLaqm : bool;
  m_enableWifiClassicLatencyEstimator : bool;
  m_aggBufferLimit : Z
}.

Definition default_attrs : Attributes :=
  mkAttrs 0 (15 # 100) 3 (MilliSeconds 15) 1562500 (MilliSeconds 15)
          (MicroSeconds 800) (MicroSeconds 400) 2 9 1500 false false 0.

Definition with_mtu (mtu : Z) (a : Attributes) : Attributes :=
  mkAttrs mtu (m_alpha a) (m_beta a) (m_tUpdate a) (m_queueLimit a) (m_target a)
          (m_minTh a) (m_range a) (m_k a) (m_schedulingWeight a) (m_drrQuantum a)
          (m_disableLaqm a) (m_enableWifiClassicLatencyEstimator a)
          (m_aggBufferLimit a).

(** ** What the base class holds

    [CheckConfig] (lines 878-931) works on what the base class holds: the
    numbers of classes and packet filters and the internal queues, of which
    only the capacity ([GetMaxSize]) is read. *)
Inductive QueueSizeUnit : Type := PACKETS | BYTES.

Record QueueSize : Type := mkQueueSize { GetUnit : QueueSizeUnit; GetValue : Z }.

Record QueueDiscSetup : Type := mkSetup {
  GetNQueueDiscClasses : nat;
  GetNPacketFilters : nat;
  internalQueues : list QueueSize          (* GetMaxSize () of each queue *)
}.

Definition GetNInternalQueues (c : QueueDiscSetup) : nat := length (internalQueues c).

Definition AddInternalQueue (q : QueueSize) (c : QueueDiscSetup) : QueueDiscSetup :=
  mkSetup (GetNQueueDiscClasses c) (GetNPacketFilters c) (internalQueues c ++ [q]).

Definition internal_max_size (i : nat) (c : QueueDiscSetup) : QueueSize :=
  nth i (internalQueues c) (mkQueueSize BYTES 0).

Definition internal_max_value (i : nat) (c : QueueDiscSetup) : Z :=
  GetValue (internal_max_size i c).

Definition CheckConfig (queueLimit : Z) (c : QueueDiscSetup) : bool * QueueDiscSetup :=
  if (0 <? GetNQueueDiscClasses c)%nat then (false, c)
  else if (0 <? GetNPacketFilters c)%nat then (false, c)
  else
    let c :=
      if (GetNInternalQueues c =? 0)%nat then
        let queueSize := mkQueueSize BYTES queueLimit in
        AddInternalQueue queueSize (AddInternalQueue queueSize c)
      else c in
    if negb (GetNInternalQueues c =? 2)%nat then (false, c)
    else if internal_max_value 0 c <? queueLimit then (false, c)
    else if internal_max_value 1 c <? queueLimit then (false, c)
    else (true, c).

(** ** State of the queue discipline *)
Record DualPi2QueueDisc : Type := mkDisc {
  attrs : Attributes;
  classicQ : list QueueDiscItem;
  l4sQ : list QueueDiscItem;
  m_classicStagingQueue : list QueueDiscItem;
  m_l4sStagingQueue : list QueueDiscItem;
  m_baseProb : Q;
  m_pCL : Q;
  m_pC : Q;
  m_pL : Q;
  m_pCmax : Q;
  m_pLmax : Q;
  m_prevQ : Time;
  m_thLen : Z;
  m_l4sCount : Q;
  m_classicCount : Q;
  m_drrQueues : bitset2;
  m_llDeficit : Z;
  m_classicDeficit : Z;
  m_cLatencySample : Time;
  m_lLatencySample : Time;
  m_cBytesSample : Z;
  dropLog : list (QueueDiscItem * DropReason);
  base : QueueDiscSetup              (* classes, filters, internal queues *)
}.

(** Field updates, one per member the code assigns. *)
Definition set_attrs (v : Attributes) (s : DualPi2QueueDisc) :=
  mkDisc v (classicQ s) (l4sQ s) (m_classicStagingQueue s)
    (m_l4sStagingQueue s) (m_baseProb s) (m_pCL s) (m_pC s) (m_pL s)
    (m_pCmax s) (m_pLmax s) (m_prevQ s) (m_thLen s) (m_l4sCount s)
    (m_classicCount s) (m_drrQueues s) (m_llDeficit s) (m_classicDeficit s)
    (m_cLatencySample s) (m_lLatencySample s) (m_cBytesSample s) (dropLog s)
    (base s).
Definition set_classicQ (v : list QueueDiscItem) (s : DualPi2QueueDisc) :=
  mkDisc (attrs s) v (l4sQ s) (m_classicStagingQueue s) (m_l4sStagingQueue
    s) (m_baseProb s) (m_pCL s) (m_pC s) (m_pL s) (m_pCmax s) (m_pLmax s)
    (m_prevQ s) (m_thLen s) (m_l4sCount s) (m_classicCount s) (m_drrQueues
    s) (m_llDeficit s) (m_classicDeficit s) (m_cLatencySample s)
    (m_lLatencySample s) (m_cBytesSample s) (dropLog s) (base s).
Definition set_l4sQ (v : list QueueDiscItem) (s : DualPi2QueueDisc) :=
  mkDisc (attrs s) (classicQ s) v (m_classicStagingQueue s)
    (m_l4sStagingQueue s) (m_baseProb s) (m_pCL s) (m_pC s) (m_pL s)
    (m_pCmax s) (m_pLmax s) (m_prevQ s) (m_thLen s) (m_l4sCount s)
    (m_classicCount s) (m_drrQueues s) (m_llDeficit s) (m_classicDeficit s)
    (m_cLatencySample s) (m_lLatencySample s) (m_cBytesSample s) (dropLog s)
    (base s).
Definition set_m_classicStagingQueue (v : list QueueDiscItem) (s : DualPi2QueueDisc) :=
  mkDisc (attrs s) (classicQ s) (l4sQ s) v (m_l4sStagingQueue s) (m_baseProb
    s) (m_pCL s) (m_pC s) (m_pL s) (m_pCmax s) (m_pLmax s) (m_prevQ s)
    (m_thLen s) (m_l4sCount s) (m_classicCount s) (m_drrQueues s)
    (m_llDeficit s) (m_classicDeficit s) (m_cLatencySample s)
    (m_lLatencySample s) (m_cBytesSample s) (dropLog s) (base s).
Definition set_m_l4sStagingQueue (v : list QueueDiscItem) (s : DualPi2QueueDisc) :=
  mkDisc (attrs s) (classicQ s) (l4sQ s) (m_classicStagingQueue s) v
    (m_baseProb s) (m_pCL s) (m_pC s) (m_pL s) (m_pCmax s) (m_pLmax s)
    (m_prevQ s) (m_thLen s) (m_l4sCount s) (m_classicCount s) (m_drrQueues
    s) (m_llDeficit s) (m_classicDeficit s) (m_cLatencySample s)
    (m_lLatencySample s) (m_cBytesSample s) (dropLog s) (base s).
Definition set_m_baseProb (v : Q) (s : DualPi2QueueDisc) :=
  mkDisc (attrs s) (classicQ s) (l4sQ s) (m_classicStagingQueue s)
    (m_l4sStagingQueue s) v (m_pCL s) (m_pC s) (m_pL s) (m_pCmax s) (m_pLmax
    s) (m_prevQ s) (m_thLen s) (m_l4sCount s) (m_classicCount s)
    (m_drrQueues s) (m_llDeficit s) (m_classicDeficit s) (m_cLatencySample
    s) (m_lLatencySample s) (m_cBytesSample s) (dropLog s) (base s).
Definition set_m_pCL (v : Q) (s : DualPi2QueueDisc) :=
  mkDisc (attrs s) (classicQ s) (l4sQ s) (m_classicStagingQueue s)
    (m_l4sStagingQueue s) (m_baseProb s) v (m_pC s) (m_pL s) (m_pCmax s)
    (m_pLmax s) (m_prevQ s) (m_thLen s) (m_l4sCount s) (m_classicCount s)
    (m_drrQueues s) (m_llDeficit s) (m_classicDeficit s) (m_cLatencySample
    s) (m_lLatencySample s) (m_cBytesSample s) (dropLog s) (base s).
Definition set_m_pC (v : Q) (s : DualPi2QueueDisc) :=
  mkDisc (attrs s) (classicQ s) (l4sQ s) (m_classicStagingQueue s)
    (m_l4sStagingQueue s) (m_baseProb s) (m_pCL s) v (m_pL s) (m_pCmax s)
    (m_pLmax s) (m_prevQ s) (m_thLen s) (m_l4sCount s) (m_classicCount s)
    (m_drrQueues s) (m_llDeficit s) (m_classicDeficit s) (m_cLatencySample
    s) (m_lLatencySample s) (m_cBytesSample s) (dropLog s) (base s).
Definition set_m_pL (v : Q) (s : DualPi2QueueDisc) :=
  mkDisc (attrs s) (classicQ s) (l4sQ s) (m_classicStagingQueue s)
    (m_l4sStagingQueue s) (m_baseProb s) (m_pCL s) (m_pC s) v (m_pCmax s)
    (m_pLmax s) (m_prevQ s) (m_thLen s) (m_l4sCount s) (m_classicCount s)
    (m_drrQueues s) (m_llDeficit s) (m_classicDeficit s) (m_cLatencySample
    s) (m_lLatencySample s) (m_cBytesSample s) (dropLog s) (base s).
Definition set_m_pCmax (v : Q) (s : DualPi2QueueDisc) :=
  mkDisc (attrs s) (classicQ s) (l4sQ s) (m_classicStagingQueue s)
    (m_l4sStagingQueue s) (m_baseProb s) (m_pCL s) (m_pC s) (m_pL s) v
    (m_pLmax s) (m_prevQ s) (m_thLen s) (m_l4sCount s) (m_classicCount s)
    (m_drrQueues s) (m_llDeficit s) (m_classicDeficit s) (m_cLatencySample
    s) (m_lLatencySample s) (m_cBytesSample s) (dropLog s) (base s).
Definition set_m_pLmax (v : Q) (s : DualPi2QueueDisc) :=
  mkDisc (attrs s) (classicQ s) (l4sQ s) (m_classicStagingQueue s)
    (m_l4sStagingQueue s) (m_baseProb s) (m_pCL s) (m_pC s) (m_pL s)
    (m_pCmax s) v (m_prevQ s) (m_thLen s) (m_l4sCount s) (m_classicCount s)
    (m_drrQueues s) (m_llDeficit s) (m_classicDeficit s) (m_cLatencySample
    s) (m_lLatencySample s) (m_cBytesSample s) (dropLog s) (base s).
Definition set_m_prevQ (v : Time) (s : DualPi2QueueDisc) :=
  mkDisc (attrs s) (classicQ s) (l4sQ s) (m_classicStagingQueue s)
    (m_l4sStagingQueue s) (m_baseProb s) (m_pCL s) (m_pC s) (m_pL s)
    (m_pCmax s) (m_pLmax s) v (m_thLen s) (m_l4sCount s) (m_classicCount s)
    (m_drrQueues s) (m_llDeficit s) (m_classicDeficit s) (m_cLatencySample
    s) (m_lLatencySample s) (m_cBytesSample s) (dropLog s) (base s).
Definition set_m_thLen (v : Z) (s : DualPi2QueueDisc) :=
  mkDisc (attrs s) (classicQ s) (l4sQ s) (m_classicStagingQueue s)
    (m_l4sStagingQueue s) (m_baseProb s) (m_pCL s) (m_pC s) (m_pL s)
    (m_pCmax s) (m_pLmax s) (m_prevQ s) v (m_l4sCount s) (m_classicCount s)
    (m_drrQueues s) (m_llDeficit s) (m_classicDeficit s) (m_cLatencySample
    s) (m_lLatencySample s) (m_cBytesSample s) (dropLog s) (base s).
Definition set_m_l4sCount (v : Q) (s : DualPi2QueueDisc) :=
  mkDisc (attrs s) (classicQ s) (l4sQ s) (m_classicStagingQueue s)
    (m_l4sStagingQueue s) (m_baseProb s) (m_pCL s) (m_pC s) (m_pL s)
    (m_pCmax s) (m_pLmax s) (m_prevQ s) (m_thLen s) v (m_classicCount s)
    (m_drrQueues s) (m_llDeficit s) (m_classicDeficit s) (m_cLatencySample
    s) (m_lLatencySample s) (m_cBytesSample s) (dropLog s) (base s).
Definition set_m_classicCount (v : Q) (s : DualPi2QueueDisc) :=
  mkDisc (attrs s) (classicQ s) (l4sQ s) (m_classicStagingQueue s)
    (m_l4sStagingQueue s) (m_baseProb s) (m_pCL s) (m_pC s) (m_pL s)
    (m_pCmax s) (m_pLmax s) (m_prevQ s) (m_thLen s) (m_l4sCount s) v
    (m_drrQueues s) (m_llDeficit s) (m_classicDeficit s) (m_cLatencySample
    s) (m_lLatencySample s) (m_cBytesSample s) (dropLog s) (base s).
Definition set_m_drrQueues (v : bitset2) (s : DualPi2QueueDisc) :=
  mkDisc (attrs s) (classicQ s) (l4sQ s) (m_classicStagingQueue s)
    (m_l4sStagingQueue s) (m_baseProb s) (m_pCL s) (m_pC s) (m_pL s)
    (m_pCmax s) (m_pLmax s) (m_prevQ s) (m_thLen s) (m_l4sCount s)
    (m_classicCount s) v (m_llDeficit s) (m_classicDeficit s)
    (m_cLatencySample s) (m_lLatencySample s) (m_cBytesSample s) (dropLog s)
    (base s).
Definition set_m_llDeficit (v : Z) (s : DualPi2QueueDisc) :=
  mkDisc (attrs s) (classicQ s) (l4sQ s) (m_classicStagingQueue s)
    (m_l4sStagingQueue s) (m_baseProb s) (m_pCL s) (m_pC s) (m_pL s)
    (m_pCmax s) (m_pLmax s) (m_prevQ s) (m_thLen s) (m_l4sCount s)
    (m_classicCount s) (m_drrQueues s) v (m_classicDeficit s)
    (m_cLatencySample s) (m_lLatencySample s) (m_cBytesSample s) (dropLog s)
    (base s).
Definition set_m_classicDeficit (v : Z) (s : DualPi2QueueDisc) :=
  mkDisc (attrs s) (classicQ s) (l4sQ s) (m_classicStagingQueue s)
    (m_l4sStagingQueue s) (m_baseProb s) (m_pCL s) (m_pC s) (m_pL s)
    (m_pCmax s) (m_pLmax s) (m_prevQ s) (m_thLen s) (m_l4sCount s)
    (m_classicCount s) (m_drrQueues s) (m_llDeficit s) v (m_cLatencySample
    s) (m_lLatencySample s) (m_cBytesSample s) (dropLog s) (base s).
Definition set_m_cLatencySample (v : Time) (s : DualPi2QueueDisc) :=
  mkDisc (attrs s) (classicQ s) (l4sQ s) (m_classicStagingQueue s)
    (m_l4sStagingQueue s) (m_baseProb s) (m_pCL s) (m_pC s) (m_pL s)
    (m_pCmax s) (m_pLmax s) (m_prevQ s) (m_thLen s) (m_l4sCount s)
    (m_classicCount s) (m_drrQueues s) (m_llDeficit s) (m_classicDeficit s)
    v (m_lLatencySample s) (m_cBytesSample s) (dropLog s) (base s).
Definition set_m_lLatencySample (v : Time) (s : DualPi2QueueDisc) :=
  mkDisc (attrs s) (classicQ s) (l4sQ s) (m_classicStagingQueue s)
    (m_l4sStagingQueue s) (m_baseProb s) (m_pCL s) (m_pC s) (m_pL s)
    (m_pCmax s) (m_pLmax s) (m_prevQ s) (m_thLen s) (m_l4sCount s)
    (m_classicCount s) (m_drrQueues s) (m_llDeficit s) (m_classicDeficit s)
    (m_cLatencySample s) v (m_cBytesSample s) (dropLog s) (base s).
Definition set_m_cBytesSample (v : Z) (s : DualPi2QueueDisc) :=
  mkDisc (attrs s) (classicQ s) (l4sQ s) (m_classicStagingQueue s)
    (m_l4sStagingQueue s) (m_baseProb s) (m_pCL s) (m_pC s) (m_pL s)
    (m_pCmax s) (m_pLmax s) (m_prevQ s) (m_thLen s) (m_l4sCount s)
    (m_classicCount s) (m_drrQueues s) (m_llDeficit s) (m_classicDeficit s)
    (m_cLatencySample s) (m_lLatencySample s) v (dropLog s) (base s).
Definition set_dropLog (v : list (QueueDiscItem * DropReason)) (s : DualPi2QueueDisc) :=
  mkDisc (attrs s) (classicQ s) (l4sQ s) (m_classicStagingQueue s)
    (m_l4sStagingQueue s) (m_baseProb s) (m_pCL s) (m_pC s) (m_pL s)
    (m_pCmax s) (m_pLmax s) (m_prevQ s) (m_thLen s) (m_l4sCount s)
    (m_classicCount s) (m_drrQueues s) (m_llDeficit s) (m_classicDeficit s)
    (m_cLatencySample s) (m_lLatencySample s) (m_cBytesSample s) v (base s).
Definition set_base (v : QueueDiscSetup) (s : DualPi2QueueDisc) :=
  mkDisc (attrs s) (classicQ s) (l4sQ s) (m_classicStagingQueue s)
    (m_l4sStagingQueue s) (m_baseProb s) (m_pCL s) (m_pC s) (m_pL s)
    (m_pCmax s) (m_pLmax s) (m_prevQ s) (m_thLen s) (m_l4sCount s)
    (m_classicCount s) (m_drrQueues s) (m_llDeficit s) (m_classicDeficit s)
    (m_cLatencySample s) (m_lLatencySample s) (m_cBytesSample s) (dropLog s)
    v.

(** ** Internal queues

    The two internal queues are FIFO lists, head first.  The byte and packet
    counters of a queue are [uint32_t]. *)
Fixpoint nbytes (q : list QueueDiscItem) : Z :=
  match q with
  | [] => 0
  | item :: rest => GetSize item + nbytes rest
  end.

Definition GetNBytes (q : list QueueDiscItem) : Z := u32 (nbytes q).
Definition GetNPackets (q : list QueueDiscItem) : Z := u32 (Z.of_nat (length q)).

Definition Peek (q : list QueueDiscItem) : option QueueDiscItem := hd_error q.

Definition Dequeue (q : list QueueDiscItem)
  : option QueueDiscItem * list QueueDiscItem :=
  match q with
  | [] => (None, [])
  | item :: rest => (Some item, rest)
  end.

Definition GetInternalQueue (i : QueueIndex) (s : DualPi2QueueDisc)
  : list QueueDiscItem :=
  match i with
  | CLASSIC => classicQ s
  | L4S => l4sQ s
  | NONE => []
  end.

Definition SetInternalQueue (i : QueueIndex) (q : list QueueDiscItem)
    (s : DualPi2QueueDisc) : DualPi2QueueDisc :=
  match i with
  | CLASSIC => set_classicQ q s
  | L4S => set_l4sQ q s
  | NONE => s
  end.

(** [QueueDisc::DropBeforeEnqueue] and [QueueDisc::DropAfterDequeue] count
    the drop under its reason. *)
Definition DropBeforeEnqueue (item : QueueDiscItem) (r : DropReason)
    (s : DualPi2QueueDisc) : DualPi2QueueDisc :=
  set_dropLog (dropLog s ++ [(item, r)]) s.

Definition DropAfterDequeue (item : QueueDiscItem) (r : DropReason)
    (s : DualPi2QueueDisc) : DualPi2QueueDisc :=
  set_dropLog (dropLog s ++ [(item, r)]) s.

(** [GetMaxSize] of an internal queue: the capacity the queue had when
    [CheckConfig] (lines 894-921) accepted it.  Nothing in the module
    changes it afterwards; [SetQueueLimit] writes [m_queueLimit] only. *)
Definition GetMaxSize (i : QueueIndex) (s : DualPi2QueueDisc) : QueueSize :=
  match i with
  | CLASSIC => internal_max_size 0 (base s)
  | L4S => internal_max_size 1 (base s)
  | NONE => mkQueueSize BYTES 0
  end.

(** Modelled from the spec: [Queue::Enqueue] of the "two internal drop-tail
    queues", whose code lives outside this module.  A drop-tail queue
    refuses the item that would take it over its own capacity, counted in
    the unit of that capacity and in 32-bit sizes like every size of the
    module; the discipline counts a refused item as an internal-queue
    drop. *)
Definition InternalEnqueue (i : QueueIndex) (item : QueueDiscItem)
    (s : DualPi2QueueDisc) : bool * DualPi2QueueDisc :=
  let q := GetInternalQueue i s in
  let maxSize := GetMaxSize i s in
  let sizeWithItem :=
    match GetUnit maxSize with
    | BYTES => u32 (GetNBytes q + GetSize item)
    | PACKETS => u32 (GetNPackets q + 1)
    end in
  if GetValue maxSize <? sizeWithItem then
    (false, DropBeforeEnqueue item INTERNAL_QUEUE_DROP s)
  else
    (true, SetInternalQueue i (q ++ [item]) s).

(** Modelled from the spec: [QueueDisc::GetNBytes] and
    [QueueDisc::GetNPackets] of the base class; step 3 of pending_dequeue
    reads them as bytes(Q_C)+bytes(Q_L) and count(Q_C)+count(Q_L). *)
Definition disc_GetNBytes (s : DualPi2QueueDisc) : Z :=
  u32 (GetNBytes (classicQ s) + GetNBytes (l4sQ s)).
Definition disc_GetNPackets (s : DualPi2QueueDisc) : Z :=
  u32 (GetNPackets (classicQ s) + GetNPackets (l4sQ s)).

(** [GetQueueSize] (lines 190-195). *)
Definition GetQueueSize (s : DualPi2QueueDisc) : Z :=
  u32 (GetNBytes (GetInternalQueue CLASSIC s) + GetNBytes (GetInternalQueue L4S s)).

(** ** Classification and enqueue *)

(** [IsL4s] (lines 350-365). *)
Definition IsL4s (item : QueueDiscItem) : bool :=
  match dsField item with
  | Some tosByte => (ecn_bits tosByte =? 1) || (ecn_bits tosByte =? 3)
  | None => false
  end.

(** [DoEnqueue] (lines 367-395). *)
Definition DoEnqueue (item : QueueDiscItem) (s : DualPi2QueueDisc)
  : bool * DualPi2QueueDisc :=
  let nQueued := GetQueueSize s in
  if m_queueLimit (attrs s) <? u32 (nQueued + GetSize item) then
    (false, DropBeforeEnqueue item FORCED_DROP s)
  else
    let queueNumber := if IsL4s item then L4S else CLASSIC in
    InternalEnqueue queueNumber item s.

(** ** PI2 controller *)

(** [InitializeParams] (lines 397-419).  [devMtu] is the MTU of the device
    the discipline is attached to, when there is one. *)
Definition InitializeParams (devMtu : option Z) (s : DualPi2QueueDisc)
  : result DualPi2QueueDisc :=
  let mtu :=
    if m_mtu (attrs s) =? 0 then
      match devMtu with Some m => m | None => m_mtu (attrs s) end
    else m_mtu (attrs s) in
  _ <- assert (negb (mtu <? 68)) MtuTooSmall ;;
  let s := set_attrs (with_mtu mtu (attrs s)) s in
  let s := set_m_thLen 1 s in
  let s := set_m_prevQ 0 s in
  let s := set_m_pCL 0%Q s in
  let s := set_m_pC 0%Q s in
  let s := set_m_pL 0%Q s in
  let k := m_k (attrs s) in
  (* 1 / 0.0 is +infinity in IEEE arithmetic, and min (+infinity, 1) = 1 *)
  let s := set_m_pCmax (if Qeq_bool (k * k) 0 then 1%Q
                        else std_min (1 / (k * k)) 1)%Q s in
  let s := set_m_pLmax 1%Q s in
  Ok s.

(** Head-of-line sojourn time, [Time ()] (zero) for an empty queue. *)
Definition sojourn_of_head (now : Time) (q : list QueueDiscItem) : Time :=
  match Peek q with
  | Some item => now - GetTimeStamp item
  | None => 0
  end.

(** [DualPi2Update] (lines 421-472); [now] is [Simulator::Now ()].  The
    product [m_cBytesSample * m_target.GetNanoSeconds ()] and its quotient
    are 64-bit integer operations; C++ division truncates. *)
Definition DualPi2Update (now : Time) (s : DualPi2QueueDisc)
  : result DualPi2QueueDisc :=
  let a := attrs s in
  cQ <- (if m_enableWifiClassicLatencyEstimator a then
           _ <- assert (negb (m_aggBufferLimit a =? 0)) AggBufferLimitUnset ;;
           let l1 := max_Time (m_cLatencySample s) (m_lLatencySample s) in
           let l2 := Z.quot (m_cBytesSample s * m_target a) (m_aggBufferLimit a) in
           Ok (min_Time l1 l2)
         else
           Ok (sojourn_of_head now (GetInternalQueue CLASSIC s))) ;;
  let lQ := sojourn_of_head now (GetInternalQueue L4S s) in
  let curQ := max_Time cQ lQ in
  let baseProb := (m_baseProb s + m_alpha a * GetSeconds (curQ - m_target a)%Z
                   + m_beta a * GetSeconds (curQ - m_prevQ s)%Z)%Q in
  let baseProb := std_max baseProb 0 in
  let baseProb := std_min baseProb 1 in
  let s := set_m_baseProb baseProb s in
  let s := set_m_pCL (m_baseProb s * m_k a)%Q s in
  let s := set_m_pCL (std_min (m_pCL s) 1) s in
  let s := set_m_pC (m_baseProb s * m_baseProb s)%Q s in
  let s := set_m_prevQ curQ s in
  Ok s.

(** ** LAQM (lines 817-840) *)
Definition Laqm (a : Attributes) (qDelay : Time) : Q :=
  if m_disableLaqm a then 0%Q
  else if m_minTh a + m_range a <=? qDelay then 1%Q
  else if m_minTh a <? qDelay then
    (GetSeconds (qDelay - m_minTh a)%Z / GetSeconds (m_range a))%Q
  else 0%Q.

(** ** Staging queues (lines 474-516) *)
Definition AddToL4sStagingQueue (qdItem : QueueDiscItem) (s : DualPi2QueueDisc) :=
  set_m_l4sStagingQueue (m_l4sStagingQueue s ++ [qdItem]) s.

Definition AddToClassicStagingQueue (qdItem : QueueDiscItem) (s : DualPi2QueueDisc) :=
  set_m_classicStagingQueue (m_classicStagingQueue s ++ [qdItem]) s.

Definition DequeueFromL4sStagingQueue (s : DualPi2QueueDisc)
  : option QueueDiscItem * DualPi2QueueDisc :=
  match m_l4sStagingQueue s with
  | qdItem :: rest => (Some qdItem, set_m_l4sStagingQueue rest s)
  | [] => (None, s)
  end.

Definition DequeueFromClassicStagingQueue (s : DualPi2QueueDisc)
  : option QueueDiscItem * DualPi2QueueDisc :=
  match m_classicStagingQueue s with
  | qdItem :: rest => (Some qdItem, set_m_classicStagingQueue rest s)
  | [] => (None, s)
  end.

(** ** Bounded loops

    A loop body either continues with a new loop state or leaves the loop
    with a value.  [iterate body n x] runs the body at most [n] times; the
    binary recursion keeps bounds such as 2^32 usable. *)
Inductive loop_result (X R : Type) : Type :=
| Continue (x : X)
| Break (r : R).

Arguments Continue {X R} x.
Arguments Break {X R} r.

Fixpoint iterate {X R : Type} (body : X -> loop_result X R) (n : positive) (x : X)
  : loop_result X R :=
  match n with
  | xH => body x
  | xO p =>
      match iterate body p x with
      | Continue x' => iterate body p x'
      | Break r => Break r
      end
  | xI p =>
      match body x with
      | Continue x' =>
          match iterate body p x' with
          | Continue x'' => iterate body p x''
          | Break r => Break r
          end
      | Break r => Break r
      end
  end.

(** ** WDRR scheduler *)

(** [CanSchedule] (lines 518-551): (Classic eligible, L4S eligible). *)
Definition CanSchedule (byteLimit : Z) (s : DualPi2QueueDisc) : bool * bool :=
  if disc_GetNPackets s =? 0 then (false, false)
  else
    let l4sHolWifiSize :=
      match Peek (GetInternalQueue L4S s) with
      | Some item => u32 (GetSize item + 38)
      | None => 0
      end in
    let classicHolWifiSize :=
      match Peek (GetInternalQueue CLASSIC s) with
      | Some item => u32 (GetSize item + 38)
      | None => 0
      end in
    let canScheduleL4s := negb (l4sHolWifiSize =? 0) && (l4sHolWifiSize <=? byteLimit) in
    let canScheduleClassic :=
      negb (classicHolWifiSize =? 0) && (classicHolWifiSize <=? byteLimit) in
    (canScheduleClassic, canScheduleL4s).

Definition hol_size (q : list QueueDiscItem) : Z :=
  match Peek q with
  | Some item => GetSize item
  | None => 0
  end.

(** Start of a DRR round (lines 581-591).  The two deficit counters are
    compared with and decremented by [uint32_t] packet sizes and are taken
    to be [uint32_t] themselves (their declaration is in the class header).
    The L4S increment is computed in [double] and converted back; here the
    sum is exact and then truncated, which is what the code computes when
    the product and the sum are whole numbers below 2^32 ([credit_exact]
    below), as with the default weight of 9. *)
Definition start_round (s : DualPi2QueueDisc) : DualPi2QueueDisc :=
  let a := attrs s in
  let s := set_m_drrQueues (mkBits true true) s in
  let s := set_m_llDeficit
             (u32 (Qfloor (inject_Z (m_llDeficit s)
                           + inject_Z (m_drrQuantum a) * m_schedulingWeight a)%Q)) s in
  set_m_classicDeficit (u32 (m_classicDeficit s + m_drrQuantum a)) s.

Definition reset_L4S (s : DualPi2QueueDisc) : DualPi2QueueDisc :=
  set_m_drrQueues (mkBits (bit_CLASSIC (m_drrQueues s)) false) s.

Definition reset_CLASSIC (s : DualPi2QueueDisc) : DualPi2QueueDisc :=
  set_m_drrQueues (mkBits false (bit_L4S (m_drrQueues s))) s.

(** One pass of the [for] loop of [Scheduler] (lines 579-637), its test
    included.  The loop state is [(i, maxIterations, discipline)]: the body
    ends with [maxIterations++], the loop header with [i++]. *)
Definition Scheduler_body (eligible : bool * bool) (l4sHolSize classicHolSize : Z)
    (x : Z * Z * DualPi2QueueDisc)
  : loop_result (Z * Z * DualPi2QueueDisc) (result (QueueIndex * DualPi2QueueDisc)) :=
  let '(i, maxIterations, s) := x in
  if negb (i <? maxIterations) then
    (* leaving the loop reaches NS_FATAL_ERROR *)
    Break (Fatal DrrLogicError)
  else
    let s := if bits_none (m_drrQueues s) then start_round s else s in
    let tryL4s := negb (l4sHolSize =? 0) && snd eligible in
    if tryL4s && (l4sHolSize <=? m_llDeficit s) then
      Break (Ok (L4S, set_m_llDeficit (u32 (m_llDeficit s - l4sHolSize)) s))
    else
      let s := if tryL4s then reset_L4S s else s in
      let s := if l4sHolSize =? 0 then reset_L4S (set_m_llDeficit 0 s) else s in
      let tryClassic := negb (classicHolSize =? 0) && fst eligible in
      if tryClassic && (classicHolSize <=? m_classicDeficit s) then
        Break (Ok (CLASSIC,
                   set_m_classicDeficit (u32 (m_classicDeficit s - classicHolSize)) s))
      else
        let s := if tryClassic then reset_CLASSIC s else s in
        let s := if classicHolSize =? 0
                 then reset_CLASSIC (set_m_classicDeficit 0 s) else s in
        Continue (u32 (i + 1), u32 (maxIterations + 1), s).

(** [i] and [maxIterations] advance together, so the test [i < maxIterations]
    only fails once [maxIterations] has wrapped around: 2^32 passes are
    enough for the loop to leave by itself. *)
Definition Scheduler_passes : positive := 4294967296.

(** [Scheduler] (lines 553-641). *)
Definition Scheduler (eligible : bool * bool) (s : DualPi2QueueDisc)
  : result (QueueIndex * DualPi2QueueDisc) :=
  _ <- assert (fst eligible || snd eligible) NeitherEligible ;;
  let l4sHolSize := hol_size (GetInternalQueue L4S s) in
  let classicHolSize := hol_size (GetInternalQueue CLASSIC s) in
  if disc_GetNPackets s =? 0 then Ok (NONE, s)
  else
    match iterate (Scheduler_body eligible l4sHolSize classicHolSize)
                  Scheduler_passes (0, 1000, s) with
    | Break r => r
    | Continue _ => Fatal OutOfFuel
    end.

(** The round start credits the L4S deficit exactly as the code does: the
    scheduling weight is a whole number and the credited deficit fits 32
    bits, so that neither the product nor the sum is rounded in [double] and
    the conversion back to [uint32_t] is defined. *)
Definition credit_exact (s : DualPi2QueueDisc) : Prop :=
  exists n : Z,
    (m_schedulingWeight (attrs s) == inject_Z n)%Q /\
    0 <= m_llDeficit s /\ 0 <= m_drrQuantum (attrs s) * n /\
    m_llDeficit s + m_drrQuantum (attrs s) * n < two32.

(** ** AQM-decorated dequeues *)

(** [QueueDisc::Mark]: marks the item in place and reports whether it could. *)
Definition Mark (qdItem : QueueDiscItem) : bool * QueueDiscItem := item_Mark qdItem.

(** The [while (qdItem)] loop of [DequeueFromL4sQueue] (lines 649-703).
    [q] is the content of the L4S queue once [qdItem] has been taken out,
    and is what the state holds; every further [Dequeue] shortens it. *)
Fixpoint DequeueFromL4sQueue_loop (now : Time) (marked : bool)
    (qdItem : QueueDiscItem) (q : list QueueDiscItem) (s : DualPi2QueueDisc)
    {struct q}
  : result (option QueueDiscItem * bool * DualPi2QueueDisc) :=
  if Qltb (m_pCL s) (m_pLmax s) then
    let pPrimeL :=
      if m_thLen s <? GetNPackets (GetInternalQueue L4S s)
      then Laqm (attrs s) (now - GetTimeStamp qdItem)
      else 0%Q in
    let pL := std_max pPrimeL (m_pCL s) in
    let pL := std_min pL 1 in
    let s := set_m_pL pL s in
    let '(fire, count) := Recur (m_l4sCount s) pL in
    let s := set_m_l4sCount count s in
    if fire then
      let '(ok, qdItem) := Mark qdItem in
      _ <- assert ok CannotMarkL4s ;;
      Ok (Some qdItem, ok, s)
    else Ok (Some qdItem, marked, s)
  else
    let '(fire, count) := Recur (m_l4sCount s) (m_pC s) in
    let s := set_m_l4sCount count s in
    if fire then
      let s := DropAfterDequeue qdItem UNFORCED_L4S_DROP s in
      match q with
      | next :: q' =>
          DequeueFromL4sQueue_loop now marked next q' (SetInternalQueue L4S q' s)
      | [] => Ok (None, marked, s)
      end
    else
      let '(fire, count) := Recur (m_l4sCount s) (m_pCL s) in
      let s := set_m_l4sCount count s in
      if fire then
        let '(ok, qdItem) := Mark qdItem in
        _ <- assert ok CannotMarkL4s ;;
        Ok (Some qdItem, ok, s)
      else Ok (Some qdItem, marked, s).

(** [DequeueFromL4sQueue] (lines 643-705); [marked] is the reference
    parameter, returned with the item. *)
Definition DequeueFromL4sQueue (now : Time) (marked : bool) (s : DualPi2QueueDisc)
  : result (option QueueDiscItem * bool * DualPi2QueueDisc) :=
  match GetInternalQueue L4S s with
  | qdItem :: q => DequeueFromL4sQueue_loop now marked qdItem q (SetInternalQueue L4S q s)
  | [] => Ok (None, marked, s)
  end.

(** The [while (qdItem)] loop of [DequeueFromClassicQueue] (lines 717-733).
    [||] evaluates [Recur] first and always. *)
Fixpoint DequeueFromClassicQueue_loop (dropped : bool)
    (qdItem : QueueDiscItem) (q : list QueueDiscItem) (s : DualPi2QueueDisc)
    {struct q}
  : option QueueDiscItem * bool * DualPi2QueueDisc :=
  let '(fire, count) := Recur (m_classicCount s) (m_pC s) in
  let s := set_m_classicCount count s in
  if fire || Qle_bool (m_pCmax s) (m_pC s) then
    let s := DropAfterDequeue qdItem UNFORCED_CLASSIC_DROP s in
    match q with
    | next :: q' =>
        DequeueFromClassicQueue_loop true next q' (SetInternalQueue CLASSIC q' s)
    | [] => (None, true, s)
    end
  else (Some qdItem, dropped, s).

(** [DequeueFromClassicQueue] (lines 707-735). *)
Definition DequeueFromClassicQueue (dropped : bool) (s : DualPi2QueueDisc)
  : option QueueDiscItem * bool * DualPi2QueueDisc :=
  let '(qdItem, q) := Dequeue (GetInternalQueue CLASSIC s) in
  let s := SetInternalQueue CLASSIC q s in
  if GetNBytes (GetInternalQueue CLASSIC s) <? u32 (2 * m_mtu (attrs s)) then
    (qdItem, dropped, s)
  else
    match qdItem with
    | Some qdItem => DequeueFromClassicQueue_loop dropped qdItem q s
    | None => (None, dropped, s)
    end.

(** ** Ordinary dequeue *)

(** The [while (GetQueueSize () > 0)] loop of [DoDequeue] (lines 763-813).
    Every pass that does not return takes at least one packet out of an
    internal queue, so a bound of one pass per queued packet is never
    reached (see [DoDequeue_loop_fuel]). *)
Fixpoint DoDequeue_loop (fuel : nat) (now : Time) (s : DualPi2QueueDisc)
  : result (option QueueDiscItem * DualPi2QueueDisc) :=
  if 0 <? GetQueueSize s then
    match fuel with
    | O => Fatal OutOfFuel
    | S fuel' =>
        '(selected, s) <- Scheduler (true, true) s ;;
        match selected with
        | L4S =>
            '(qdItem, _, s) <- DequeueFromL4sQueue now false s ;;
            match qdItem with
            | Some qdItem => Ok (Some qdItem, s)
            | None => DoDequeue_loop fuel' now s
            end
        | CLASSIC =>
            let '(qdItem, _, s) := DequeueFromClassicQueue false s in
            match qdItem with
            | Some qdItem => Ok (Some qdItem, s)
            | None => DoDequeue_loop fuel' now s
            end
        | NONE => Ok (None, s)
        end
    end
  else Ok (None, s).

(** [DoDequeue] (lines 737-815). *)
Definition DoDequeue (now : Time) (s : DualPi2QueueDisc)
  : result (option QueueDiscItem * DualPi2QueueDisc) :=
  match DequeueFromL4sStagingQueue s with
  | (Some qdItem, s) => Ok (Some qdItem, s)
  | (None, s) =>
      match DequeueFromClassicStagingQueue s with
      | (Some qdItem, s) => Ok (Some qdItem, s)
      | (None, s) =>
          DoDequeue_loop (S (length (classicQ s) + length (l4sQ s))) now s
      end
  end.

(** ** Pending-dequeue protocol *)

(** The batch loop of [PendingDequeueCallback] (lines 256-317):
    [for (i = 0; i <= maxIterations; i++)] with [maxIterations = 1000] makes
    at most 1001 passes, counted by [passes]; the result is the state with
    [markedCount]. *)
Fixpoint PendingDequeue_batch (passes : nat) (now : Time) (i : Z)
    (pendingBytesLeft markedCount : Z) (s : DualPi2QueueDisc)
  : result (DualPi2QueueDisc * Z) :=
  match passes with
  | O => Ok (s, markedCount)
  | S passes' =>
      _ <- assert (i <? 1000) InfiniteLoop ;;
      let eligible := CanSchedule pendingBytesLeft s in
      if negb (fst eligible) && negb (snd eligible) then Ok (s, markedCount)
      else
        '(scheduled, s) <- Scheduler eligible s ;;
        match scheduled with
        | L4S =>
            '(qdItem, marked, s) <- DequeueFromL4sQueue now false s ;;
            match qdItem with
            | None =>
                PendingDequeue_batch passes' now (u32 (i + 1))
                                     pendingBytesLeft markedCount s
            | Some qdItem =>
                _ <- assert (u32 (GetSize qdItem + 38) <=? pendingBytesLeft)
                            InsufficientPending ;;
                let s := AddToL4sStagingQueue qdItem s in
                let pendingBytesLeft :=
                  u32 (pendingBytesLeft - u32 (GetSize qdItem + 38)) in
                let markedCount :=
                  if marked then u32 (markedCount + 1) else markedCount in
                PendingDequeue_batch passes' now (u32 (i + 1))
                                     pendingBytesLeft markedCount s
            end
        | CLASSIC =>
            let '(qdItem, _, s) := DequeueFromClassicQueue false s in
            match qdItem with
            | None =>
                PendingDequeue_batch passes' now (u32 (i + 1))
                                     pendingBytesLeft markedCount s
            | Some qdItem =>
                _ <- assert (u32 (GetSize qdItem + 38) <=? pendingBytesLeft)
                            InsufficientPending ;;
                let s := AddToClassicStagingQueue qdItem s in
                let pendingBytesLeft :=
                  u32 (pendingBytesLeft - u32 (GetSize qdItem + 38)) in
                PendingDequeue_batch passes' now (u32 (i + 1))
                                     pendingBytesLeft markedCount s
            end
        | NONE => Ok (s, markedCount)
        end
  end.

(** The walk over the L4S staging queue (lines 332-342): every item whose
    ECN field reads ECT(1) is marked, until [pendingMarks] reaches zero. *)
Fixpoint TopUpWalk (pendingMarks : Z) (staging : list QueueDiscItem)
  : list QueueDiscItem :=
  match staging with
  | [] => []
  | item :: rest =>
      if pendingMarks =? 0 then item :: rest
      else
        match dsField item with
        | Some tosByte =>
            if ecn_bits tosByte =? 1
            then snd (item_Mark item) :: TopUpWalk (u32 (pendingMarks - 1)) rest
            else item :: TopUpWalk pendingMarks rest
        | None => item :: TopUpWalk pendingMarks rest
        end
  end.

(** The top-up step (lines 328-347). *)
Definition PendingDequeue_topup (markedCount : Z) (s : DualPi2QueueDisc)
  : DualPi2QueueDisc :=
  if markedCount <? GetNPackets (GetInternalQueue L4S s) then
    let pendingMarks := u32 (GetNPackets (GetInternalQueue L4S s) - markedCount) in
    set_m_l4sStagingQueue (TopUpWalk pendingMarks (m_l4sStagingQueue s)) s
  else s.

(** The refresh of the latency-estimator samples (lines 201-219). *)
Definition refresh_samples (now : Time) (s : DualPi2QueueDisc) : DualPi2QueueDisc :=
  let s := set_m_cLatencySample (sojourn_of_head now (GetInternalQueue CLASSIC s)) s in
  let s := set_m_lLatencySample (sojourn_of_head now (GetInternalQueue L4S s)) s in
  set_m_cBytesSample (GetNBytes (GetInternalQueue CLASSIC s)) s.

(** The queue content as the Wi-Fi layer will frame it, 38 bytes added per
    packet (line 233). *)
Definition queueDiscPending (s : DualPi2QueueDisc) : Z :=
  u32 (disc_GetNBytes s + u32 (38 * disc_GetNPackets s)).

(** [PendingDequeueCallback] (lines 197-348).  [txQueueStopped] is what the
    device transmit queue answers to [IsStopped ()], false as well when no
    device queue interface is attached. *)
Definition PendingDequeueCallback (now : Time) (txQueueStopped : bool)
    (pendingBytes : Z) (s : DualPi2QueueDisc) : result DualPi2QueueDisc :=
  let s := refresh_samples now s in
  if negb txQueueStopped then Ok s
  else
    if queueDiscPending s <? pendingBytes then Ok s
    else
      '(s, markedCount) <- PendingDequeue_batch 1001 now 0 pendingBytes 0 s ;;
      _ <- (if markedCount =? 0 then Ok tt
            else assert (Qltb 0 (m_pCL s)) MarksWithoutCoupling) ;;
      Ok (PendingDequeue_topup markedCount s).

(** ** Peek and the two setters *)

(** [DoPeek] (lines 855-876): the internal queues are looked at in index
    order, CLASSIC (0) first. *)
Definition DoPeek (s : DualPi2QueueDisc) : option QueueDiscItem :=
  match Peek (GetInternalQueue CLASSIC s) with
  | Some item => Some item
  | None => Peek (GetInternalQueue L4S s)
  end.

(** [SetQueueLimit] (lines 176-181) and [SetAggregationBufferLimit]
    (lines 183-188). *)
Definition with_queueLimit (lim : Z) (a : Attributes) : Attributes :=
  mkAttrs (m_mtu a) (m_alpha a) (m_beta a) (m_tUpdate a) lim (m_target a)
          (m_minTh a) (m_range a) (m_k a) (m_schedulingWeight a) (m_drrQuantum a)
          (m_disableLaqm a) (m_enableWifiClassicLatencyEstimator a)
          (m_aggBufferLimit a).

Definition with_aggBufferLimit (limit : Z) (a : Attributes) : Attributes :=
  mkAttrs (m_mtu a) (m_alpha a) (m_beta a) (m_tUpdate a) (m_queueLimit a) (m_target a)
          (m_minTh a) (m_range a) (m_k a) (m_schedulingWeight a) (m_drrQuantum a)
          (m_disableLaqm a) (m_enableWifiClassicLatencyEstimator a) limit.

Definition SetQueueLimit (lim : Z) (s : DualPi2QueueDisc) : DualPi2QueueDisc :=
  set_attrs (with_queueLimit lim (attrs s)) s.

Definition SetAggregationBufferLimit (limit : Z) (s : DualPi2QueueDisc)
  : DualPi2QueueDisc :=
  set_attrs (with_aggBufferLimit limit (attrs s)) s.

(** ** Reachable states *)

(** Modelled from the spec: the member values of a newly constructed
    discipline, which the class declaration (not part of this module's
    source file) provides.  "base_prob in [0,1]", "two fractional counters
    count_C, count_L", deficit counters and an empty round mask; queues and
    staging queues start empty.  The base class holds the two internal
    queues that [CheckConfig] creates when none was added. *)
Definition fresh (a : Attributes) : DualPi2QueueDisc :=
  mkDisc a [] [] [] [] 0%Q 0%Q 0%Q 0%Q 0%Q 0%Q 0 0 0%Q 0%Q
         (mkBits false false) 0 0 0 0 0 []
         (snd (CheckConfig (m_queueLimit a) (mkSetup 0 0 []))).

(** Items carry a 32-bit size and an 8-bit DS field. *)
Definition wf_item (item : QueueDiscItem) : Prop :=
  is_u32 (GetSize item) /\
  match dsField item with
  | Some tos => 0 <= tos < 256
  | None => True
  end.

(** One external operation that runs to completion. *)
Inductive step : DualPi2QueueDisc -> DualPi2QueueDisc -> Prop :=
| step_enqueue item s :
    wf_item item -> step s (snd (DoEnqueue item s))
| step_dequeue now s r s' :
    DoDequeue now s = Ok (r, s') -> step s s'
| step_pending now stopped pendingBytes s s' :
    is_u32 pendingBytes ->
    PendingDequeueCallback now stopped pendingBytes s = Ok s' -> step s s'
| step_update now s s' :
    DualPi2Update now s = Ok s' -> step s s'
| step_queue_limit lim s :
    is_u32 lim -> step s (SetQueueLimit lim s)
| step_buffer_limit limit s :
    is_u32 limit -> step s (SetAggregationBufferLimit limit s).

(** A discipline starts with the attributes [a] and the base-class content
    [c] it was given; initialisation runs [CheckConfig], which has to
    accept, and then [InitializeParams]. *)
Inductive reachable : DualPi2QueueDisc -> Prop :=
| reach_init a c c' devMtu s :
    CheckConfig (m_queueLimit a) c = (true, c') ->
    InitializeParams devMtu (set_base c' (fresh a)) = Ok s -> reachable s
| reach_step s s' :
    reachable s -> step s s' -> reachable s'.

(** ** The specification's reading of the PI2 update (section 4.2)

    These follow the words of the specification and are compared with
    [DualPi2Update] below. *)
Definition spec_seconds (t : Time) : Q := (inject_Z t / 1000000000)%Q.

Definition spec_cQ (now : Time) (s : DualPi2QueueDisc) : Time :=
  if m_enableWifiClassicLatencyEstimator (attrs s) then
    let l1 := Z.max (m_cLatencySample s) (m_lLatencySample s) in
    let l2 := Z.quot (m_cBytesSample s * m_target (attrs s)) (m_aggBufferLimit (attrs s)) in
    Z.min l1 l2
  else
    match classicQ s with
    | item :: _ => now - GetTimeStamp item
    | [] => 0
    end.

Definition spec_lQ (now : Time) (s : DualPi2QueueDisc) : Time :=
  match l4sQ s with
  | item :: _ => now - GetTimeStamp item
  | [] => 0
  end.

Definition spec_current_q (now : Time) (s : DualPi2QueueDisc) : Time :=
  Z.max (spec_cQ now s) (spec_lQ now s).

Definition spec_base_prob (now : Time) (s : DualPi2QueueDisc) : Q :=
  let a := attrs s in
  let current_q := spec_current_q now s in
  Qmin 1 (Qmax 0 (m_baseProb s
                  + m_alpha a * (spec_seconds current_q - spec_seconds (m_target a))
                  + m_beta a * (spec_seconds current_q - spec_seconds (m_prevQ s))))%Q.

(** ** ECN codepoints, read bit by bit *)
Inductive EcnCodepoint : Type := NotECT | ECT1 | ECT0 | CE.

Definition codepoint (tos : Z) : EcnCodepoint :=
  match Z.testbit tos 1, Z.testbit tos 0 with
  | false, false => NotECT
  | false, true => ECT1
  | true, false => ECT0
  | true, true => CE
  end.

Definition item_codepoint (item : QueueDiscItem) : option EcnCodepoint :=
  option_map codepoint (dsField item).

(** The item with its ECN field set to CE, everything else as it was. *)
Definition set_CE (item : QueueDiscItem) : QueueDiscItem :=
  mkItem (GetSize item) (GetTimeStamp item) (option_map (fun tos => Z.lor tos 3) (dsField item)).

Definition is_ECT1 (item : QueueDiscItem) : bool :=
  match item_codepoint item with
  | Some ECT1 => true
  | _ => false
  end.





(** ** Invariants and auxiliary predicates *)

(** The state with the three DRR members blanked: two states agree on
    everything but the DRR members when their blanked versions are equal. *)
Definition drr_erased (s : DualPi2QueueDisc) : DualPi2QueueDisc :=
  set_m_drrQueues (mkBits false false) (set_m_llDeficit 0 (set_m_classicDeficit 0 s)).

(** What one pass of the scheduler loop may leave with. *)
Definition Scheduler_post (eligible : bool * bool) (l4sHolSize classicHolSize : Z)
    (s0 : DualPi2QueueDisc) (r : result (QueueIndex * DualPi2QueueDisc)) : Prop :=
  match r with
  | Ok (sel, s') =>
      drr_erased s' = drr_erased s0 /\
      ((sel = L4S /\ l4sHolSize <> 0 /\ snd eligible = true) \/
       (sel = CLASSIC /\ classicHolSize <> 0 /\ fst eligible = true))
  | Fatal f => f = DrrLogicError
  end.

(** Invariant 2 and 3 of the data model, as far as the code keeps them. *)
Definition probs_ok (s : DualPi2QueueDisc) : Prop :=
  (0 <= m_baseProb s <= 1 /\
   m_pC s == m_baseProb s * m_baseProb s /\
   m_pCL s == std_min (m_baseProb s * m_k (attrs s)) 1 /\
   m_pLmax s == 1)%Q.

Definition counts_ok (s : DualPi2QueueDisc) : Prop :=
  (0 <= m_classicCount s <= 1 /\ 0 <= m_l4sCount s <= 1)%Q.

(** Only items classified as L4S sit in the L4S queue. *)
Definition l4sQ_ok (s : DualPi2QueueDisc) : Prop :=
  Forall (fun item => IsL4s item = true) (l4sQ s).

(** The invariant carried along every run. *)
Definition PC (s : DualPi2QueueDisc) : Prop := probs_ok s /\ counts_ok s.

(** The PI2 members and the attributes, which only [InitializeParams] and
    [DualPi2Update] assign. *)
Definition pi2_view (s : DualPi2QueueDisc) :=
  (attrs s, m_baseProb s, m_pCL s, m_pC s, m_pCmax s, m_pLmax s, m_thLen s).

(** The outcome of [DequeueFromL4sQueue] when it hands out [item]: the item
    comes back as it was or CE-marked (then [marked] is set), the L4S queue
    has lost exactly that item and no drop was recorded. *)
Definition returns_head (item : QueueDiscItem) (rest : list QueueDiscItem)
    (s : DualPi2QueueDisc)
    (r : result (option QueueDiscItem * bool * DualPi2QueueDisc)) : Prop :=
  exists item' marked' s',
    r = Ok (Some item', marked', s') /\
    (item' = item \/ (item' = set_CE item /\ marked' = true)) /\
    l4sQ s' = rest /\ dropLog s' = dropLog s.

(** [iterate], pass by pass: the same loop counted in unary, used to reason
    about a given number of passes. *)
Fixpoint iterate_nat {X R : Type} (body : X -> loop_result X R) (n : nat) (x : X)
  : loop_result X R :=
  match n with
  | O => Continue x
  | S n' =>
      match body x with
      | Continue x' => iterate_nat body n' x'
      | Break r => Break r
      end
  end.

(** A pass of the loop that selects nothing and leaves the discipline as it
    found it. *)
Definition idle_pass (eligible : bool * bool) (l c : Z) (s : DualPi2QueueDisc) : Prop :=
  forall i m, (i <? m) = true ->
    Scheduler_body eligible l c (i, m, s) = Continue (u32 (i + 1), u32 (m + 1), s).

(** [q'] is what is left of [q] once some packets were taken from its head. *)
Definition remainder_of (q' q : list QueueDiscItem) : Prop :=
  exists pre, q = pre ++ q'.

(** The DRR state between two passes of the scheduler loop when both classes
    are eligible and nothing was selected: the round mask is empty and the
    deficit of a backlogged class is below its head-of-line size. *)
Definition round_over (a : Attributes) (l c : Z) (s : DualPi2QueueDisc) : Prop :=
  attrs s = a /\
  m_drrQueues s = mkBits false false /\
  (l <> 0 -> 0 <= m_llDeficit s < l) /\ (l = 0 -> m_llDeficit s = 0) /\
  (c <> 0 -> 0 <= m_classicDeficit s < c) /\ (c = 0 -> m_classicDeficit s = 0).

(** Bytes of deficit still missing before a backlogged class is served. *)
Definition deficit_gap (l c : Z) (s : DualPi2QueueDisc) : Z :=
  if c =? 0 then l - m_llDeficit s else c - m_classicDeficit s.

(** The result is a selection of one of the two classes. *)
Definition selects (r : result (QueueIndex * DualPi2QueueDisc)) : Prop :=
  exists sel s', r = Ok (sel, s') /\ (sel = L4S \/ sel = CLASSIC).

(** ** Runs of dequeues *)

(** [n] calls of [DoDequeue] at the same instant, as long as each hands out
    a packet: the packets in the order they came out, and the final state. *)
Fixpoint drain (n : nat) (now : Time) (s : DualPi2QueueDisc)
  : result (list QueueDiscItem * DualPi2QueueDisc) :=
  match n with
  | O => Ok ([], s)
  | S n' =>
      '(r, s) <- DoDequeue now s ;;
      match r with
      | Some item =>
          '(items, s) <- drain n' now s ;;
          Ok (item :: items, s)
      | None => Ok ([], s)
      end
  end.

(** ** Views of the state used to say what an operation leaves alone *)

(** Everything but what the L4S dequeue writes. *)
Definition l4s_erased (s : DualPi2QueueDisc) : DualPi2QueueDisc :=
  set_l4sQ [] (set_m_pL 0%Q (set_m_l4sCount 0%Q (set_dropLog [] s))).

(** Everything but what the Classic dequeue writes. *)
Definition classic_erased (s : DualPi2QueueDisc) : DualPi2QueueDisc :=
  set_classicQ [] (set_m_classicCount 0%Q (set_dropLog [] s)).

(** Everything but what [DualPi2Update] writes. *)
Definition update_erased (s : DualPi2QueueDisc) : DualPi2QueueDisc :=
  set_m_baseProb 0%Q (set_m_pCL 0%Q (set_m_pC 0%Q (set_m_prevQ 0 s))).

(** The drop-log entries of a list of packets dropped for one reason. *)
Definition drops_of (r : DropReason) (dropped : list QueueDiscItem)
  : list (QueueDiscItem * DropReason) :=
  map (fun item => (item, r)) dropped.

(** Packets the discipline holds, in its queues and staging queues. *)
Definition held (s : DualPi2QueueDisc) : nat :=
  (length (classicQ s) + length (l4sQ s)
   + length (m_classicStagingQueue s) + length (m_l4sStagingQueue s))%nat.

(** Bytes of a queue as the Wi-Fi layer frames them, 38 more per packet. *)
Fixpoint wifi_bytes (q : list QueueDiscItem) : Z :=
  match q with
  | [] => 0
  | item :: rest => u32 (GetSize item + 38) + wifi_bytes rest
  end.

(** How [DequeueFromL4sQueue] may hand out the packet [orig]: as it was, or
    set to CE with [marked] raised. *)
Definition served_l4s (orig item : QueueDiscItem) (before after : bool) : Prop :=
  (item = orig /\ after = before) \/ (item = set_CE orig /\ after = true).

(** [item] is one of the packets of [q], as it was or set to CE. *)
Definition came_from (q : list QueueDiscItem) (item : QueueDiscItem) : Prop :=
  exists orig, In orig q /\ (item = orig \/ item = set_CE orig).

(** A drop-log entry for an AQM drop of a packet of [preC] (Classic) or of
    [preL] (L4S), filed under the reason of its queue. *)
Definition aqm_drop (preC preL : list QueueDiscItem)
    (d : QueueDiscItem * DropReason) : Prop :=
  (In (fst d) preC /\ snd d = UNFORCED_CLASSIC_DROP) \/
  (In (fst d) preL /\ snd d = UNFORCED_L4S_DROP).

(** From [s] to [s'] packets were only taken from the heads of the two
    internal queues: each of them was either dropped by the AQM and logged,
    or handed out, the Classic ones ([outC]) untouched and the L4S ones
    ([outL]) possibly CE-marked; the PI2 members kept their values. *)
Definition taken (s s' : DualPi2QueueDisc) (outC outL : list QueueDiscItem) : Prop :=
  exists preC preL drops,
    classicQ s = preC ++ classicQ s' /\
    l4sQ s = preL ++ l4sQ s' /\
    dropLog s' = dropLog s ++ drops /\
    (length preC + length preL = length outC + length outL + length drops)%nat /\
    Forall (fun item => In item preC) outC /\
    Forall (came_from preL) outL /\
    Forall (aqm_drop preC preL) drops /\
    pi2_view s' = pi2_view s.

(** Every packet sits where its classification at enqueue put it, in the
    internal queues and in the staging queues. *)
Definition classified (s : DualPi2QueueDisc) : Prop :=
  Forall (fun item => IsL4s item = true) (l4sQ s) /\
  Forall (fun item => IsL4s item = false) (classicQ s) /\
  Forall (fun item => IsL4s item = true) (m_l4sStagingQueue s) /\
  Forall (fun item => IsL4s item = false) (m_classicStagingQueue s).

(** The two internal queues count bytes and have room for [m_queueLimit]
    bytes each: what [CheckConfig] leaves when it creates them, for as long
    as the limit is not raised. *)
Definition capacity_covers_limit (s : DualPi2QueueDisc) : Prop :=
  GetUnit (GetMaxSize CLASSIC s) = BYTES /\
  GetUnit (GetMaxSize L4S s) = BYTES /\
  m_queueLimit (attrs s) <= GetValue (GetMaxSize CLASSIC s) /\
  m_queueLimit (attrs s) <= GetValue (GetMaxSize L4S s).

(** The queued packets have 32-bit sizes. *)
Definition sizes_ok (s : DualPi2QueueDisc) : Prop :=
  Forall wf_item (classicQ s) /\ Forall wf_item (l4sQ s).

(** The bytes queued are within the limit of the discipline. *)
Definition within_limit (s : DualPi2QueueDisc) : Prop :=
  nbytes (classicQ s) + nbytes (l4sQ s) <= m_queueLimit (attrs s).

(** A packet the scheduler can always serve under the attributes [a]: it
    has bytes, and a deficit counter that has reached its size and is
    credited once more stays clear of the end of the 32-bit range. *)
Definition servable (a : Attributes) (item : QueueDiscItem) : Prop :=
  0 < GetSize item /\
  (inject_Z (GetSize item) + inject_Z (m_drrQuantum a) * m_schedulingWeight a
   < inject_Z (two32 - 1000))%Q.

(** The packet a dequeue handed out, as a list. *)
Definition handed_out (r : option QueueDiscItem) : list QueueDiscItem :=
  match r with
  | Some item => [item]
  | None => []
  end.

(** [l1] is [l2] with some elements left out, the order kept. *)
Inductive subseq {A : Type} : list A -> list A -> Prop :=
| subseq_nil : subseq [] []
| subseq_skip x l1 l2 : subseq l1 l2 -> subseq l1 (x :: l2)
| subseq_keep x l1 l2 : subseq l1 l2 -> subseq (x :: l1) (x :: l2).

(** As [taken], with the order: the Classic packets handed out are, in
    order, packets of what was taken from the Classic queue, and the L4S
    packets handed out are, in order and up to CE-marking, packets of what
    was taken from the L4S queue. *)
Definition taken_in_order (s s' : DualPi2QueueDisc)
    (outC outL : list QueueDiscItem) : Prop :=
  exists preC preL origL,
    classicQ s = preC ++ classicQ s' /\
    l4sQ s = preL ++ l4sQ s' /\
    subseq outC preC /\
    subseq origL preL /\
    Forall2 (fun orig item => item = orig \/ item = set_CE orig) origL outL.

(** From [s] to [s'] every packet taken from an internal queue went to
    exactly one place.  The packets taken from the Classic queue are, up to
    their order, the packets handed out ([outC]) and the packets dropped
    ([goneC]); the packets taken from the L4S queue are the packets handed
    out, as they were or set to CE ([origL] before, [outL] after), and the
    packets dropped ([goneL]); and the entries added to the drop log are
    the dropped packets, each once, under the reason of its queue. *)
Definition taken_exactly (s s' : DualPi2QueueDisc)
    (outC outL : list QueueDiscItem) : Prop :=
  exists preC preL goneC goneL origL drops,
    classicQ s = preC ++ classicQ s' /\
    l4sQ s = preL ++ l4sQ s' /\
    dropLog s' = dropLog s ++ drops /\
    Permutation drops (drops_of UNFORCED_CLASSIC_DROP goneC
                       ++ drops_of UNFORCED_L4S_DROP goneL) /\
    Permutation preC (outC ++ goneC) /\
    Permutation preL (origL ++ goneL) /\
    Forall2 (fun orig item => item = orig \/ item = set_CE orig) origL outL.

(** A run of the discipline from its initialisation, with its history: the
    packets offered to [DoEnqueue] and the packets handed out by
    [DoDequeue], each in the order of the calls. *)
Inductive history
  : DualPi2QueueDisc -> list QueueDiscItem -> list QueueDiscItem -> Prop :=
| history_init a c c' devMtu s :
    CheckConfig (m_queueLimit a) c = (true, c') ->
    InitializeParams devMtu (set_base c' (fresh a)) = Ok s -> history s [] []
| history_enqueue item s offered served :
    history s offered served ->
    history (snd (DoEnqueue item s)) (offered ++ [item]) served
| history_dequeue now s r s' offered served :
    history s offered served -> DoDequeue now s = Ok (r, s') ->
    history s' offered (served ++ handed_out r)
| history_pending now stopped pendingBytes s s' offered served :
    history s offered served -> is_u32 pendingBytes ->
    PendingDequeueCallback now stopped pendingBytes s = Ok s' ->
    history s' offered served
| history_update now s s' offered served :
    history s offered served -> DualPi2Update now s = Ok s' ->
    history s' offered served
| history_queue_limit lim s offered served :
    history s offered served -> is_u32 lim ->
    history (SetQueueLimit lim s) offered served
| history_buffer_limit limit s offered served :
    history s offered served -> is_u32 limit ->
    history (SetAggregationBufferLimit limit s) offered served.

(** The Classic packets and the L4S packets of a history. *)
Definition classic_of (q : list QueueDiscItem) : list QueueDiscItem :=
  filter (fun item => negb (IsL4s item)) q.

Definition l4s_of (q : list QueueDiscItem) : list QueueDiscItem :=
  filter IsL4s q.

(** ** Example runs

    A discipline with the default attributes on a device with a 1500-byte
    MTU, and a few packets. *)
Definition ex_init : DualPi2QueueDisc :=
  match InitializeParams (Some 1500) (fresh default_attrs) with
  | Ok s => s
  | Fatal _ => fresh default_attrs
  end.

(** A packet of [size] bytes, stamped at time [ts], with DS field [tos]. *)
Definition ex_packet (size : Z) (ts : Time) (tos : Z) : QueueDiscItem :=
  mkItem size ts (Some tos).

Definition after_enqueue (item : QueueDiscItem) (s : DualPi2QueueDisc) :=
  snd (DoEnqueue item s).

Definition after_update (now : Time) (s : DualPi2QueueDisc) :=
  match DualPi2Update now s with Ok s' => s' | Fatal _ => s end.

Definition after_dequeue (now : Time) (s : DualPi2QueueDisc) :=
  match DoDequeue now s with Ok (_, s') => s' | Fatal _ => s end.

(** One Not-ECT packet queued at time 0, and the PI2 timer firing one second
    later: the controller saturates. *)
Definition ex_overload : DualPi2QueueDisc :=
  after_update 1000000000 (after_enqueue (ex_packet 1500 0 0) ex_init).

(** The Wi-Fi set-up: latency estimator on, aggregation buffer limit set. *)
Definition ex_wifi_attrs : Attributes :=
  mkAttrs 1500 (15 # 100) 3 (MilliSeconds 15) 1562500 (MilliSeconds 15)
          (MicroSeconds 800) (MicroSeconds 400) 2 9 1500 true true 65535.

Definition ex_wifi : DualPi2QueueDisc :=
  let s := match InitializeParams None (fresh ex_wifi_attrs) with
           | Ok s => s
           | Fatal _ => fresh ex_wifi_attrs
           end in
  let s := after_enqueue (ex_packet 1500 0 0) s in
  match PendingDequeueCallback (MilliSeconds 20) false 0 s with
  | Ok s' => s'
  | Fatal _ => s
  end.

(** A queue holding 1000 bytes and a packet whose size is close to 2^32. *)
Definition ex_small_queue : DualPi2QueueDisc :=
  after_enqueue (ex_packet 1000 0 0) ex_init.

Definition ex_huge_packet : QueueDiscItem := ex_packet 4294966796 0 0.

(** A discipline created with a limit of 3000 bytes holds two packets of
    1400 bytes; then the limit is raised to 5000 bytes. *)
Definition ex_raised_limit : DualPi2QueueDisc :=
  let a := with_queueLimit 3000 default_attrs in
  let s := match InitializeParams (Some 1500) (fresh a) with
           | Ok s => s
           | Fatal _ => fresh a
           end in
  SetQueueLimit 5000
    (after_enqueue (ex_packet 1400 1 0) (after_enqueue (ex_packet 1400 0 0) s)).

(** Two ECT(1) packets queued at time 0, the controller still at rest. *)
Definition ex_two_l4s : DualPi2QueueDisc :=
  after_enqueue (ex_packet 1500 0 1) (after_enqueue (ex_packet 1500 0 1) ex_init).

(** Three Not-ECT packets queued at times 0, 1, 2 (ns), then the timer
    firing at one second: [p_C = 1 >= p_Cmax]. *)
Definition ex_three_classic : DualPi2QueueDisc :=
  after_update 1000000000
    (after_enqueue (ex_packet 1500 2 0)
       (after_enqueue (ex_packet 1500 1 0)
          (after_enqueue (ex_packet 1500 0 0) ex_init))).

(** Two Classic packets and one L4S packet are queued and two packets are
    dequeued, which ends the L4S round with the Classic bit still set; then
    a 100-byte L4S packet arrives. *)
Definition ex_stuck : DualPi2QueueDisc :=
  after_enqueue (ex_packet 100 10 1)
    (after_dequeue 5
       (after_dequeue 5
          (after_enqueue (ex_packet 1500 0 1)
             (after_enqueue (ex_packet 1500 0 0)
                (after_enqueue (ex_packet 1500 0 0) ex_init))))).

(** Eight ECT(1) packets of 1500 bytes, the controller at rest. *)
Definition ex_eight_l4s : DualPi2QueueDisc :=
  fold_left (fun s ts => after_enqueue (ex_packet 1500 ts 1) s)
            [0; 1; 2; 3; 4; 5; 6; 7] ex_init.



(** * Basic facts *)

Lemma u32_small z : is_u32 z -> u32 z = z.
Proof. intros H. unfold u32. apply Z.mod_small. exact H. Qed.

Lemma u32_range z : is_u32 (u32 z).
Proof. unfold u32, is_u32, two32. apply Z.mod_pos_bound. lia. Qed.

Local Open Scope Q_scope.

Lemma Qltb_lt a b : Qltb a b = true <-> a < b.
Proof.
  unfold Qltb. rewrite negb_true_iff. split; intros H.
  - apply Qnot_le_lt. intros C. apply Qle_bool_iff in C. congruence.
  - destruct (Qle_bool b a) eqn:E; [|reflexivity].
    apply Qle_bool_iff in E. exfalso. apply (Qlt_not_le _ _ H E).
Qed.

Lemma Qltb_ge a b : Qltb a b = false <-> b <= a.
Proof.
  unfold Qltb. rewrite negb_false_iff. apply Qle_bool_iff.
Qed.

Lemma std_max_spec a b : std_max a b == Qmax a b.
Proof.
  unfold std_max. destruct (Qltb a b) eqn:E.
  - apply Qltb_lt in E. symmetry. apply Q.max_r. apply Qlt_le_weak, E.
  - apply Qltb_ge in E. symmetry. apply Q.max_l. exact E.
Qed.

Lemma std_min_spec a b : std_min a b == Qmin a b.
Proof.
  unfold std_min. destruct (Qltb b a) eqn:E.
  - apply Qltb_lt in E. symmetry. apply Q.min_r. apply Qlt_le_weak, E.
  - apply Qltb_ge in E. symmetry. apply Q.min_l. exact E.
Qed.

Local Open Scope Z_scope.

(** * [Recur] *)

Local Open Scope Q_scope.

Lemma Recur_fires count likelihood :
  1 < count + likelihood ->
  Recur count likelihood = (true, count + likelihood - 1).
Proof.
  intros H. unfold Recur. apply Qltb_lt in H. rewrite H. reflexivity.
Qed.

Lemma Recur_holds count likelihood :
  count + likelihood <= 1 ->
  Recur count likelihood = (false, count + likelihood).
Proof.
  intros H. unfold Recur. apply Qltb_ge in H. rewrite H. reflexivity.
Qed.

Lemma Recur_cases count likelihood :
  (1 < count + likelihood /\ Recur count likelihood = (true, count + likelihood - 1)) \/
  (count + likelihood <= 1 /\ Recur count likelihood = (false, count + likelihood)).
Proof.
  destruct (Qlt_le_dec 1 (count + likelihood)) as [H|H].
  - left. split; [exact H | apply Recur_fires, H].
  - right. split; [exact H | apply Recur_holds, H].
Qed.

(** The counter stays in [0, 1] when the likelihood is in [0, 1]. *)
Lemma Recur_bounds count likelihood :
  0 <= count <= 1 -> 0 <= likelihood <= 1 ->
  0 <= snd (Recur count likelihood) <= 1.
Proof.
  intros Hc Hl.
  destruct (Recur_cases count likelihood) as [[H E]|[H E]]; rewrite E; simpl; lra.
Qed.

Local Open Scope Z_scope.

(** * Loops *)

Section Loops.

Context {X R : Type}.
Variable body : X -> loop_result X R.

(** An invariant of the body holds when the loop is left, and after any
    number of passes. *)
Lemma iterate_inv (I : X -> Prop) (P : R -> Prop) :
  (forall x, I x -> match body x with Continue x' => I x' | Break r => P r end) ->
  forall n x, I x ->
    match iterate body n x with Continue x' => I x' | Break r => P r end.
Proof.
  intros Hbody. induction n as [p IH|p IH|]; intros x Hx; simpl.
  - pose proof (Hbody x Hx) as H1. destruct (body x) as [x1|r]; [|exact H1].
    pose proof (IH x1 H1) as H2. destruct (iterate body p x1) as [x2|r]; [|exact H2].
    apply IH, H2.
  - pose proof (IH x Hx) as H1. destruct (iterate body p x) as [x1|r]; [|exact H1].
    apply IH, H1.
  - apply Hbody, Hx.
Qed.

Lemma iterate_nat_add (a b : nat) (x : X) :
  iterate_nat body (a + b) x =
  match iterate_nat body a x with
  | Continue x' => iterate_nat body b x'
  | Break r => Break r
  end.
Proof.
  revert x. induction a as [|a IH]; intros x; simpl; [reflexivity|].
  destruct (body x) as [x'|r]; [apply IH | reflexivity].
Qed.

Lemma iterate_nat_1 (x : X) : iterate_nat body 1 x = body x.
Proof. simpl. destruct (body x); reflexivity. Qed.

(** The binary loop makes as many passes as the unary one. *)
Lemma iterate_iterate_nat (p : positive) (x : X) :
  iterate body p x = iterate_nat body (Pos.to_nat p) x.
Proof.
  revert x. induction p as [p IH|p IH|]; intros x.
  - rewrite Pos2Nat.inj_xI.
    replace (S (2 * Pos.to_nat p)) with (1 + (Pos.to_nat p + Pos.to_nat p))%nat by lia.
    rewrite iterate_nat_add, iterate_nat_1. simpl iterate.
    destruct (body x) as [x1|r]; [|reflexivity].
    rewrite iterate_nat_add, IH.
    destruct (iterate_nat body (Pos.to_nat p) x1); [apply IH | reflexivity].
  - rewrite Pos2Nat.inj_xO.
    replace (2 * Pos.to_nat p)%nat with (Pos.to_nat p + Pos.to_nat p)%nat by lia.
    rewrite iterate_nat_add. simpl iterate.
    rewrite IH. destruct (iterate_nat body (Pos.to_nat p) x); [apply IH | reflexivity].
  - simpl. destruct (body x); reflexivity.
Qed.

End Loops.

(** * The scheduler only touches the DRR state *)

Lemma Scheduler_body_post eligible l c s0 i m s :
  drr_erased s = drr_erased s0 ->
  match Scheduler_body eligible l c (i, m, s) with
  | Continue (_, _, s') => drr_erased s' = drr_erased s0
  | Break r => Scheduler_post eligible l c s0 r
  end.
Proof.
  intros H. unfold Scheduler_body.
  destruct (i <? m); simpl; [|reflexivity].
  assert (H1 : drr_erased (if bits_none (m_drrQueues s) then start_round s else s)
               = drr_erased s0).
  { destruct (bits_none (m_drrQueues s)); [|exact H]. rewrite <- H. reflexivity. }
  revert H1. generalize (if bits_none (m_drrQueues s) then start_round s else s).
  clear s H. intros s H.
  destruct (l =? 0) eqn:El; destruct (snd eligible) eqn:E2; simpl.
  all: try (destruct (l <=? m_llDeficit s); simpl).
  all: try (split; [rewrite <- H; reflexivity
                   | left; repeat split; try assumption; apply Z.eqb_neq, El]).
  all: destruct (c =? 0) eqn:Ec; destruct (fst eligible) eqn:E1; simpl.
  all: try (match goal with |- context [?x <=? ?d] => destruct (x <=? d) end; simpl).
  all: try (rewrite <- H; reflexivity).
  all: try (split; [rewrite <- H; reflexivity
                   | right; repeat split; try assumption; apply Z.eqb_neq, Ec]).
Qed.

Lemma Scheduler_spec eligible s :
  match Scheduler eligible s with
  | Ok (sel, s') =>
      drr_erased s' = drr_erased s /\
      match sel with
      | L4S => l4sQ s <> [] /\ snd eligible = true
      | CLASSIC => classicQ s <> [] /\ fst eligible = true
      | NONE => s' = s /\ disc_GetNPackets s = 0
      end
  | Fatal f => f = NeitherEligible \/ f = DrrLogicError \/ f = OutOfFuel
  end.
Proof.
  unfold Scheduler.
  destruct (fst eligible || snd eligible); cbn [bind assert]; [|left; reflexivity].
  destruct (disc_GetNPackets s =? 0) eqn:En.
  { split; [reflexivity|]. split; [reflexivity|]. apply Z.eqb_eq, En. }
  assert (Hb : forall x, drr_erased (snd x) = drr_erased s ->
     match Scheduler_body eligible (hol_size (l4sQ s)) (hol_size (classicQ s)) x with
     | Continue x' => drr_erased (snd x') = drr_erased s
     | Break r => Scheduler_post eligible (hol_size (l4sQ s)) (hol_size (classicQ s)) s r
     end).
  { intros [[i m] s1] Hx. simpl in Hx.
    pose proof (Scheduler_body_post eligible (hol_size (l4sQ s)) (hol_size (classicQ s))
                  s i m s1 Hx) as Hp.
    destruct (Scheduler_body _ _ _ _) as [[[i' m'] s']|r]; simpl; exact Hp. }
  pose proof (iterate_inv _ _ _ Hb Scheduler_passes (0, 1000, s) eq_refl) as Hr.
  cbn [GetInternalQueue].
  destruct (iterate _ _ _) as [x|r].
  - right; right; reflexivity.
  - destruct r as [[sel s']|f]; simpl in Hr.
    + destruct Hr as [Hf [[-> [Hl He]]|[-> [Hc He]]]]; split; try exact Hf; split;
        try exact He; intros C; rewrite C in *; auto.
    + right; left; exact Hr.
Qed.

(** * Probabilities and counters stay in range *)

Local Open Scope Q_scope.

Lemma std_min_le_r a b : std_min a b <= b.
Proof. rewrite std_min_spec. apply Q.le_min_r. Qed.

Lemma std_min_le_l a b : std_min a b <= a.
Proof. rewrite std_min_spec. apply Q.le_min_l. Qed.

Lemma std_min_glb a b c : c <= a -> c <= b -> c <= std_min a b.
Proof. intros. rewrite std_min_spec. apply Q.min_glb; assumption. Qed.

Lemma std_max_ge_l a b : a <= std_max a b.
Proof. rewrite std_max_spec. apply Q.le_max_l. Qed.

Lemma std_max_ge_r a b : b <= std_max a b.
Proof. rewrite std_max_spec. apply Q.le_max_r. Qed.

Lemma std_max_lub a b c : a <= c -> b <= c -> std_max a b <= c.
Proof. intros. rewrite std_max_spec. apply Q.max_lub; assumption. Qed.

Lemma GetSeconds_pos t : (0 < t)%Z -> 0 < GetSeconds t.
Proof. intros H. unfold GetSeconds, Qlt. simpl. lia. Qed.

Lemma Laqm_nonneg a qDelay : 0 <= Laqm a qDelay.
Proof.
  unfold Laqm. destruct (m_disableLaqm a); [lra|].
  destruct (m_minTh a + m_range a <=? qDelay)%Z eqn:E1; [lra|].
  destruct (m_minTh a <? qDelay)%Z eqn:E2; [|lra].
  apply Z.leb_gt in E1. apply Z.ltb_lt in E2.
  apply Qlt_le_weak, Qlt_shift_div_l.
  - apply GetSeconds_pos. lia.
  - rewrite Qmult_0_l. apply GetSeconds_pos. lia.
Qed.

Lemma probs_ok_bounds s :
  probs_ok s ->
  0 <= m_pC s <= 1 /\ m_pCL s <= 1 /\ (0 <= m_k (attrs s) -> 0 <= m_pCL s).
Proof.
  intros [Hb [HC [HCL _]]]. rewrite HC, HCL. split; [nra|]. split.
  - apply std_min_le_r.
  - intros Hk. apply std_min_glb; [nra|lra].
Qed.

Local Open Scope Z_scope.

(** Unfolding equations of the two dequeue loops. *)
Lemma DequeueFromL4sQueue_loop_eq now marked qdItem q s :
  DequeueFromL4sQueue_loop now marked qdItem q s =
  if Qltb (m_pCL s) (m_pLmax s) then
    let pPrimeL :=
      if m_thLen s <? GetNPackets (GetInternalQueue L4S s)
      then Laqm (attrs s) (now - GetTimeStamp qdItem)
      else 0%Q in
    let pL := std_max pPrimeL (m_pCL s) in
    let pL := std_min pL 1 in
    let s := set_m_pL pL s in
    let '(fire, count) := Recur (m_l4sCount s) pL in
    let s := set_m_l4sCount count s in
    if fire then
      let '(ok, qdItem) := Mark qdItem in
      _ <- assert ok CannotMarkL4s ;;
      Ok (Some qdItem, ok, s)
    else Ok (Some qdItem, marked, s)
  else
    let '(fire, count) := Recur (m_l4sCount s) (m_pC s) in
    let s := set_m_l4sCount count s in
    if fire then
      let s := DropAfterDequeue qdItem UNFORCED_L4S_DROP s in
      match q with
      | next :: q' =>
          DequeueFromL4sQueue_loop now marked next q' (SetInternalQueue L4S q' s)
      | [] => Ok (None, marked, s)
      end
    else
      let '(fire, count) := Recur (m_l4sCount s) (m_pCL s) in
      let s := set_m_l4sCount count s in
      if fire then
        let '(ok, qdItem) := Mark qdItem in
        _ <- assert ok CannotMarkL4s ;;
        Ok (Some qdItem, ok, s)
      else Ok (Some qdItem, marked, s).
Proof. destruct q; reflexivity. Qed.

Lemma DequeueFromClassicQueue_loop_eq dropped qdItem q s :
  DequeueFromClassicQueue_loop dropped qdItem q s =
  let '(fire, count) := Recur (m_classicCount s) (m_pC s) in
  let s := set_m_classicCount count s in
  if fire || Qle_bool (m_pCmax s) (m_pC s) then
    let s := DropAfterDequeue qdItem UNFORCED_CLASSIC_DROP s in
    match q with
    | next :: q' =>
        DequeueFromClassicQueue_loop true next q' (SetInternalQueue CLASSIC q' s)
    | [] => (None, true, s)
    end
  else (Some qdItem, dropped, s).
Proof. destruct q; reflexivity. Qed.

Lemma probs_ok_view s s' : pi2_view s' = pi2_view s -> probs_ok s -> probs_ok s'.
Proof.
  unfold pi2_view, probs_ok. intros H. injection H as -> -> -> -> _ -> _. tauto.
Qed.

(** ** The L4S dequeue *)

Lemma counts_ok_l4sCount s c :
  counts_ok s -> (0 <= c <= 1)%Q -> counts_ok (set_m_l4sCount c s).
Proof. intros [H _] Hc. split; [exact H | exact Hc]. Qed.

Lemma counts_ok_classicCount s c :
  counts_ok s -> (0 <= c <= 1)%Q -> counts_ok (set_m_classicCount c s).
Proof. intros [_ H] Hc. split; [exact Hc | exact H]. Qed.

Ltac recur_on Hcount Hlike :=
  match goal with
  | |- context [Recur ?c ?l] =>
      let Hb := fresh "Hb" in
      let fire := fresh "fire" in
      let count := fresh "count" in
      pose proof (Recur_bounds c l Hcount Hlike) as Hb;
      destruct (Recur c l) as [fire count]; cbn [snd] in Hb;
      destruct fire
  end.

Ltac returns_with tac :=
  let H := fresh "H" in
  intros H; inversion H; subst; clear H; split; [reflexivity | tac].

Lemma l4s_pL_bounds (b : bool) (laqm pCL : Q) :
  (0 <= laqm)%Q ->
  (0 <= std_min (std_max (if b then laqm else 0%Q) pCL) 1 <= 1)%Q.
Proof.
  intros H. split; [|apply std_min_le_r].
  apply std_min_glb; [|lra].
  eapply Qle_trans; [|apply std_max_ge_l]. destruct b; [exact H|lra].
Qed.

Lemma DequeueFromL4sQueue_loop_Inv now q :
  forall marked qdItem s r m s',
    probs_ok s -> counts_ok s ->
    DequeueFromL4sQueue_loop now marked qdItem q s = Ok (r, m, s') ->
    pi2_view s' = pi2_view s /\ counts_ok s'.
Proof.
  induction q as [|next q' IH]; intros marked qdItem s r m s' Hp Hc;
    rewrite DequeueFromL4sQueue_loop_eq; cbv zeta;
    destruct (probs_ok_bounds _ Hp) as [HpC [HpCL _]];
    pose proof Hp as [Hbp [_ [_ HLmax]]]; pose proof Hc as [HcC HcL];
    destruct (Qltb (m_pCL s) (m_pLmax s)) eqn:Eov;
    cbn [m_l4sCount set_m_pL m_pC m_pCL].
  1, 3: (* normal regime *)
    recur_on HcL (l4s_pL_bounds (m_thLen s <? GetNPackets (GetInternalQueue L4S s))
                    (Laqm (attrs s) (now - GetTimeStamp qdItem)) (m_pCL s)
                    (Laqm_nonneg _ _));
    [ destruct (Mark qdItem) as [[|] it]; cbn [bind assert];
      [ returns_with ltac:(apply counts_ok_l4sCount; [exact Hc | exact Hb])
      | discriminate ]
    | returns_with ltac:(apply counts_ok_l4sCount; [exact Hc | exact Hb]) ].
  all: assert (HCL01 : (0 <= m_pCL s <= 1)%Q) by (apply Qltb_ge in Eov; lra).
  all: recur_on HcL HpC.
  2, 4: (* not dropped: second draw, with p_CL *)
    cbn [m_l4sCount set_m_l4sCount m_pCL];
    recur_on Hb HCL01;
    [ destruct (Mark qdItem) as [[|] it]; cbn [bind assert];
      [ returns_with ltac:(split; assumption) | discriminate ]
    | returns_with ltac:(split; assumption) ].
  - (* dropped, queue exhausted *)
    returns_with ltac:(split; assumption).
  - (* dropped, next packet *)
    intros H. apply IH in H.
    + destruct H as [Hv Hc']. split; [rewrite Hv; reflexivity | exact Hc'].
    + exact Hp.
    + split; assumption.
Qed.

Lemma DequeueFromL4sQueue_Inv now marked s r m s' :
  probs_ok s -> counts_ok s ->
  DequeueFromL4sQueue now marked s = Ok (r, m, s') ->
  pi2_view s' = pi2_view s /\ counts_ok s'.
Proof.
  intros Hp Hc. unfold DequeueFromL4sQueue. cbn [GetInternalQueue].
  destruct (l4sQ s) as [|qdItem q].
  - intros H. inversion H; subst. split; [reflexivity | exact Hc].
  - intros H. apply DequeueFromL4sQueue_loop_Inv in H; [exact H | exact Hp | exact Hc].
Qed.

(** ** The Classic dequeue *)
Lemma DequeueFromClassicQueue_loop_Inv q :
  forall dropped qdItem s r d s',
    probs_ok s -> counts_ok s ->
    DequeueFromClassicQueue_loop dropped qdItem q s = (r, d, s') ->
    pi2_view s' = pi2_view s /\ counts_ok s'.
Proof.
  induction q as [|next q' IH]; intros dropped qdItem s r d s' Hp Hc;
    rewrite DequeueFromClassicQueue_loop_eq; cbv zeta;
    destruct (probs_ok_bounds _ Hp) as [HpC _]; pose proof Hc as [HcC HcL];
    recur_on HcC HpC;
    cbn [orb m_pCmax m_pC set_m_classicCount];
    try destruct (Qle_bool (m_pCmax s) (m_pC s)).
  all: try (returns_with ltac:(split; assumption)).
  all: intros H; apply IH in H; [ destruct H as [Hv Hc']; split;
                                   [rewrite Hv; reflexivity | exact Hc']
                                 | exact Hp | split; assumption ].
Qed.

Lemma DequeueFromClassicQueue_Inv dropped s r d s' :
  probs_ok s -> counts_ok s ->
  DequeueFromClassicQueue dropped s = (r, d, s') ->
  pi2_view s' = pi2_view s /\ counts_ok s'.
Proof.
  intros Hp Hc. unfold DequeueFromClassicQueue. cbn [GetInternalQueue].
  destruct (classicQ s) as [|qdItem q]; cbn [Dequeue SetInternalQueue].
  - destruct (_ <? _); intros H; inversion H; subst; split; (reflexivity || exact Hc).
  - destruct (_ <? _).
    + intros H; inversion H; subst; split; (reflexivity || exact Hc).
    + intros H. apply DequeueFromClassicQueue_loop_Inv in H; [exact H | exact Hp | exact Hc].
Qed.

(** ** Probabilities and counters through every operation *)

Lemma drr_erased_fields s s' :
  drr_erased s' = drr_erased s ->
  pi2_view s' = pi2_view s /\
  m_classicCount s' = m_classicCount s /\ m_l4sCount s' = m_l4sCount s /\
  classicQ s' = classicQ s /\ l4sQ s' = l4sQ s /\
  m_classicStagingQueue s' = m_classicStagingQueue s /\
  m_l4sStagingQueue s' = m_l4sStagingQueue s /\
  dropLog s' = dropLog s.
Proof.
  destruct s, s'. unfold drr_erased, pi2_view. cbn. intros H.
  inversion H; subst. repeat split.
Qed.

Lemma PC_view s s' :
  pi2_view s' = pi2_view s -> counts_ok s' -> PC s -> PC s'.
Proof.
  intros Hv Hc [Hp _]. split; [exact (probs_ok_view _ _ Hv Hp) | exact Hc].
Qed.

Lemma Scheduler_PC eligible s sel s' :
  Scheduler eligible s = Ok (sel, s') -> PC s -> PC s'.
Proof.
  intros H HPC. pose proof (Scheduler_spec eligible s) as Hs. rewrite H in Hs.
  destruct Hs as [He _]. apply drr_erased_fields in He.
  destruct He as [Hv [HcC [HcL _]]].
  apply (PC_view _ _ Hv); [|exact HPC].
  destruct HPC as [_ Hc]. unfold counts_ok in *. rewrite HcC, HcL. exact Hc.
Qed.

Lemma DequeueFromL4sQueue_PC now marked s r m s' :
  DequeueFromL4sQueue now marked s = Ok (r, m, s') -> PC s -> PC s'.
Proof.
  intros H [Hp Hc]. apply DequeueFromL4sQueue_Inv in H; [|exact Hp|exact Hc].
  destruct H as [Hv Hc']. apply (PC_view _ _ Hv Hc'). split; assumption.
Qed.

Lemma DequeueFromClassicQueue_PC dropped s r d s' :
  DequeueFromClassicQueue dropped s = (r, d, s') -> PC s -> PC s'.
Proof.
  intros H [Hp Hc]. apply DequeueFromClassicQueue_Inv in H; [|exact Hp|exact Hc].
  destruct H as [Hv Hc']. apply (PC_view _ _ Hv Hc'). split; assumption.
Qed.

Lemma DoDequeue_loop_PC now fuel :
  forall s r s', DoDequeue_loop fuel now s = Ok (r, s') -> PC s -> PC s'.
Proof.
  induction fuel as [|fuel IH]; intros s r s'; cbn [DoDequeue_loop].
  - destruct (0 <? GetQueueSize s); [discriminate|].
    intros H; inversion H; subst; auto.
  - destruct (0 <? GetQueueSize s); [|intros H; inversion H; subst; auto].
    destruct (Scheduler (true, true) s) as [[sel s1]|f] eqn:ES; cbn [bind]; [|discriminate].
    intros H HPC. pose proof (Scheduler_PC _ _ _ _ ES HPC) as H1.
    destruct sel.
    + destruct (DequeueFromClassicQueue false s1) as [[qd d] s2] eqn:ED.
      pose proof (DequeueFromClassicQueue_PC _ _ _ _ _ ED H1) as H2.
      destruct qd; [inversion H; subst; exact H2 | exact (IH _ _ _ H H2)].
    + destruct (DequeueFromL4sQueue now false s1) as [[[qd d] s2]|f] eqn:ED;
        cbn [bind] in H; [|discriminate].
      pose proof (DequeueFromL4sQueue_PC _ _ _ _ _ _ ED H1) as H2.
      destruct qd; [inversion H; subst; exact H2 | exact (IH _ _ _ H H2)].
    + inversion H; subst; exact H1.
Qed.

Lemma DoDequeue_PC now s r s' :
  DoDequeue now s = Ok (r, s') -> PC s -> PC s'.
Proof.
  unfold DoDequeue, DequeueFromL4sStagingQueue, DequeueFromClassicStagingQueue.
  destruct (m_l4sStagingQueue s) as [|a l].
  - destruct (m_classicStagingQueue s) as [|b c].
    + apply DoDequeue_loop_PC.
    + intros H; inversion H; subst; auto.
  - intros H; inversion H; subst; auto.
Qed.

Lemma PendingDequeue_batch_PC now passes :
  forall i left markedCount s s' n,
    PendingDequeue_batch passes now i left markedCount s = Ok (s', n) ->
    PC s -> PC s'.
Proof.
  induction passes as [|passes IH]; intros i left markedCount s s' n;
    cbn [PendingDequeue_batch].
  - intros H; inversion H; subst; auto.
  - destruct (i <? 1000); cbn [assert bind]; [|discriminate].
    destruct (negb (fst (CanSchedule left s)) && negb (snd (CanSchedule left s))).
    { intros H; inversion H; subst; auto. }
    destruct (Scheduler (CanSchedule left s) s) as [[sel s1]|f] eqn:ES;
      cbn [bind]; [|discriminate].
    intros H HPC. pose proof (Scheduler_PC _ _ _ _ ES HPC) as H1.
    destruct sel.
    + destruct (DequeueFromClassicQueue false s1) as [[qd d] s2] eqn:ED.
      pose proof (DequeueFromClassicQueue_PC _ _ _ _ _ ED H1) as H2.
      destruct qd as [qd|]; [|exact (IH _ _ _ _ _ _ H H2)].
      destruct (u32 (GetSize qd + 38) <=? left); cbn [assert bind] in H; [|discriminate].
      exact (IH _ _ _ _ _ _ H H2).
    + destruct (DequeueFromL4sQueue now false s1) as [[[qd d] s2]|f] eqn:ED;
        cbn [bind] in H; [|discriminate].
      pose proof (DequeueFromL4sQueue_PC _ _ _ _ _ _ ED H1) as H2.
      destruct qd as [qd|]; [|exact (IH _ _ _ _ _ _ H H2)].
      destruct (u32 (GetSize qd + 38) <=? left); cbn [assert bind] in H; [|discriminate].
      exact (IH _ _ _ _ _ _ H H2).
    + inversion H; subst; exact H1.
Qed.

Lemma PendingDequeueCallback_PC now stopped pendingBytes s s' :
  PendingDequeueCallback now stopped pendingBytes s = Ok s' -> PC s -> PC s'.
Proof.
  unfold PendingDequeueCallback. intros H HPC.
  assert (H0 : PC (refresh_samples now s)) by exact HPC.
  revert H H0. generalize (refresh_samples now s). intros s0 H H0.
  destruct (negb stopped); [inversion H; subst; exact H0|].
  destruct (_ <? pendingBytes); [inversion H; subst; exact H0|].
  destruct (PendingDequeue_batch 1001 now 0 pendingBytes 0 s0) as [[s1 n]|f] eqn:EB;
    cbn [bind] in H; [|discriminate].
  pose proof (PendingDequeue_batch_PC _ _ _ _ _ _ _ _ EB H0) as H1.
  destruct (n =? 0); [|destruct (Qltb 0 (m_pCL s1))]; cbn [assert bind] in H;
    try discriminate; inversion H; subst; unfold PendingDequeue_topup;
    destruct (_ <? _); exact H1.
Qed.

Lemma DoEnqueue_PC item s : PC s -> PC (snd (DoEnqueue item s)).
Proof.
  intros H. unfold DoEnqueue, InternalEnqueue.
  destruct (_ <? _); [exact H|].
  destruct (IsL4s item); cbn [GetInternalQueue]; destruct (_ <? _); exact H.
Qed.

Lemma DualPi2Update_PC now s s' :
  DualPi2Update now s = Ok s' -> PC s -> PC s'.
Proof.
  unfold DualPi2Update. intros H [Hp Hc].
  match type of H with
  | bind ?c _ = _ => destruct c as [cQ|f]; cbn [bind] in H; [|discriminate]
  end.
  inversion H; subst; clear H. split; [|exact Hc].
  unfold probs_ok. cbn.
  split; [split; [apply std_min_glb; [apply std_max_ge_r | lra] | apply std_min_le_r]|].
  split; [reflexivity|]. split; [reflexivity|]. apply Hp.
Qed.

Lemma InitializeParams_PC devMtu a c s :
  InitializeParams devMtu (set_base c (fresh a)) = Ok s -> PC s.
Proof.
  unfold InitializeParams. destruct (negb _); cbn [assert bind]; [|discriminate].
  intros H; inversion H; subst; clear H. split.
  - unfold probs_ok. cbn. split; [lra|]. split; [reflexivity|]. split; [|reflexivity].
    ring.
  - unfold counts_ok. cbn. lra.
Qed.

Theorem reachable_PC s : reachable s -> PC s.
Proof.
  induction 1 as [a c c' devMtu s _ H | s s' _ IH Hstep].
  - exact (InitializeParams_PC _ _ _ _ H).
  - destruct Hstep as [item s _ | now s r s' H | now st pb s s' _ H | now s s' H
                      | lim s _ | limit s _].
    + apply DoEnqueue_PC, IH.
    + exact (DoDequeue_PC _ _ _ _ H IH).
    + exact (PendingDequeueCallback_PC _ _ _ _ _ H IH).
    + exact (DualPi2Update_PC _ _ _ H IH).
    + exact IH.
    + exact IH.
Qed.

(** * The loops of the embedding leave by themselves *)

Lemma Scheduler_body_counters eligible l c i m s i' m' s' :
  Scheduler_body eligible l c (i, m, s) = Continue (i', m', s') ->
  (i <? m) = true /\ i' = u32 (i + 1) /\ m' = u32 (m + 1).
Proof.
  unfold Scheduler_body. destruct (i <? m); cbn [negb]; [|discriminate].
  repeat match goal with
         | |- context [if ?b then _ else _] => destruct b
         end; intros H; inversion H; auto.
Qed.

Lemma Scheduler_body_exit eligible l c i m s :
  (i <? m) = false ->
  Scheduler_body eligible l c (i, m, s) = Break (Fatal DrrLogicError).
Proof. intros H. unfold Scheduler_body. rewrite H. reflexivity. Qed.

Lemma Scheduler_loop_counters eligible l c s :
  forall n : nat, Z.of_nat n <= two32 - 1000 ->
    match iterate_nat (Scheduler_body eligible l c) n (0, 1000, s) with
    | Continue (i, m, _) => i = Z.of_nat n /\ m = u32 (1000 + Z.of_nat n)
    | Break _ => True
    end.
Proof.
  induction n as [|n IH]; intros Hn.
  - simpl. split; reflexivity.
  - replace (S n) with (n + 1)%nat by lia. rewrite iterate_nat_add.
    specialize (IH ltac:(lia)).
    destruct (iterate_nat (Scheduler_body eligible l c) n (0, 1000, s))
      as [[[i m] s1]|r]; [|exact I].
    destruct IH as [-> ->]. rewrite iterate_nat_1.
    destruct (Scheduler_body eligible l c (Z.of_nat n, u32 (1000 + Z.of_nat n), s1))
      as [[[i' m'] s2]|r] eqn:E; [|exact I].
    apply Scheduler_body_counters in E. destruct E as [_ [-> ->]].
    rewrite (u32_small (1000 + Z.of_nat n)) by (unfold is_u32, two32 in *; lia).
    rewrite (u32_small (Z.of_nat n + 1)) by (unfold is_u32, two32 in *; lia).
    split; [lia | f_equal; lia].
Qed.

(** The [for] loop of [Scheduler] always leaves within 2^32 passes. *)
Lemma Scheduler_loop_leaves eligible l c s :
  exists r,
    iterate (Scheduler_body eligible l c) Scheduler_passes (0, 1000, s) = Break r.
Proof.
  rewrite iterate_iterate_nat.
  replace (Pos.to_nat Scheduler_passes)
    with (Z.to_nat (two32 - 1000) + (1 + 999))%nat
    by (unfold Scheduler_passes, two32; lia).
  rewrite iterate_nat_add.
  pose proof (Scheduler_loop_counters eligible l c s (Z.to_nat (two32 - 1000))
                ltac:(unfold two32; lia)) as H.
  destruct (iterate_nat _ (Z.to_nat (two32 - 1000)) _) as [[[i m] s1]|r];
    [|exists r; reflexivity].
  destruct H as [-> ->].
  rewrite iterate_nat_add, iterate_nat_1, Scheduler_body_exit.
  - eexists. reflexivity.
  - replace (Z.of_nat (Z.to_nat (two32 - 1000))) with (two32 - 1000)
      by (unfold two32; lia).
    reflexivity.
Qed.

Theorem Scheduler_never_out_of_fuel eligible s :
  Scheduler eligible s <> Fatal OutOfFuel.
Proof.
  unfold Scheduler. destruct (fst eligible || snd eligible); cbn [assert bind];
    [|discriminate].
  destruct (disc_GetNPackets s =? 0); [discriminate|].
  pose proof (Scheduler_spec eligible s) as Hs. unfold Scheduler in Hs.
  destruct (Scheduler_loop_leaves eligible (hol_size (GetInternalQueue L4S s))
              (hol_size (GetInternalQueue CLASSIC s)) s) as [r Hr].
  rewrite Hr.
  pose proof (iterate_inv
    (Scheduler_body eligible (hol_size (GetInternalQueue L4S s))
                    (hol_size (GetInternalQueue CLASSIC s)))
    (fun _ => True)
    (fun r => r <> Fatal OutOfFuel)) as Hinv.
  assert (Hb : forall x, True ->
     match Scheduler_body eligible (hol_size (GetInternalQueue L4S s))
             (hol_size (GetInternalQueue CLASSIC s)) x with
     | Continue _ => True
     | Break r => r <> Fatal OutOfFuel
     end).
  { intros [[i m] s1] _. unfold Scheduler_body.
    repeat match goal with
           | |- context [if ?b then _ else _] => destruct b
           end; try exact I; discriminate. }
  specialize (Hinv Hb Scheduler_passes (0, 1000, s) I). rewrite Hr in Hinv.
  exact Hinv.
Qed.

(** ** What the two dequeues do to the queues *)

Ltac split_cases :=
  repeat (cbn [assert bind];
          match goal with
          | |- context [assert ?b _] => destruct b
          | |- context [if ?b then _ else _] => destruct b
          | |- context [let '(_, _) := ?p in _] => destruct p
          | |- context [match ?p with (_, _) => _ end] => destruct p
          end);
  cbn [assert bind].

Lemma DequeueFromL4sQueue_loop_queues now q :
  forall marked qdItem s,
    l4sQ s = q ->
    match DequeueFromL4sQueue_loop now marked qdItem q s with
    | Ok (r, m, s') =>
        classicQ s' = classicQ s /\ exists pre, q = pre ++ l4sQ s'
    | Fatal f => f = CannotMarkL4s
    end.
Proof.
  induction q as [|next q' IH]; intros marked qdItem s Hq;
    rewrite DequeueFromL4sQueue_loop_eq; cbv zeta.
  - split_cases; try reflexivity;
      (split; [reflexivity | exists []; symmetry; exact Hq]).
  - destruct (Qltb (m_pCL s) (m_pLmax s)).
    + split_cases; try reflexivity;
        (split; [reflexivity | exists []; symmetry; exact Hq]).
    + destruct (Recur (m_l4sCount s) (m_pC s)) as [[|] count].
      * match goal with
        | |- context [DequeueFromL4sQueue_loop now marked next q' ?s1] =>
            specialize (IH marked next s1 eq_refl);
            destruct (DequeueFromL4sQueue_loop now marked next q' s1)
              as [[[r m] s']|f]; [|exact IH]
        end.
        destruct IH as [HC [pre Hpre]]. split; [exact HC|].
        exists (next :: pre). simpl. f_equal. exact Hpre.
      * split_cases; try reflexivity;
          (split; [reflexivity | exists []; symmetry; exact Hq]).
Qed.

Lemma DequeueFromL4sQueue_queues now marked s :
  match DequeueFromL4sQueue now marked s with
  | Ok (r, m, s') =>
      classicQ s' = classicQ s /\
      exists pre, l4sQ s = pre ++ l4sQ s' /\ (l4sQ s <> [] -> pre <> [])
  | Fatal f => f = CannotMarkL4s
  end.
Proof.
  unfold DequeueFromL4sQueue. cbn [GetInternalQueue SetInternalQueue].
  destruct (l4sQ s) as [|qdItem q] eqn:Eq.
  - split; [reflexivity|]. exists []. split; [symmetry; exact Eq | congruence].
  - pose proof (DequeueFromL4sQueue_loop_queues now q marked qdItem
                  (set_l4sQ q s) eq_refl) as H.
    destruct (DequeueFromL4sQueue_loop now marked qdItem q (set_l4sQ q s))
      as [[[r m] s']|f]; [|exact H].
    destruct H as [HC [pre Hpre]]. split; [exact HC|].
    exists (qdItem :: pre). split; [simpl; f_equal; exact Hpre | discriminate].
Qed.

Lemma DequeueFromClassicQueue_loop_queues q :
  forall dropped qdItem s,
    classicQ s = q ->
    match DequeueFromClassicQueue_loop dropped qdItem q s with
    | (r, d, s') => l4sQ s' = l4sQ s /\ exists pre, q = pre ++ classicQ s'
    end.
Proof.
  induction q as [|next q' IH]; intros dropped qdItem s Hq;
    rewrite DequeueFromClassicQueue_loop_eq; cbv zeta;
    destruct (Recur (m_classicCount s) (m_pC s)) as [fire count];
    destruct (fire || Qle_bool (m_pCmax (set_m_classicCount count s))
                               (m_pC (set_m_classicCount count s))).
  - split; [reflexivity | exists []; symmetry; exact Hq].
  - split; [reflexivity | exists []; symmetry; exact Hq].
  - match goal with
    | |- context [DequeueFromClassicQueue_loop true next q' ?s1] =>
        specialize (IH true next s1 eq_refl);
        destruct (DequeueFromClassicQueue_loop true next q' s1) as [[r d] s']
    end.
    destruct IH as [HL [pre Hpre]]. split; [exact HL|].
    exists (next :: pre). simpl. f_equal. exact Hpre.
  - split; [reflexivity | exists []; symmetry; exact Hq].
Qed.

Lemma DequeueFromClassicQueue_queues dropped s :
  match DequeueFromClassicQueue dropped s with
  | (r, d, s') =>
      l4sQ s' = l4sQ s /\
      exists pre, classicQ s = pre ++ classicQ s' /\ (classicQ s <> [] -> pre <> [])
  end.
Proof.
  unfold DequeueFromClassicQueue. cbn [GetInternalQueue SetInternalQueue].
  destruct (classicQ s) as [|qdItem q] eqn:Eq; cbn [Dequeue].
  - destruct (_ <? _); (split; [reflexivity|]); exists [];
      (split; [reflexivity | congruence]).
  - destruct (_ <? _).
    + split; [reflexivity|]. exists [qdItem]. split; [reflexivity | discriminate].
    + pose proof (DequeueFromClassicQueue_loop_queues q dropped qdItem
                    (set_classicQ q s) eq_refl) as H.
      destruct (DequeueFromClassicQueue_loop dropped qdItem q (set_classicQ q s))
        as [[r d] s'].
      destruct H as [HL [pre Hpre]]. split; [exact HL|].
      exists (qdItem :: pre). split; [simpl; f_equal; exact Hpre | discriminate].
Qed.

(** ** [DoDequeue] never runs out of passes *)

Lemma DoDequeue_loop_fuel now fuel :
  forall s,
    (length (classicQ s) + length (l4sQ s) < fuel)%nat ->
    DoDequeue_loop fuel now s <> Fatal OutOfFuel.
Proof.
  induction fuel as [|fuel IH]; intros s Hlt; [lia|].
  cbn [DoDequeue_loop]. destruct (0 <? GetQueueSize s); [|discriminate].
  pose proof (Scheduler_spec (true, true) s) as Hs.
  pose proof (Scheduler_never_out_of_fuel (true, true) s) as Hf.
  destruct (Scheduler (true, true) s) as [[sel s1]|f]; cbn [bind];
    [|intros C; apply Hf; inversion C; reflexivity].
  destruct Hs as [He Hsel]. apply drr_erased_fields in He.
  destruct He as [_ [_ [_ [HC [HL _]]]]].
  destruct sel.
  - destruct Hsel as [Hne _].
    pose proof (DequeueFromClassicQueue_queues false s1) as Hq.
    destruct (DequeueFromClassicQueue false s1) as [[qd d] s2].
    destruct Hq as [HL2 [pre [Hpre Hpre0]]].
    destruct qd; [discriminate|]. apply IH.
    rewrite HL2, HL. rewrite <- HC, Hpre, length_app in Hlt.
    rewrite HC in Hpre0. specialize (Hpre0 Hne).
    destruct pre; [congruence|]. simpl in Hlt. lia.
  - destruct Hsel as [Hne _].
    pose proof (DequeueFromL4sQueue_queues now false s1) as Hq.
    destruct (DequeueFromL4sQueue now false s1) as [[[qd d] s2]|f]; cbn [bind];
      [|rewrite Hq; discriminate].
    destruct Hq as [HC2 [pre [Hpre Hpre0]]].
    destruct qd; [discriminate|]. apply IH.
    rewrite HC2, HC. rewrite <- HL, Hpre, length_app in Hlt.
    rewrite HL in Hpre0. specialize (Hpre0 Hne).
    destruct pre; [congruence|]. simpl in Hlt. lia.
  - discriminate.
Qed.

(** The bounds of the embedding are never what stops [DoDequeue]. *)
Theorem DoDequeue_never_out_of_fuel now s :
  DoDequeue now s <> Fatal OutOfFuel.
Proof.
  unfold DoDequeue, DequeueFromL4sStagingQueue, DequeueFromClassicStagingQueue.
  destruct (m_l4sStagingQueue s); [|discriminate].
  destruct (m_classicStagingQueue s); [|discriminate].
  apply DoDequeue_loop_fuel. cbn. lia.
Qed.

(** ** Only L4S-classified items sit in the L4S queue *)

Lemma remainder_of_refl q : remainder_of q q.
Proof. exists []. reflexivity. Qed.

Lemma remainder_of_trans q1 q2 q3 :
  remainder_of q1 q2 -> remainder_of q2 q3 -> remainder_of q1 q3.
Proof.
  intros [p1 H1] [p2 H2]. exists (p2 ++ p1). rewrite H2, H1. apply app_assoc.
Qed.

Lemma DoDequeue_loop_l4sQ now fuel :
  forall s r s',
    DoDequeue_loop fuel now s = Ok (r, s') -> remainder_of (l4sQ s') (l4sQ s).
Proof.
  induction fuel as [|fuel IH]; intros s r s'; cbn [DoDequeue_loop].
  - destruct (0 <? GetQueueSize s); [discriminate|].
    intros H; inversion H; subst. apply remainder_of_refl.
  - destruct (0 <? GetQueueSize s);
      [|intros H; inversion H; subst; apply remainder_of_refl].
    pose proof (Scheduler_spec (true, true) s) as Hs.
    destruct (Scheduler (true, true) s) as [[sel s1]|f]; cbn [bind]; [|discriminate].
    destruct Hs as [He _]. apply drr_erased_fields in He.
    destruct He as [_ [_ [_ [_ [HL _]]]]]. rewrite <- HL.
    destruct sel.
    + pose proof (DequeueFromClassicQueue_queues false s1) as Hq.
      destruct (DequeueFromClassicQueue false s1) as [[qd d] s2].
      destruct Hq as [HL2 _]. rewrite <- HL2.
      destruct qd; [intros H; inversion H; subst; apply remainder_of_refl | apply IH].
    + pose proof (DequeueFromL4sQueue_queues now false s1) as Hq.
      destruct (DequeueFromL4sQueue now false s1) as [[[qd d] s2]|f]; cbn [bind];
        [|discriminate].
      destruct Hq as [_ [pre [Hpre _]]].
      assert (Hr : remainder_of (l4sQ s2) (l4sQ s1)) by (exists pre; exact Hpre).
      destruct qd; [intros H; inversion H; subst; exact Hr|].
      intros H. apply IH in H. exact (remainder_of_trans _ _ _ H Hr).
    + intros H; inversion H; subst; apply remainder_of_refl.
Qed.

Lemma DoDequeue_l4sQ now s r s' :
  DoDequeue now s = Ok (r, s') -> remainder_of (l4sQ s') (l4sQ s).
Proof.
  unfold DoDequeue, DequeueFromL4sStagingQueue, DequeueFromClassicStagingQueue.
  destruct (m_l4sStagingQueue s);
    [|intros H; inversion H; subst; apply remainder_of_refl].
  destruct (m_classicStagingQueue s);
    [|intros H; inversion H; subst; apply remainder_of_refl].
  apply DoDequeue_loop_l4sQ.
Qed.

Lemma PendingDequeue_batch_l4sQ now passes :
  forall i left markedCount s s' n,
    PendingDequeue_batch passes now i left markedCount s = Ok (s', n) ->
    remainder_of (l4sQ s') (l4sQ s).
Proof.
  induction passes as [|passes IH]; intros i left mc s s' n;
    cbn [PendingDequeue_batch].
  - intros H; inversion H; subst. apply remainder_of_refl.
  - destruct (i <? 1000); cbn [assert bind]; [|discriminate].
    destruct (negb (fst (CanSchedule left s)) && negb (snd (CanSchedule left s))).
    { intros H; inversion H; subst. apply remainder_of_refl. }
    pose proof (Scheduler_spec (CanSchedule left s) s) as Hs.
    destruct (Scheduler (CanSchedule left s) s) as [[sel s1]|f]; cbn [bind];
      [|discriminate].
    destruct Hs as [He _]. apply drr_erased_fields in He.
    destruct He as [_ [_ [_ [_ [HL _]]]]]. rewrite <- HL.
    destruct sel.
    + pose proof (DequeueFromClassicQueue_queues false s1) as Hq.
      destruct (DequeueFromClassicQueue false s1) as [[qd d] s2].
      destruct Hq as [HL2 _]. rewrite <- HL2.
      destruct qd as [qd|]; [|apply IH].
      destruct (u32 (GetSize qd + 38) <=? left); cbn [assert bind]; [|discriminate].
      intros H. apply IH in H. exact H.
    + pose proof (DequeueFromL4sQueue_queues now false s1) as Hq.
      destruct (DequeueFromL4sQueue now false s1) as [[[qd d] s2]|f]; cbn [bind];
        [|discriminate].
      destruct Hq as [_ [pre [Hpre _]]].
      assert (Hr : remainder_of (l4sQ s2) (l4sQ s1)) by (exists pre; exact Hpre).
      destruct qd as [qd|].
      * destruct (u32 (GetSize qd + 38) <=? left); cbn [assert bind]; [|discriminate].
        intros H. apply IH in H. exact (remainder_of_trans _ _ _ H Hr).
      * intros H. apply IH in H. exact (remainder_of_trans _ _ _ H Hr).
    + intros H; inversion H; subst. apply remainder_of_refl.
Qed.

Lemma PendingDequeueCallback_l4sQ now stopped pendingBytes s s' :
  PendingDequeueCallback now stopped pendingBytes s = Ok s' ->
  remainder_of (l4sQ s') (l4sQ s).
Proof.
  unfold PendingDequeueCallback. intros H.
  change (l4sQ s) with (l4sQ (refresh_samples now s)).
  revert H. generalize (refresh_samples now s). intros s0 H.
  destruct (negb stopped); [inversion H; subst; apply remainder_of_refl|].
  destruct (_ <? pendingBytes); [inversion H; subst; apply remainder_of_refl|].
  destruct (PendingDequeue_batch 1001 now 0 pendingBytes 0 s0) as [[s1 n]|f] eqn:EB;
    cbn [bind] in H; [|discriminate].
  apply PendingDequeue_batch_l4sQ in EB.
  assert (Hs' : s' = PendingDequeue_topup n s1).
  { destruct (n =? 0); [|destruct (Qltb 0 (m_pCL s1))]; cbn [assert bind] in H;
      try discriminate; inversion H; reflexivity. }
  subst s'. unfold PendingDequeue_topup. destruct (_ <? _); exact EB.
Qed.

Lemma l4sQ_ok_remainder s s' :
  remainder_of (l4sQ s') (l4sQ s) -> l4sQ_ok s -> l4sQ_ok s'.
Proof.
  unfold l4sQ_ok. intros [pre H] Hok. rewrite H in Hok.
  apply Forall_app in Hok. exact (proj2 Hok).
Qed.

Theorem reachable_l4sQ_ok s : reachable s -> l4sQ_ok s.
Proof.
  induction 1 as [a c c' devMtu s _ H | s s' _ IH Hstep].
  - unfold InitializeParams in H. destruct (negb _); cbn [assert bind] in H;
      [|discriminate]. inversion H; subst. constructor.
  - destruct Hstep as [item s _ | now s r s' H | now st pb s s' _ H | now s s' H
                      | lim s _ | limit s _].
    + unfold DoEnqueue, InternalEnqueue. destruct (_ <? _); [exact IH|].
      destruct (IsL4s item) eqn:E; cbn [GetInternalQueue]; destruct (_ <? _);
        try exact IH.
      unfold l4sQ_ok. cbn. apply Forall_app. split; [exact IH|].
      constructor; [exact E | constructor].
    + exact (l4sQ_ok_remainder _ _ (DoDequeue_l4sQ _ _ _ _ H) IH).
    + exact (l4sQ_ok_remainder _ _ (PendingDequeueCallback_l4sQ _ _ _ _ _ H) IH).
    + unfold DualPi2Update in H.
      match type of H with
      | bind ?c _ = _ => destruct c; cbn [bind] in H; [|discriminate]
      end.
      inversion H; subst. exact IH.
    + exact IH.
    + exact IH.
Qed.

(** * The scheduler with both classes eligible

    This is the call [DoDequeue] makes.  With a quantum and a weight of at
    least 1, and sizes that leave the 32-bit counters room, the loop selects
    a class: the fatal error is out of reach on this path. *)

Section BothEligible.

Variable a : Attributes.
Variables l c : Z.

Hypothesis quantum_pos : 1 <= m_drrQuantum a.
Hypothesis weight_ge_1 : (1 <= m_schedulingWeight a)%Q.
Hypothesis l_nonneg : 0 <= l.
Hypothesis c_nonneg : 0 <= c.
Hypothesis backlog : l <> 0 \/ c <> 0.
Hypothesis c_room : c + m_drrQuantum a < two32 - 1000.
Hypothesis l_room :
  (inject_Z l + inject_Z (m_drrQuantum a) * m_schedulingWeight a
   < inject_Z (two32 - 1000))%Q.

Lemma l4s_increment (d : Z) :
  0 <= d < l ->
  d + 1 <= Qfloor (inject_Z d + inject_Z (m_drrQuantum a) * m_schedulingWeight a)%Q
  < two32.
Proof.
  intros Hd. split.
  - apply Z.le_trans with (Qfloor (inject_Z (d + 1))).
    + rewrite Qfloor_Z. lia.
    + apply Qfloor_resp_le. rewrite inject_Z_plus.
      apply Qplus_le_r.
      apply Qle_trans with (inject_Z (m_drrQuantum a) * 1)%Q.
      * rewrite Qmult_1_r. rewrite <- Zle_Qle. lia.
      * apply Qmult_le_l; [|exact weight_ge_1].
        change 0%Q with (inject_Z 0). rewrite <- Zlt_Qlt. lia.
  - assert (H : (inject_Z d + inject_Z (m_drrQuantum a) * m_schedulingWeight a
                 < inject_Z (two32 - 1000))%Q).
    { eapply Qle_lt_trans; [|exact l_room]. apply Qplus_le_l.
      rewrite <- Zle_Qle. lia. }
    pose proof (Qfloor_le (inject_Z d
                           + inject_Z (m_drrQuantum a) * m_schedulingWeight a)%Q) as Hf.
    assert (H2 : (inject_Z (Qfloor (inject_Z d + inject_Z (m_drrQuantum a)
                                                  * m_schedulingWeight a))
                  < inject_Z (two32 - 1000))%Q)
      by (eapply Qle_lt_trans; [exact Hf | exact H]).
    rewrite <- Zlt_Qlt in H2. unfold two32 in *. lia.
Qed.

Lemma pass_from_round_over i m s :
  round_over a l c s -> (i <? m) = true ->
  match Scheduler_body (true, true) l c (i, m, s) with
  | Continue (i', m', s') =>
      i' = u32 (i + 1) /\ m' = u32 (m + 1) /\ round_over a l c s' /\
      deficit_gap l c s' + 1 <= deficit_gap l c s
  | Break r => selects r
  end.
Proof.
  intros [Ha [Hmask [HL1 [HL0 [HC1 HC0]]]]] Him.
  unfold Scheduler_body. rewrite Him. cbn [negb fst snd]. rewrite Hmask.
  cbn [bits_none bit_CLASSIC bit_L4S negb andb].
  unfold start_round, reset_L4S, reset_CLASSIC, deficit_gap, round_over.
  cbn -[u32 Qfloor Qplus Qmult inject_Z Z.add Z.sub Z.leb Z.eqb Z.ltb Z.lt Z.le].
  rewrite Ha.
  remember (u32 (Qfloor (inject_Z (m_llDeficit s)
                         + inject_Z (m_drrQuantum a) * m_schedulingWeight a)%Q))
    as d1 eqn:Ed1.
  remember (u32 (m_classicDeficit s + m_drrQuantum a)) as e1 eqn:Ee1.
  assert (Hd1 : 0 <= d1 < two32) by (subst d1; apply u32_range).
  assert (He1 : 0 <= e1 < two32) by (subst e1; apply u32_range).
  assert (Hd1' : l <> 0 -> m_llDeficit s + 1 <= d1).
  { intros El. pose proof (l4s_increment (m_llDeficit s) (HL1 El)) as Hi.
    subst d1. rewrite u32_small by (unfold is_u32; lia). lia. }
  assert (He1' : c <> 0 -> e1 = m_classicDeficit s + m_drrQuantum a).
  { intros Ec. specialize (HC1 Ec). subst e1. apply u32_small.
    unfold is_u32, two32 in *. lia. }
  clear Ed1 Ee1.
  destruct (Z.eqb_spec l 0) as [El|El]; cbn [negb andb];
    try (destruct (Z.leb_spec l d1) as [Hl|Hl]);
    cbn -[u32 Qfloor Qplus Qmult inject_Z Z.add Z.sub Z.leb Z.eqb Z.ltb Z.lt Z.le];
    try (eexists _, _; split; [reflexivity | auto; fail]).
  all: destruct (Z.eqb_spec c 0) as [Ec|Ec]; cbn [negb andb];
    try (destruct (Z.leb_spec c e1) as [Hc|Hc]);
    cbn -[u32 Qfloor Qplus Qmult inject_Z Z.add Z.sub Z.leb Z.eqb Z.ltb Z.lt Z.le];
    try (eexists _, _; split; [reflexivity | auto; fail]).
  all: try (exfalso; destruct backlog; contradiction).
  all: repeat match goal with
              | H : ?x <> 0 -> _, E : ?x <> 0 |- _ => specialize (H E)
              | H : ?x = 0 -> _, E : ?x = 0 |- _ => specialize (H E)
              end.
  all: repeat split; try reflexivity; try assumption; intros; try lia.
Qed.

Lemma first_pass i m s :
  attrs s = a -> 0 <= m_llDeficit s -> 0 <= m_classicDeficit s ->
  (i <? m) = true ->
  match Scheduler_body (true, true) l c (i, m, s) with
  | Continue (i', m', s') =>
      i' = u32 (i + 1) /\ m' = u32 (m + 1) /\ round_over a l c s'
  | Break r => selects r
  end.
Proof.
  intros Ha HL HC Him.
  unfold Scheduler_body. rewrite Him. cbn [negb fst snd].
  assert (Hs1 : exists s1,
             (if bits_none (m_drrQueues s) then start_round s else s) = s1 /\
             attrs s1 = a /\ 0 <= m_llDeficit s1 /\ 0 <= m_classicDeficit s1).
  { eexists. split; [reflexivity|]. destruct (bits_none (m_drrQueues s)).
    - unfold start_round. cbn. split; [exact Ha|].
      split; apply u32_range.
    - auto. }
  destruct Hs1 as [s1 [-> [Ha1 [HL1 HC1]]]].
  unfold reset_L4S, reset_CLASSIC, round_over.
  destruct (Z.eqb_spec l 0) as [El|El]; cbn [negb andb];
    try (destruct (Z.leb_spec l (m_llDeficit s1)) as [Hl|Hl]);
    cbn -[u32 Z.add Z.sub Z.leb Z.eqb Z.ltb Z.lt Z.le];
    try (eexists _, _; split; [reflexivity | auto; fail]).
  all: destruct (Z.eqb_spec c 0) as [Ec|Ec]; cbn [negb andb];
    try (destruct (Z.leb_spec c (m_classicDeficit s1)) as [Hc|Hc]);
    cbn -[u32 Z.add Z.sub Z.leb Z.eqb Z.ltb Z.lt Z.le];
    try (eexists _, _; split; [reflexivity | auto; fail]).
  all: try (exfalso; destruct backlog; contradiction).
  all: repeat split; try reflexivity; try assumption; intros; try lia.
Qed.

Lemma deficit_gap_pos s : round_over a l c s -> 1 <= deficit_gap l c s.
Proof.
  intros [_ [_ [HL1 [_ [HC1 _]]]]]. unfold deficit_gap.
  destruct (Z.eqb_spec c 0) as [Ec|Ec].
  - destruct backlog as [El|]; [|contradiction]. specialize (HL1 El). lia.
  - specialize (HC1 Ec). lia.
Qed.

Lemma loop_from_round_over :
  forall (k : nat) s i,
    round_over a l c s -> deficit_gap l c s <= Z.of_nat k ->
    0 <= i -> i + 1000 + Z.of_nat k < two32 ->
    exists r,
      iterate_nat (Scheduler_body (true, true) l c) k (i, i + 1000, s) = Break r /\
      selects r.
Proof.
  induction k as [|k IH]; intros s i Hro Hgap Hi Hroom.
  - pose proof (deficit_gap_pos s Hro). lia.
  - cbn [iterate_nat].
    pose proof (pass_from_round_over i (i + 1000) s Hro
                  ltac:(apply Z.ltb_lt; lia)) as Hp.
    destruct (Scheduler_body (true, true) l c (i, i + 1000, s))
      as [[[i' m'] s']|r]; [|exists r; split; [reflexivity | exact Hp]].
    destruct Hp as [-> [-> [Hro' Hgap']]].
    rewrite (u32_small (i + 1)) by (unfold is_u32; lia).
    rewrite (u32_small (i + 1000 + 1)) by (unfold is_u32; lia).
    replace (i + 1000 + 1) with (i + 1 + 1000) by lia.
    apply IH; [exact Hro' | lia | lia | lia].
Qed.

Lemma l_room_Z : l + 1 < two32 - 1000.
Proof.
  rewrite Zlt_Qlt. eapply Qle_lt_trans; [|exact l_room].
  rewrite inject_Z_plus. apply Qplus_le_r.
  apply Qle_trans with (inject_Z (m_drrQuantum a) * 1)%Q.
  - rewrite Qmult_1_r. rewrite <- Zle_Qle. lia.
  - apply Qmult_le_l; [|exact weight_ge_1].
    change 0%Q with (inject_Z 0). rewrite <- Zlt_Qlt. lia.
Qed.

Lemma loop_selects s :
  attrs s = a -> 0 <= m_llDeficit s -> 0 <= m_classicDeficit s ->
  exists r,
    iterate (Scheduler_body (true, true) l c) Scheduler_passes (0, 1000, s) = Break r /\
    selects r.
Proof.
  intros Ha HL HC. rewrite iterate_iterate_nat.
  pose proof l_room_Z as Hlr.
  replace (Pos.to_nat Scheduler_passes)
    with (1 + (Z.to_nat (Z.max l c) + Z.to_nat (two32 - 1 - Z.max l c)))%nat
    by (unfold Scheduler_passes, two32 in *; lia).
  rewrite iterate_nat_add, iterate_nat_1.
  pose proof (first_pass 0 1000 s Ha HL HC eq_refl) as Hp.
  destruct (Scheduler_body (true, true) l c (0, 1000, s))
    as [[[i' m'] s']|r]; [|exists r; split; [reflexivity | exact Hp]].
  destruct Hp as [-> [-> Hro]].
  rewrite iterate_nat_add.
  destruct (loop_from_round_over (Z.to_nat (Z.max l c)) s' 1 Hro) as [r [Hr Hsel]].
  - destruct Hro as [_ [_ [HL1 [HL0 [HC1 HC0]]]]]. unfold deficit_gap.
    destruct (Z.eqb_spec c 0) as [Ec|Ec].
    + destruct backlog as [El|]; [|contradiction]. specialize (HL1 El). lia.
    + specialize (HC1 Ec). lia.
  - lia.
  - unfold two32 in *. lia.
  - change (u32 (0 + 1)) with 1. change (u32 (1000 + 1)) with (1 + 1000).
    rewrite Hr. exists r. split; [reflexivity | exact Hsel].
Qed.

End BothEligible.

(** With both classes eligible the scheduler selects a class. *)
Theorem Scheduler_selects_when_both_eligible (s : DualPi2QueueDisc) :
  let a := attrs s in
  let l := hol_size (l4sQ s) in
  let c := hol_size (classicQ s) in
  disc_GetNPackets s <> 0 ->
  1 <= m_drrQuantum a -> (1 <= m_schedulingWeight a)%Q ->
  0 <= l -> 0 <= c -> l <> 0 \/ c <> 0 ->
  c + m_drrQuantum a < two32 - 1000 ->
  (inject_Z l + inject_Z (m_drrQuantum a) * m_schedulingWeight a
   < inject_Z (two32 - 1000))%Q ->
  0 <= m_llDeficit s -> 0 <= m_classicDeficit s ->
  selects (Scheduler (true, true) s).
Proof.
  intros a l c Hn Hq Hw Hl Hc Hb Hcr Hlr HdL HdC.
  unfold Scheduler. cbn [fst snd orb assert bind GetInternalQueue].
  apply Z.eqb_neq in Hn. rewrite Hn.
  destruct (loop_selects a l c Hq Hw Hl Hc Hb Hcr Hlr s eq_refl HdL HdC) as [r [Hr Hsel]].
  fold l c. rewrite Hr. exact Hsel.
Qed.

Lemma Scheduler_selects_example : selects (Scheduler (true, true) ex_two_l4s).
Proof.
  apply Scheduler_selects_when_both_eligible;
    try (vm_compute; (reflexivity || discriminate)).
  left. vm_compute. discriminate.
Qed.

(** * Reachability of the example states *)

Lemma wf_ex_packet size ts tos :
  0 <= size < 4294967296 -> 0 <= tos < 256 -> wf_item (ex_packet size ts tos).
Proof. intros H1 H2. split; [exact H1 | exact H2]. Qed.

Lemma reachable_ex_init : reachable ex_init.
Proof.
  eapply (reach_init default_attrs (mkSetup 0 0 []) _ (Some 1500)); reflexivity.
Qed.

Lemma reachable_after_enqueue item s :
  wf_item item -> reachable s -> reachable (after_enqueue item s).
Proof. intros Hw Hr. apply (reach_step s _ Hr). apply step_enqueue, Hw. Qed.

Lemma reachable_after_update now s :
  reachable s -> reachable (after_update now s).
Proof.
  intros Hr. unfold after_update. destruct (DualPi2Update now s) as [s'|f] eqn:E.
  - apply (reach_step s _ Hr). apply (step_update now _ _ E).
  - exact Hr.
Qed.

Lemma reachable_after_dequeue now s :
  reachable s -> reachable (after_dequeue now s).
Proof.
  intros Hr. unfold after_dequeue. destruct (DoDequeue now s) as [[r s']|f] eqn:E.
  - apply (reach_step s _ Hr). apply (step_dequeue now _ _ _ E).
  - exact Hr.
Qed.

Lemma reachable_ex_overload : reachable ex_overload.
Proof.
  apply reachable_after_update, reachable_after_enqueue.
  - apply wf_ex_packet; lia.
  - apply reachable_ex_init.
Qed.

(** * Claims on [Recur] *)

Local Open Scope Q_scope.

(** C9, as stated, fails: a counter above 1 makes [Recur] fire even with a
    likelihood of 0, and the counter is decremented.  At [count = 2],
    [Recur (count, 0)] returns true and leaves [count = 1]. *)
Lemma C9_counterexample :
  fst (Recur 2 0) = true /\ ~ (snd (Recur 2 0) == 2).
Proof.
  split; [reflexivity|]. vm_compute. discriminate.
Qed.

(** C9, amended: for every counter value not above 1 (which covers the
    interval [0, 1] the discipline keeps its counters in), [Recur (count, 0)]
    returns false and leaves [count] unchanged; [Recur (counter, likelihood)]
    adds [likelihood] to [counter] and, if the counter then exceeds 1,
    subtracts 1 and returns true, else returns false. *)
Theorem C9_Recur_zero_likelihood (count : Q) :
  count <= 1 ->
  (fst (Recur count 0) = false /\ snd (Recur count 0) == count) /\
  (forall counter likelihood,
      (1 < counter + likelihood ->
       Recur counter likelihood = (true, counter + likelihood - 1)) /\
      (~ 1 < counter + likelihood ->
       Recur counter likelihood = (false, counter + likelihood))).
Proof.
  intros H. split.
  - rewrite Recur_holds by lra. split; [reflexivity | simpl; ring].
  - intros counter likelihood. split.
    + apply Recur_fires.
    + intros Hn. apply Recur_holds. apply Qnot_lt_le, Hn.
Qed.

Lemma C9_Recur_zero_likelihood_witness :
  fst (Recur (1 # 2) 0) = false /\ snd (Recur (1 # 2) 0) == 1 # 2.
Proof.
  apply (C9_Recur_zero_likelihood (1 # 2)). unfold Qle. simpl. lia.
Defined.

(** C10: a counter in [0, 1] stays in [0, 1] through [Recur] for every
    likelihood in [0, 1]; and as the likelihoods the discipline passes
    (p_L, p_C, p_CL) are within [0, 1] whenever they are passed, both
    counters are within [0, 1] in every state the discipline reaches through
    its enqueue, dequeue, pending-dequeue and timer operations. *)
Theorem C10_counters_in_range :
  (forall count likelihood,
      0 <= count <= 1 -> 0 <= likelihood <= 1 ->
      0 <= snd (Recur count likelihood) <= 1) /\
  (forall s, reachable s ->
      0 <= m_classicCount s <= 1 /\ 0 <= m_l4sCount s <= 1) /\
  (forall s now r s', PC s -> DoDequeue now s = Ok (r, s') -> counts_ok s') /\
  (forall s now stopped pendingBytes s',
      PC s -> PendingDequeueCallback now stopped pendingBytes s = Ok s' ->
      counts_ok s').
Proof.
  split; [exact Recur_bounds|]. split; [|split].
  - intros s Hr. apply reachable_PC in Hr. exact (proj2 Hr).
  - intros s now r s' HPC H. exact (proj2 (DoDequeue_PC _ _ _ _ H HPC)).
  - intros s now stopped pb s' HPC H.
    exact (proj2 (PendingDequeueCallback_PC _ _ _ _ _ H HPC)).
Qed.

Lemma C10_counters_in_range_witness :
  0 <= snd (Recur (1 # 2) (3 # 4)) <= 1 /\
  (0 <= m_classicCount (after_dequeue 1000000001%Z ex_overload) <= 1 /\
   0 <= m_l4sCount (after_dequeue 1000000001%Z ex_overload) <= 1).
Proof.
  split.
  - apply (proj1 C10_counters_in_range); unfold Qle; simpl; lia.
  - apply (proj1 (proj2 C10_counters_in_range)).
    apply reachable_after_dequeue, reachable_ex_overload.
Defined.

(** * Claims on the PI2 controller *)

(** C1, as stated, fails: [DualPi2Update] clamps [base_prob] to [0, 1] and
    sets [p_C = base_prob^2] without comparing it with [p_Cmax].  With the
    default coupling factor 2, one packet queued for a second drives
    [base_prob] to 1, so that [p_C = 1] while [min (1/k^2, 1) = 1/4]. *)
Lemma C1_counterexample :
  reachable ex_overload /\
  m_pC ex_overload == 1 /\
  ~ (m_pC ex_overload
     <= Qmin (1 / (m_k (attrs ex_overload) * m_k (attrs ex_overload))) 1).
Proof.
  split; [exact reachable_ex_overload|]. split.
  - vm_compute. reflexivity.
  - vm_compute. intros H. apply H. reflexivity.
Qed.

Lemma overload_free_pC_bound (bp k : Q) :
  0 <= bp <= 1 -> 0 < k -> bp * k < 1 -> bp * bp <= Qmin (1 / (k * k)) 1.
Proof.
  intros Hb Hk H. apply Q.min_glb; [|nra].
  apply Qle_shift_div_l; [nra|].
  assert (H0 : 0 <= bp * k) by (apply Qmult_le_0_compat; lra).
  assert (H2 : (bp * k) * (bp * k) <= 1).
  { generalize dependent (bp * k). intros x Hx1 Hx0. nra. }
  lra.
Qed.

(** C1, amended: in every reachable state [0 <= p_C <= 1] and [p_CL <= 1],
    with [0 <= p_CL] for a coupling factor [k >= 0]; the bound
    [p_C <= min (1/k^2, 1)] holds outside overload, that is while
    [p_CL < 1] (for [k > 0]). *)
Theorem C1_probabilities_in_range (s : DualPi2QueueDisc) :
  reachable s ->
  0 <= m_pC s <= 1 /\
  m_pCL s <= 1 /\
  (0 <= m_k (attrs s) -> 0 <= m_pCL s) /\
  (0 < m_k (attrs s) -> m_pCL s < 1 ->
   m_pC s <= Qmin (1 / (m_k (attrs s) * m_k (attrs s))) 1).
Proof.
  intros Hr. apply reachable_PC in Hr. destruct Hr as [Hp _].
  destruct (probs_ok_bounds _ Hp) as [H1 [H2 H3]].
  split; [exact H1|]. split; [exact H2|]. split; [exact H3|].
  intros Hk Hlt. destruct Hp as [Hb [HC [HCL _]]].
  rewrite HC. apply overload_free_pC_bound; [exact Hb | exact Hk |].
  rewrite HCL in Hlt. unfold std_min in Hlt.
  destruct (Qltb 1 (m_baseProb s * m_k (attrs s))) eqn:E; [lra | exact Hlt].
Qed.

Lemma C1_probabilities_in_range_witness :
  0 <= m_pC ex_overload <= 1 /\ m_pCL ex_overload <= 1.
Proof.
  destruct (C1_probabilities_in_range ex_overload reachable_ex_overload)
    as [H1 [H2 _]].
  split; [exact H1 | exact H2].
Defined.

Lemma max_Time_spec a b : max_Time a b = Z.max a b.
Proof. unfold max_Time. destruct (Z.ltb_spec a b); lia. Qed.

Lemma min_Time_spec a b : min_Time a b = Z.min a b.
Proof. unfold min_Time. destruct (Z.ltb_spec b a); lia. Qed.

Lemma GetSeconds_spec t : GetSeconds t == spec_seconds t.
Proof. unfold GetSeconds, spec_seconds. apply Qmake_Qdiv. Qed.

Lemma GetSeconds_minus a b :
  GetSeconds (a - b)%Z == spec_seconds a - spec_seconds b.
Proof.
  rewrite GetSeconds_spec. unfold spec_seconds, Z.sub.
  rewrite inject_Z_plus, inject_Z_opp. field.
Qed.

Lemma sojourn_of_head_spec now q :
  sojourn_of_head now q =
  match q with item :: _ => (now - GetTimeStamp item)%Z | [] => 0%Z end.
Proof. destruct q; reflexivity. Qed.

(** C2: whenever the timer fires (with an aggregation buffer limit set if
    the Wi-Fi estimator is on), [base_prob] becomes
    [base_prob + alpha (current_q - target) + beta (current_q - prev_q)],
    times in seconds, clamped to [0, 1]; [p_CL = min (k base_prob, 1)];
    [p_C = base_prob^2]; [prev_q = current_q], where [current_q] is the
    larger of the two head-of-line sojourn times as the specification
    defines them (durations are whole nanoseconds, the quotient of the
    estimator being truncated). *)
Theorem C2_DualPi2Update_spec (now : Time) (s : DualPi2QueueDisc) :
  (m_enableWifiClassicLatencyEstimator (attrs s) = true ->
   m_aggBufferLimit (attrs s) <> 0%Z) ->
  exists s',
    DualPi2Update now s = Ok s' /\
    m_baseProb s' == spec_base_prob now s /\
    m_pCL s' == Qmin (m_k (attrs s) * m_baseProb s') 1 /\
    m_pC s' == m_baseProb s' * m_baseProb s' /\
    m_prevQ s' = spec_current_q now s /\
    attrs s' = attrs s.
Proof.
  intros Hagg. unfold DualPi2Update.
  assert (HcQ :
    (if m_enableWifiClassicLatencyEstimator (attrs s)
     then
       _ <- assert (negb (m_aggBufferLimit (attrs s) =? 0)%Z) AggBufferLimitUnset ;;
       Ok (min_Time (max_Time (m_cLatencySample s) (m_lLatencySample s))
                    (Z.quot (m_cBytesSample s * m_target (attrs s))
                            (m_aggBufferLimit (attrs s))))
     else Ok (sojourn_of_head now (GetInternalQueue CLASSIC s)))
    = Ok (spec_cQ now s)).
  { unfold spec_cQ. destruct (m_enableWifiClassicLatencyEstimator (attrs s)).
    - specialize (Hagg eq_refl). apply Z.eqb_neq in Hagg. rewrite Hagg.
      cbn [negb assert bind]. rewrite min_Time_spec, max_Time_spec. reflexivity.
    - cbn [GetInternalQueue]. rewrite sojourn_of_head_spec. reflexivity. }
  rewrite HcQ. cbn [bind]. eexists. split; [reflexivity|].
  assert (Hcur : max_Time (spec_cQ now s)
                          (sojourn_of_head now (GetInternalQueue L4S s))
                 = spec_current_q now s).
  { rewrite max_Time_spec. cbn [GetInternalQueue]. rewrite sojourn_of_head_spec.
    reflexivity. }
  rewrite Hcur.
  cbn [m_baseProb m_pCL m_pC m_prevQ attrs set_m_baseProb set_m_pCL set_m_pC set_m_prevQ].
  split; [|split; [|split; [reflexivity|split; reflexivity]]].
  - unfold spec_base_prob.
    rewrite std_min_spec, std_max_spec, !GetSeconds_minus.
    rewrite Q.min_comm, (Q.max_comm _ 0). reflexivity.
  - rewrite std_min_spec. rewrite (Qmult_comm (m_k (attrs s))). reflexivity.
Qed.

Lemma C2_DualPi2Update_spec_witness :
  exists s',
    DualPi2Update (MilliSeconds 30) ex_wifi = Ok s' /\
    m_prevQ s' = 343327%Z /\ m_baseProb s' == 0.
Proof.
  destruct (C2_DualPi2Update_spec (MilliSeconds 30) ex_wifi)
    as [s' [H1 [H2 [_ [_ [H5 _]]]]]].
  - intros _. vm_compute. discriminate.
  - exists s'. split; [exact H1|]. split.
    + rewrite H5. reflexivity.
    + rewrite H2. vm_compute. reflexivity.
Defined.

Local Open Scope Z_scope.

(** * Claims on classification and enqueue *)

Lemma nbytes_nonneg q : Forall wf_item q -> 0 <= nbytes q.
Proof.
  induction 1 as [|item q [Hs _] _ IH]; simpl; [lia|].
  unfold is_u32 in Hs. lia.
Qed.

Lemma nbytes_app q item : nbytes (q ++ [item]) = nbytes q + GetSize item.
Proof. induction q as [|x q IH]; simpl; lia. Qed.

Lemma GetQueueSize_small s :
  Forall wf_item (classicQ s) -> Forall wf_item (l4sQ s) ->
  nbytes (classicQ s) + nbytes (l4sQ s) < two32 ->
  GetQueueSize s = nbytes (classicQ s) + nbytes (l4sQ s).
Proof.
  intros HC HL Hlt. apply nbytes_nonneg in HC. apply nbytes_nonneg in HL.
  unfold GetQueueSize, GetNBytes. cbn [GetInternalQueue].
  rewrite (u32_small (nbytes (classicQ s))) by (unfold is_u32; lia).
  rewrite (u32_small (nbytes (l4sQ s))) by (unfold is_u32; lia).
  apply u32_small. unfold is_u32. lia.
Qed.

(** C3, as stated, fails in two ways.

    The comparison with the queue limit is made on 32-bit sums.  With 1000
    bytes queued, a packet of 2^32 - 500 bytes makes
    [nQueued + item->GetSize ()] wrap around to 500, which passes the test
    although the byte total is far above the limit of 1562500; the internal
    queue counts in 32 bits as well, and [DoEnqueue] reports success.

    The internal queues keep the capacity they were created with.  On a
    discipline created with a limit of 3000 bytes that holds 2800 bytes and
    whose limit was then raised to 5000 bytes by [SetQueueLimit], a packet
    of 1400 bytes passes the test of [DoEnqueue] and is refused by the
    Classic queue: it is not appended and [DoEnqueue] reports failure. *)
Lemma C3_counterexample :
  (wf_item ex_huge_packet /\
   reachable ex_small_queue /\
   m_queueLimit (attrs ex_small_queue)
     < nbytes (classicQ ex_small_queue) + nbytes (l4sQ ex_small_queue)
       + GetSize ex_huge_packet /\
   DoEnqueue ex_huge_packet ex_small_queue
   = (true, set_classicQ (classicQ ex_small_queue ++ [ex_huge_packet])
                         ex_small_queue)) /\
  (wf_item (ex_packet 1400 2 0) /\
   reachable ex_raised_limit /\
   nbytes (classicQ ex_raised_limit) + nbytes (l4sQ ex_raised_limit)
     + GetSize (ex_packet 1400 2 0) <= m_queueLimit (attrs ex_raised_limit) /\
   DoEnqueue (ex_packet 1400 2 0) ex_raised_limit
   = (false, set_dropLog (dropLog ex_raised_limit
                          ++ [(ex_packet 1400 2 0, INTERNAL_QUEUE_DROP)])
                         ex_raised_limit)).
Proof.
  split.
  - split; [apply wf_ex_packet; lia|].
    split; [apply reachable_after_enqueue;
            [apply wf_ex_packet; lia | apply reachable_ex_init]|].
    split; vm_compute; reflexivity.
  - split; [apply wf_ex_packet; lia|].
    split.
    + unfold ex_raised_limit. cbv zeta.
      apply reach_step with (s := after_enqueue (ex_packet 1400 1 0)
                                    (after_enqueue (ex_packet 1400 0 0)
                                       match InitializeParams (Some 1500)
                                               (fresh (with_queueLimit 3000 default_attrs))
                                       with Ok s => s | Fatal _ => fresh (with_queueLimit 3000 default_attrs) end));
        [|apply step_queue_limit; unfold is_u32, two32; lia].
      apply reachable_after_enqueue; [apply wf_ex_packet; lia|].
      apply reachable_after_enqueue; [apply wf_ex_packet; lia|].
      eapply (reach_init (with_queueLimit 3000 default_attrs) (mkSetup 0 0 []) _
                         (Some 1500)); reflexivity.
    + split; [vm_compute; discriminate | vm_compute; reflexivity].
Qed.

(** C3, amended: provided the queued bytes plus the size of the item fit in
    32 bits, [DoEnqueue] fails, dropping the item with reason FORCED_DROP,
    exactly when bytes(Q_C) + bytes(Q_L) + size(item) > queue_limit, and
    then only the drop log changes; otherwise, provided the internal
    queues have room for queue_limit bytes each (as [CheckConfig] leaves
    them, until the limit is raised), the item is appended to exactly one
    of the two FIFO queues, nothing else changes, and [DoEnqueue] reports
    success.  Whatever their capacity, an item that passes the test of the
    limit is either appended in that way or refused by its internal queue
    and logged as an internal-queue drop. *)
Theorem C3_DoEnqueue_tail_drop (item : QueueDiscItem) (s : DualPi2QueueDisc) :
  wf_item item ->
  Forall wf_item (classicQ s) -> Forall wf_item (l4sQ s) ->
  nbytes (classicQ s) + nbytes (l4sQ s) + GetSize item < two32 ->
  let appended :=
    DoEnqueue item s = (true, set_l4sQ (l4sQ s ++ [item]) s) \/
    DoEnqueue item s = (true, set_classicQ (classicQ s ++ [item]) s) in
  (m_queueLimit (attrs s) < nbytes (classicQ s) + nbytes (l4sQ s) + GetSize item ->
   DoEnqueue item s = (false, set_dropLog (dropLog s ++ [(item, FORCED_DROP)]) s)) /\
  (nbytes (classicQ s) + nbytes (l4sQ s) + GetSize item <= m_queueLimit (attrs s) ->
   (capacity_covers_limit s -> appended) /\
   (appended \/
    DoEnqueue item s
    = (false, set_dropLog (dropLog s ++ [(item, INTERNAL_QUEUE_DROP)]) s))).
Proof.
  intros [Hsz _] HC HL Hfit appended. subst appended. unfold is_u32 in Hsz.
  pose proof (nbytes_nonneg _ HC) as HC0. pose proof (nbytes_nonneg _ HL) as HL0.
  unfold DoEnqueue. rewrite (GetQueueSize_small s HC HL) by lia.
  rewrite u32_small by (unfold is_u32; lia).
  split; intros H.
  - apply Z.ltb_lt in H. rewrite H. reflexivity.
  - assert (E : (m_queueLimit (attrs s)
                 <? nbytes (classicQ s) + nbytes (l4sQ s) + GetSize item) = false)
      by (apply Z.ltb_ge; exact H).
    rewrite E. clear E. unfold InternalEnqueue, GetNBytes.
    destruct (IsL4s item); cbn [GetInternalQueue SetInternalQueue]; split.
    + intros [_ [HU [_ HV]]]. left. rewrite HU.
      rewrite (u32_small (nbytes (l4sQ s))) by (unfold is_u32; lia).
      rewrite u32_small by (unfold is_u32; lia).
      replace (_ <? _) with false by (symmetry; apply Z.ltb_ge; lia). reflexivity.
    + destruct (_ <? _); [right | left; left]; reflexivity.
    + intros [HU [_ [HV _]]]. right. rewrite HU.
      rewrite (u32_small (nbytes (classicQ s))) by (unfold is_u32; lia).
      rewrite u32_small by (unfold is_u32; lia).
      replace (_ <? _) with false by (symmetry; apply Z.ltb_ge; lia). reflexivity.
    + destruct (_ <? _); [right | left; right]; reflexivity.
Qed.

Lemma C3_DoEnqueue_tail_drop_witness :
  DoEnqueue (ex_packet 1500 5 1) ex_small_queue
  = (true, set_l4sQ (l4sQ ex_small_queue ++ [ex_packet 1500 5 1]) ex_small_queue) \/
  DoEnqueue (ex_packet 1500 5 1) ex_small_queue
  = (true, set_classicQ (classicQ ex_small_queue ++ [ex_packet 1500 5 1]) ex_small_queue).
Proof.
  apply (C3_DoEnqueue_tail_drop (ex_packet 1500 5 1) ex_small_queue).
  - split; [unfold is_u32, two32; simpl; lia | simpl; lia].
  - repeat constructor; simpl; unfold is_u32, two32; simpl; lia.
  - constructor.
  - vm_compute. reflexivity.
  - vm_compute. discriminate.
  - repeat split; vm_compute; discriminate.
Defined.

(** The two ECN bits, read one by one, against the mask of the source. *)
Lemma ecn_bits_codepoint tos :
  ecn_bits tos =
  match codepoint tos with NotECT => 0 | ECT1 => 1 | ECT0 => 2 | CE => 3 end.
Proof.
  unfold ecn_bits, codepoint.
  change (Z.land tos 3) with (Z.land tos (Z.ones 2)). rewrite Z.land_ones by lia.
  pose proof (Z.testbit_spec' tos 0 ltac:(lia)) as B0.
  pose proof (Z.testbit_spec' tos 1 ltac:(lia)) as B1.
  change (2 ^ 0) with 1 in B0. change (2 ^ 1) with 2 in B1. change (2 ^ 2) with 4.
  rewrite Z.div_1_r in B0.
  pose proof (Z.mod_pos_bound tos 4 ltac:(lia)).
  pose proof (Z.div_mod tos 2 ltac:(lia)).
  pose proof (Z.div_mod (tos / 2) 2 ltac:(lia)).
  pose proof (Z.div_mod tos 4 ltac:(lia)).
  destruct (Z.testbit tos 1); destruct (Z.testbit tos 0); simpl in B0, B1; lia.
Qed.

Lemma IsL4s_codepoint item :
  IsL4s item = true <->
  (item_codepoint item = Some ECT1 \/ item_codepoint item = Some CE).
Proof.
  unfold IsL4s, item_codepoint. destruct (dsField item) as [tos|]; simpl.
  - rewrite ecn_bits_codepoint. destruct (codepoint tos); simpl; split;
      try discriminate; try tauto; intros [H|H]; discriminate H.
  - split; [discriminate | intros [H|H]; discriminate H].
Qed.

Lemma app_one_neq {A} (q : list A) (x : A) : q ++ [x] <> q.
Proof.
  intros H. apply (f_equal (@length A)) in H. rewrite length_app in H.
  simpl in H. lia.
Qed.

(** C4: an item accepted by [DoEnqueue] is appended to Q_L if and only if
    the two ECN bits of its DS field read 01 (ECT(1)) or 11 (CE); every
    other accepted item, also one without a readable DS field, is appended
    to Q_C; the other queue is left as it was. *)
Theorem C4_classification (item : QueueDiscItem) (s s' : DualPi2QueueDisc) :
  DoEnqueue item s = (true, s') ->
  let l4s := item_codepoint item = Some ECT1 \/ item_codepoint item = Some CE in
  (l4s <-> l4sQ s' = l4sQ s ++ [item]) /\
  (l4s -> classicQ s' = classicQ s) /\
  (~ l4s -> classicQ s' = classicQ s ++ [item] /\ l4sQ s' = l4sQ s).
Proof.
  intros H l4s. subst l4s. rewrite <- IsL4s_codepoint.
  unfold DoEnqueue, InternalEnqueue in H.
  destruct (_ <? _) in H; [discriminate|].
  destruct (IsL4s item); cbn [GetInternalQueue SetInternalQueue] in H;
    destruct (_ <? _) in H; try discriminate; inversion H; subst; clear H; cbn.
  - split; [tauto|]. split; [reflexivity|]. intros C. exfalso. apply C. reflexivity.
  - split; [|split; [discriminate | tauto]].
    split; [discriminate|]. intros C. symmetry in C. exfalso.
    exact (app_one_neq _ _ C).
Qed.

Lemma C4_classification_witness :
  l4sQ (snd (DoEnqueue (ex_packet 1500 5 1) ex_small_queue))
  = l4sQ ex_small_queue ++ [ex_packet 1500 5 1].
Proof.
  apply (C4_classification (ex_packet 1500 5 1) ex_small_queue
           (snd (DoEnqueue (ex_packet 1500 5 1) ex_small_queue))).
  - vm_compute. reflexivity.
  - left. vm_compute. reflexivity.
Defined.

(** * Claim on the L4S dequeue *)

Lemma Mark_IsL4s item : IsL4s item = true -> Mark item = (true, set_CE item).
Proof.
  unfold IsL4s, Mark, item_Mark, set_CE. destruct (dsField item) as [tos|]; simpl.
  - intros H. destruct (ecn_bits tos =? 0) eqn:E; [|reflexivity].
    apply Z.eqb_eq in E. rewrite E in H. discriminate H.
  - discriminate.
Qed.

(** C5: while [p_CL < p_Lmax], [DequeueFromL4sQueue] returns the packet it
    takes from Q_L, as it was or CE-marked, and records no drop; in the
    overload regime the packet is dropped (reason UNFORCED_L4S_DROP) exactly
    when [Recur (count_L, p_C)] fires, after which the function goes on with
    the next packet, and is returned otherwise.  The packet at the head of
    Q_L is one that [IsL4s] accepted, as every packet of Q_L is in a
    reachable state ([reachable_l4sQ_ok]). *)
Theorem C5_l4s_drop_only_in_overload (now : Time) (marked : bool)
    (s : DualPi2QueueDisc) (item : QueueDiscItem) (rest : list QueueDiscItem) :
  l4sQ s = item :: rest -> IsL4s item = true ->
  ((m_pCL s < m_pLmax s)%Q ->
   returns_head item rest s (DequeueFromL4sQueue now marked s)) /\
  (~ (m_pCL s < m_pLmax s)%Q ->
   let (fire, count) := Recur (m_l4sCount s) (m_pC s) in
   if fire then
     DequeueFromL4sQueue now marked s =
     DequeueFromL4sQueue now marked
       (DropAfterDequeue item UNFORCED_L4S_DROP
          (set_m_l4sCount count (set_l4sQ rest s)))
   else
     returns_head item rest s (DequeueFromL4sQueue now marked s)).
Proof.
  intros Hq Hl4s. unfold DequeueFromL4sQueue. cbn [GetInternalQueue].
  rewrite Hq. rewrite DequeueFromL4sQueue_loop_eq. cbv zeta.
  cbn [SetInternalQueue m_pCL m_pLmax set_l4sQ m_l4sCount set_m_pL m_pC].
  rewrite (Mark_IsL4s _ Hl4s). cbn [assert bind].
  split; intros Hreg.
  - apply (proj2 (Qltb_lt _ _)) in Hreg. rewrite Hreg.
    match goal with |- context [Recur ?c ?l] => destruct (Recur c l) as [[|] count] end.
    + eexists _, _, _. split; [reflexivity|]. cbn. tauto.
    + eexists _, _, _. split; [reflexivity|]. cbn. tauto.
  - assert (E : Qltb (m_pCL s) (m_pLmax s) = false).
    { destruct (Qltb (m_pCL s) (m_pLmax s)) eqn:E; [|reflexivity].
      apply Qltb_lt in E. contradiction. }
    rewrite E.
    destruct (Recur (m_l4sCount s) (m_pC s)) as [[|] count].
    + cbn [DropAfterDequeue l4sQ set_dropLog set_m_l4sCount set_l4sQ].
      destruct rest; reflexivity.
    + cbn [m_l4sCount set_m_l4sCount m_pCL].
      match goal with |- context [Recur ?c ?l] => destruct (Recur c l) as [[|] count2] end.
      * eexists _, _, _. split; [reflexivity|]. cbn. tauto.
      * eexists _, _, _. split; [reflexivity|]. cbn. tauto.
Qed.

Lemma C5_l4s_drop_only_in_overload_witness :
  returns_head (ex_packet 1500 0 1) [ex_packet 1500 0 1] ex_two_l4s
               (DequeueFromL4sQueue (MilliSeconds 2) false ex_two_l4s).
Proof.
  apply (proj1 (C5_l4s_drop_only_in_overload (MilliSeconds 2) false ex_two_l4s
                  (ex_packet 1500 0 1) [ex_packet 1500 0 1] eq_refl eq_refl)).
  vm_compute. reflexivity.
Defined.

(** * The Classic dequeue and the 2-MTU heuristic *)

(** C6 holds of the intention the source states ("never drop if less than 2
    MTU in queue") but not of the code: the test on the remaining bytes is
    made once, before the drop loop, and not for the packets the loop takes
    out after a drop.  With three 1500-byte packets queued, an MTU of 1500
    and [p_C = 1], the first packet leaves 3000 bytes and enters the loop;
    the second and third are taken out when 1500 and 0 bytes remain, both
    below 2 MTU, and are dropped all the same: the call returns nothing. *)
Theorem C6_drops_below_two_mtu :
  reachable ex_three_classic /\
  classicQ ex_three_classic
  = [ex_packet 1500 0 0; ex_packet 1500 1 0; ex_packet 1500 2 0] /\
  nbytes [ex_packet 1500 2 0] < 2 * m_mtu (attrs ex_three_classic) /\
  (exists s',
      DequeueFromClassicQueue false ex_three_classic = (None, true, s') /\
      classicQ s' = [] /\
      dropLog s' = [(ex_packet 1500 0 0, UNFORCED_CLASSIC_DROP);
                    (ex_packet 1500 1 0, UNFORCED_CLASSIC_DROP);
                    (ex_packet 1500 2 0, UNFORCED_CLASSIC_DROP)]) /\
  (exists s',
      DoDequeue 1000000000 ex_three_classic = Ok (None, s') /\
      classicQ s' = [] /\ length (dropLog s') = 3%nat).
Proof.
  split.
  { apply reachable_after_update.
    repeat (apply reachable_after_enqueue; [apply wf_ex_packet; lia|]).
    apply reachable_ex_init. }
  split; [vm_compute; reflexivity|].
  split; [vm_compute; reflexivity|].
  split.
  - eexists. split; [vm_compute; reflexivity|]. split; reflexivity.
  - eexists. split; [vm_compute; reflexivity|]. split; reflexivity.
Qed.

(** * The scheduler loop *)

Lemma idle_passes eligible l c s :
  idle_pass eligible l c s ->
  forall n : nat, Z.of_nat n <= two32 - 1000 ->
    iterate_nat (Scheduler_body eligible l c) n (0, 1000, s)
    = Continue (Z.of_nat n, u32 (1000 + Z.of_nat n), s).
Proof.
  intros Hidle. induction n as [|n IH]; intros Hn.
  - reflexivity.
  - replace (S n) with (n + 1)%nat by lia.
    rewrite iterate_nat_add, IH, iterate_nat_1 by lia.
    assert (Hm : u32 (1000 + Z.of_nat n) = 1000 + Z.of_nat n)
      by (apply u32_small; unfold is_u32, two32 in *; lia).
    rewrite Hm, Hidle by (apply Z.ltb_lt; lia).
    replace (Z.of_nat (n + 1)) with (Z.of_nat n + 1) by lia.
    rewrite (u32_small (Z.of_nat n + 1)) by (unfold is_u32, two32 in *; lia).
    replace (1000 + Z.of_nat n + 1) with (1000 + (Z.of_nat n + 1)) by lia.
    reflexivity.
Qed.

(** When every pass is idle the loop runs until [maxIterations] wraps around
    to zero, 2^32 - 1000 passes later, and falls through to the fatal error. *)
Lemma idle_loop_is_fatal eligible l c s :
  idle_pass eligible l c s ->
  iterate (Scheduler_body eligible l c) Scheduler_passes (0, 1000, s)
  = Break (Fatal DrrLogicError).
Proof.
  intros Hidle. rewrite iterate_iterate_nat.
  replace (Pos.to_nat Scheduler_passes)
    with (Z.to_nat (two32 - 1000) + (1 + 999))%nat
    by (unfold Scheduler_passes, two32; lia).
  rewrite iterate_nat_add, (idle_passes _ _ _ _ Hidle)
    by (unfold two32; lia).
  rewrite iterate_nat_add, iterate_nat_1.
  replace (Z.of_nat (Z.to_nat (two32 - 1000))) with (two32 - 1000)
    by (unfold two32; lia).
  replace (u32 (1000 + (two32 - 1000))) with 0 by reflexivity.
  reflexivity.
Qed.

Lemma reset_L4S_idem s :
  bit_L4S (m_drrQueues s) = false -> reset_L4S s = s.
Proof.
  destruct s as [? ? ? ? ? ? ? ? ? ? ? ? ? ? ? [bc bl] ? ? ? ? ? ?].
  cbn. intros ->. reflexivity.
Qed.

(** The pass is idle when only L4S is eligible, its head-of-line packet
    exceeds the L4S deficit, and the Classic queue, though not eligible,
    holds a packet and still has its bit in the round mask: the mask never
    empties, so no new round tops the deficits up. *)
Lemma Scheduler_body_idle l c s :
  l <> 0 -> c <> 0 ->
  m_llDeficit s < l ->
  bit_CLASSIC (m_drrQueues s) = true -> bit_L4S (m_drrQueues s) = false ->
  idle_pass (false, true) l c s.
Proof.
  intros Hl Hc Hdef HbC HbL i m Him. unfold Scheduler_body. rewrite Him.
  cbn [negb fst snd]. unfold bits_none. rewrite HbC. cbn [negb andb].
  apply Z.eqb_neq in Hl. apply Z.eqb_neq in Hc. apply Z.leb_gt in Hdef.
  rewrite Hl, Hdef. cbn [negb andb]. rewrite (reset_L4S_idem s HbL).
  rewrite Hc. reflexivity.
Qed.

Lemma Scheduler_stuck s :
  disc_GetNPackets s <> 0 ->
  hol_size (l4sQ s) <> 0 -> hol_size (classicQ s) <> 0 ->
  m_llDeficit s < hol_size (l4sQ s) ->
  bit_CLASSIC (m_drrQueues s) = true -> bit_L4S (m_drrQueues s) = false ->
  Scheduler (false, true) s = Fatal DrrLogicError.
Proof.
  intros Hn Hl Hc Hdef HbC HbL. unfold Scheduler. cbn [fst snd orb assert bind].
  apply Z.eqb_neq in Hn. rewrite Hn. cbn [GetInternalQueue].
  rewrite (idle_loop_is_fatal _ _ _ _ (Scheduler_body_idle _ _ _ Hl Hc Hdef HbC HbL)).
  reflexivity.
Qed.

Lemma PendingDequeue_batch_fatal passes now i left markedCount s f :
  (i <? 1000) = true ->
  negb (fst (CanSchedule left s)) && negb (snd (CanSchedule left s)) = false ->
  Scheduler (CanSchedule left s) s = Fatal f ->
  PendingDequeue_batch (S passes) now i left markedCount s = Fatal f.
Proof.
  intros Hi He Hs. cbn [PendingDequeue_batch]. rewrite Hi. cbn [assert bind].
  rewrite He, Hs. reflexivity.
Qed.

Lemma reachable_ex_stuck : reachable ex_stuck.
Proof.
  unfold ex_stuck.
  apply reachable_after_enqueue; [apply wf_ex_packet; lia|].
  do 2 apply reachable_after_dequeue.
  repeat (apply reachable_after_enqueue; [apply wf_ex_packet; lia|]).
  apply reachable_ex_init.
Qed.

(** C7 holds of the intention the source states ("If the queue is non-empty,
    it should iterate until returning either L4S or CLASSIC", "should be
    unreachable") but not of the code.  In [ex_stuck] the L4S queue holds a
    100-byte packet with an L4S deficit of 0, the Classic queue holds a
    1500-byte packet and its bit is still in the round mask.  A pending
    dequeue of 200 bytes makes L4S the only eligible class (138 <= 200,
    1538 > 200): the L4S packet exceeds the deficit, the Classic bit is never
    cleared because Classic is not eligible, no new round starts, and after
    2^32 - 1000 passes the loop ends in NS_FATAL_ERROR.  (With both classes
    eligible, as in [DoDequeue], the loop does select a class:
    [Scheduler_selects_when_both_eligible].) *)
Theorem C7_scheduler_reaches_fatal_error :
  reachable ex_stuck /\
  CanSchedule 200 ex_stuck = (false, true) /\
  hol_size (l4sQ ex_stuck) = 100 /\
  Scheduler (false, true) ex_stuck = Fatal DrrLogicError /\
  PendingDequeueCallback 20 true 200 ex_stuck = Fatal DrrLogicError.
Proof.
  split; [exact reachable_ex_stuck|].
  split; [vm_compute; reflexivity|].
  split; [vm_compute; reflexivity|].
  split.
  - apply Scheduler_stuck; vm_compute; (reflexivity || discriminate).
  - unfold PendingDequeueCallback. cbn [negb].
    set (s0 := refresh_samples 20 ex_stuck).
    replace (queueDiscPending s0 <? 200) with false by (vm_compute; reflexivity).
    rewrite (PendingDequeue_batch_fatal 1000 20 0 200 0 s0 DrrLogicError);
      [reflexivity | reflexivity | vm_compute; reflexivity |].
    replace (CanSchedule 200 s0) with (false, true) by (vm_compute; reflexivity).
    apply Scheduler_stuck; vm_compute; (reflexivity || discriminate).
Qed.

(** * The pending-dequeue mark top-up *)

Lemma is_ECT1_ecn_bits item :
  is_ECT1 item =
  match dsField item with
  | Some tos => ecn_bits tos =? 1
  | None => false
  end.
Proof.
  unfold is_ECT1, item_codepoint. destruct (dsField item) as [tos|]; simpl;
    [|reflexivity].
  rewrite ecn_bits_codepoint. destruct (codepoint tos); reflexivity.
Qed.

Lemma item_Mark_ECT1 item :
  is_ECT1 item = true -> snd (item_Mark item) = set_CE item.
Proof.
  rewrite is_ECT1_ecn_bits. unfold item_Mark, set_CE.
  destruct (dsField item) as [tos|]; [|discriminate].
  intros H. apply Z.eqb_eq in H. rewrite H. reflexivity.
Qed.

(** The walk, with the test on the ECN field folded into [is_ECT1]. *)
Lemma TopUpWalk_cons pendingMarks item rest :
  TopUpWalk pendingMarks (item :: rest) =
  if pendingMarks =? 0 then item :: rest
  else if is_ECT1 item
       then set_CE item :: TopUpWalk (u32 (pendingMarks - 1)) rest
       else item :: TopUpWalk pendingMarks rest.
Proof.
  cbn [TopUpWalk]. destruct (pendingMarks =? 0); [reflexivity|].
  pose proof (item_Mark_ECT1 item) as HM. rewrite is_ECT1_ecn_bits in *.
  destruct (dsField item) as [tos|]; [|reflexivity].
  destruct (ecn_bits tos =? 1); [|reflexivity].
  rewrite HM by reflexivity. reflexivity.
Qed.




Lemma TopUpWalk_length staging :
  forall pendingMarks, length (TopUpWalk pendingMarks staging) = length staging.
Proof.
  induction staging as [|item rest IH]; intros p; [reflexivity|].
  rewrite TopUpWalk_cons. destruct (p =? 0); [reflexivity|].
  destruct (is_ECT1 item); simpl; rewrite IH; reflexivity.
Qed.


(** * What the dequeues do with the packets *)

Lemma Mark_success item :
  fst (Mark item) = true -> snd (Mark item) = set_CE item.
Proof.
  unfold Mark, item_Mark, set_CE. destruct (dsField item) as [tos|]; simpl.
  - destruct (ecn_bits tos =? 0); [discriminate | reflexivity].
  - discriminate.
Qed.

Lemma DequeueFromL4sQueue_loop_shape now q :
  forall marked qdItem s,
    l4sQ s = q ->
    match DequeueFromL4sQueue_loop now marked qdItem q s with
    | Ok (r, m, s') =>
        l4s_erased s' = l4s_erased s /\
        exists dropped,
          dropLog s' = dropLog s ++ drops_of UNFORCED_L4S_DROP dropped /\
          (Qltb (m_pCL s) (m_pLmax s) = true -> dropped = []) /\
          match r with
          | Some item =>
              exists orig,
                qdItem :: q = dropped ++ orig :: l4sQ s' /\
                served_l4s orig item marked m
          | None => qdItem :: q = dropped /\ l4sQ s' = [] /\ m = marked
          end
    | Fatal f => f = CannotMarkL4s
    end.
Proof.
  assert (Hkeep : forall (marked : bool) (qdItem : QueueDiscItem)
                    (q : list QueueDiscItem) (s s1 : DualPi2QueueDisc) (b : bool),
             l4sQ s = q ->
             l4s_erased s1 = l4s_erased s -> dropLog s1 = dropLog s ->
             l4sQ s1 = l4sQ s ->
             forall item m, served_l4s qdItem item marked m ->
             l4s_erased s1 = l4s_erased s /\
             exists dropped,
               dropLog s1 = dropLog s ++ drops_of UNFORCED_L4S_DROP dropped /\
               (b = true -> dropped = []) /\
               exists orig,
                 qdItem :: q = dropped ++ orig :: l4sQ s1 /\
                 served_l4s orig item marked m).
  { intros marked qdItem q0 s s1 b Hq He Hd Hq1 item m Hs.
    split; [exact He|]. exists []. split; [rewrite Hd; symmetry; apply app_nil_r|].
    split; [reflexivity|]. exists qdItem. split; [|exact Hs].
    rewrite Hq1, Hq. reflexivity. }
  assert (Hmark : forall (marked : bool) (qdItem : QueueDiscItem)
                    (s s1 : DualPi2QueueDisc) (q : list QueueDiscItem) (b : bool),
             l4sQ s = q ->
             l4s_erased s1 = l4s_erased s -> dropLog s1 = dropLog s ->
             l4sQ s1 = l4sQ s ->
             match (let '(ok, qdItem0) := Mark qdItem in
                    _ <- assert ok CannotMarkL4s ;; Ok (Some qdItem0, ok, s1)) with
             | Ok (r, m, s') =>
                 l4s_erased s' = l4s_erased s /\
                 exists dropped,
                   dropLog s' = dropLog s ++ drops_of UNFORCED_L4S_DROP dropped /\
                   (b = true -> dropped = []) /\
                   match r with
                   | Some item =>
                       exists orig,
                         qdItem :: q = dropped ++ orig :: l4sQ s' /\
                         served_l4s orig item marked m
                   | None => qdItem :: q = dropped /\ l4sQ s' = [] /\ m = marked
                   end
             | Fatal f => f = CannotMarkL4s
             end).
  { intros marked qdItem s s1 q0 b Hq He Hd Hq1.
    pose proof (Mark_success qdItem) as HM.
    destruct (Mark qdItem) as [[|] item]; cbn [assert bind]; [|reflexivity].
    apply (Hkeep marked qdItem q0 s s1 b Hq He Hd Hq1).
    right. split; [exact (HM eq_refl) | reflexivity]. }
  induction q as [|next q' IH]; intros marked qdItem s Hq;
    rewrite DequeueFromL4sQueue_loop_eq; cbv zeta.
  - destruct (Qltb (m_pCL s) (m_pLmax s)) eqn:Ereg.
    + match goal with
      | |- context [Recur ?c ?p] => destruct (Recur c p) as [[|] count]
      end.
      * apply Hmark; [exact Hq | reflexivity | reflexivity | reflexivity].
      * apply (Hkeep marked qdItem [] s _ _); [exact Hq | reflexivity..|].
        left. split; reflexivity.
    + destruct (Recur (m_l4sCount s) (m_pC s)) as [[|] count].
      * split; [reflexivity|]. exists [qdItem].
        split; [reflexivity|]. split; [discriminate|].
        split; [reflexivity|]. split; [exact Hq | reflexivity].
      * match goal with
        | |- context [Recur ?c ?p] => destruct (Recur c p) as [[|] count']
        end.
        -- apply Hmark; [exact Hq | reflexivity | reflexivity | reflexivity].
        -- apply (Hkeep marked qdItem [] s _ _); [exact Hq | reflexivity..|].
           left. split; reflexivity.
  - destruct (Qltb (m_pCL s) (m_pLmax s)) eqn:Ereg.
    + match goal with
      | |- context [Recur ?c ?p] => destruct (Recur c p) as [[|] count]
      end.
      * apply Hmark; [exact Hq | reflexivity | reflexivity | reflexivity].
      * apply (Hkeep marked qdItem (next :: q') s _ _); [exact Hq | reflexivity..|].
        left. split; reflexivity.
    + destruct (Recur (m_l4sCount s) (m_pC s)) as [[|] count].
      * match goal with
        | |- context [DequeueFromL4sQueue_loop now marked next q' ?s1] =>
            specialize (IH marked next s1 eq_refl);
            destruct (DequeueFromL4sQueue_loop now marked next q' s1)
              as [[[r m] s']|f]; [|exact IH]
        end.
        destruct IH as [He [dropped [Hd [_ Hr]]]].
        split; [exact He|]. exists (qdItem :: dropped).
        split; [rewrite Hd; cbn [dropLog DropAfterDequeue set_dropLog SetInternalQueue
                                  set_l4sQ set_m_l4sCount drops_of map];
                rewrite <- app_assoc; reflexivity|].
        split; [discriminate|].
        destruct r as [item|].
        -- destruct Hr as [orig [Hl Hs]]. exists orig. split; [|exact Hs].
           cbn [app]. f_equal. exact Hl.
        -- destruct Hr as [Hl [Hn Hm]]. split; [|split; [exact Hn | exact Hm]].
           f_equal. exact Hl.
      * match goal with
        | |- context [Recur ?c ?p] => destruct (Recur c p) as [[|] count']
        end.
        -- apply Hmark; [exact Hq | reflexivity | reflexivity | reflexivity].
        -- apply (Hkeep marked qdItem (next :: q') s _ _); [exact Hq | reflexivity..|].
           left. split; reflexivity.
Qed.

Lemma DequeueFromL4sQueue_shape now marked s :
  match DequeueFromL4sQueue now marked s with
  | Ok (r, m, s') =>
      l4s_erased s' = l4s_erased s /\
      exists dropped,
        dropLog s' = dropLog s ++ drops_of UNFORCED_L4S_DROP dropped /\
        (Qltb (m_pCL s) (m_pLmax s) = true -> dropped = []) /\
        match r with
        | Some item =>
            exists orig,
              l4sQ s = dropped ++ orig :: l4sQ s' /\
              served_l4s orig item marked m
        | None => l4sQ s = dropped /\ l4sQ s' = [] /\ m = marked
        end
  | Fatal f => f = CannotMarkL4s
  end.
Proof.
  unfold DequeueFromL4sQueue. cbn [GetInternalQueue SetInternalQueue].
  destruct (l4sQ s) as [|qdItem q] eqn:Eq.
  - split; [reflexivity|]. exists []. split; [symmetry; apply app_nil_r|].
    split; [reflexivity|]. split; [reflexivity|]. split; [exact Eq | reflexivity].
  - pose proof (DequeueFromL4sQueue_loop_shape now q marked qdItem
                  (set_l4sQ q s) eq_refl) as H.
    destruct (DequeueFromL4sQueue_loop now marked qdItem q (set_l4sQ q s))
      as [[[r m] s']|f]; [|exact H].
    exact H.
Qed.

Lemma DequeueFromClassicQueue_loop_shape q :
  forall dropped qdItem s,
    classicQ s = q ->
    match DequeueFromClassicQueue_loop dropped qdItem q s with
    | (r, d, s') =>
        classic_erased s' = classic_erased s /\
        exists gone,
          dropLog s' = dropLog s ++ drops_of UNFORCED_CLASSIC_DROP gone /\
          d = (dropped || negb (length gone =? 0)%nat) /\
          match r with
          | Some item => qdItem :: q = gone ++ item :: classicQ s'
          | None => qdItem :: q = gone /\ classicQ s' = []
          end
    end.
Proof.
  induction q as [|next q' IH]; intros dropped qdItem s Hq;
    rewrite DequeueFromClassicQueue_loop_eq; cbv zeta;
    destruct (Recur (m_classicCount s) (m_pC s)) as [fire count];
    destruct (fire || Qle_bool (m_pCmax (set_m_classicCount count s))
                               (m_pC (set_m_classicCount count s))).
  - split; [reflexivity|]. exists [qdItem]. split; [reflexivity|].
    split; [cbn; apply eq_sym, orb_true_r|]. split; [reflexivity | exact Hq].
  - split; [reflexivity|]. exists []. split; [symmetry; apply app_nil_r|].
    split; [cbn; apply eq_sym, orb_false_r|]. cbn. rewrite Hq. reflexivity.
  - match goal with
    | |- context [DequeueFromClassicQueue_loop true next q' ?s1] =>
        specialize (IH true next s1 eq_refl);
        destruct (DequeueFromClassicQueue_loop true next q' s1) as [[r d] s']
    end.
    destruct IH as [He [gone [Hd [Hf Hr]]]].
    split; [exact He|]. exists (qdItem :: gone).
    split; [rewrite Hd; cbn [dropLog DropAfterDequeue set_dropLog SetInternalQueue
                              set_classicQ set_m_classicCount drops_of map];
            rewrite <- app_assoc; reflexivity|].
    split; [rewrite Hf; cbn; apply eq_sym, orb_true_r|].
    destruct r as [item|].
    + cbn [app]. f_equal. exact Hr.
    + destruct Hr as [Hl Hn]. split; [f_equal; exact Hl | exact Hn].
  - split; [reflexivity|]. exists []. split; [symmetry; apply app_nil_r|].
    split; [cbn; apply eq_sym, orb_false_r|]. cbn. rewrite Hq. reflexivity.
Qed.

Lemma DequeueFromClassicQueue_shape dropped s :
  match DequeueFromClassicQueue dropped s with
  | (r, d, s') =>
      classic_erased s' = classic_erased s /\
      exists gone,
        dropLog s' = dropLog s ++ drops_of UNFORCED_CLASSIC_DROP gone /\
        d = (dropped || negb (length gone =? 0)%nat) /\
        (GetNBytes (tl (classicQ s)) < u32 (2 * m_mtu (attrs s)) -> gone = []) /\
        match r with
        | Some item => classicQ s = gone ++ item :: classicQ s'
        | None => classicQ s = gone /\ classicQ s' = []
        end
  end.
Proof.
  unfold DequeueFromClassicQueue. cbn [GetInternalQueue SetInternalQueue].
  destruct (classicQ s) as [|qdItem q] eqn:Eq; cbn [Dequeue].
  - destruct (_ <? _); (split; [reflexivity|]); exists [];
      (split; [symmetry; apply app_nil_r|]);
      (split; [cbn; apply eq_sym, orb_false_r|]);
      (split; [reflexivity|]); (split; [first [exact Eq | reflexivity] | reflexivity]).
  - cbn [tl attrs set_classicQ classicQ].
    destruct (GetNBytes q <? u32 (2 * m_mtu (attrs s))) eqn:E2.
    + split; [reflexivity|]. exists []. split; [symmetry; apply app_nil_r|].
      split; [cbn; apply eq_sym, orb_false_r|]. split; [reflexivity|].
      first [reflexivity | cbn; rewrite Eq; reflexivity].
    + pose proof (DequeueFromClassicQueue_loop_shape q dropped qdItem
                    (set_classicQ q s) eq_refl) as H.
      destruct (DequeueFromClassicQueue_loop dropped qdItem q (set_classicQ q s))
        as [[r d] s'].
      destruct H as [He [gone [Hd [Hf Hr]]]].
      split; [exact He|]. exists gone. split; [exact Hd|]. split; [exact Hf|].
      split; [|exact Hr].
      intros Hlt. apply Z.ltb_ge in E2. lia.
Qed.

(** * Where the packets go *)

Lemma l4s_erased_fields s s' :
  l4s_erased s' = l4s_erased s ->
  pi2_view s' = pi2_view s /\
  classicQ s' = classicQ s /\
  m_classicStagingQueue s' = m_classicStagingQueue s /\
  m_l4sStagingQueue s' = m_l4sStagingQueue s /\
  m_classicCount s' = m_classicCount s /\
  drr_erased (l4s_erased s') = drr_erased (l4s_erased s).
Proof.
  destruct s, s'. unfold l4s_erased, pi2_view. cbn. intros H.
  inversion H; subst. repeat split.
Qed.

Lemma classic_erased_fields s s' :
  classic_erased s' = classic_erased s ->
  pi2_view s' = pi2_view s /\
  l4sQ s' = l4sQ s /\
  m_classicStagingQueue s' = m_classicStagingQueue s /\
  m_l4sStagingQueue s' = m_l4sStagingQueue s /\
  m_l4sCount s' = m_l4sCount s /\ m_pL s' = m_pL s.
Proof.
  destruct s, s'. unfold classic_erased, pi2_view. cbn. intros H.
  inversion H; subst. repeat split.
Qed.

Lemma taken_refl s : taken s s [] [].
Proof.
  exists [], [], []. cbn. rewrite app_nil_r. repeat split; constructor.
Qed.

Lemma came_from_app_l q1 q2 item : came_from q1 item -> came_from (q1 ++ q2) item.
Proof.
  intros [orig [Hin H]]. exists orig. split; [apply in_or_app; left; exact Hin | exact H].
Qed.

Lemma came_from_app_r q1 q2 item : came_from q2 item -> came_from (q1 ++ q2) item.
Proof.
  intros [orig [Hin H]]. exists orig. split; [apply in_or_app; right; exact Hin | exact H].
Qed.

Lemma aqm_drop_app_l c1 c2 l1 l2 d : aqm_drop c1 l1 d -> aqm_drop (c1 ++ c2) (l1 ++ l2) d.
Proof.
  intros [[H1 H2]|[H1 H2]]; [left | right];
    (split; [apply in_or_app; left; exact H1 | exact H2]).
Qed.

Lemma aqm_drop_app_r c1 c2 l1 l2 d : aqm_drop c2 l2 d -> aqm_drop (c1 ++ c2) (l1 ++ l2) d.
Proof.
  intros [[H1 H2]|[H1 H2]]; [left | right];
    (split; [apply in_or_app; right; exact H1 | exact H2]).
Qed.

Lemma taken_trans s s1 s2 oC1 oL1 oC2 oL2 :
  taken s s1 oC1 oL1 -> taken s1 s2 oC2 oL2 ->
  taken s s2 (oC1 ++ oC2) (oL1 ++ oL2).
Proof.
  intros [c1 [l1 [d1 [HC1 [HL1 [HD1 [Hn1 [HoC1 [HoL1 [Hd1 Hv1]]]]]]]]]]
         [c2 [l2 [d2 [HC2 [HL2 [HD2 [Hn2 [HoC2 [HoL2 [Hd2 Hv2]]]]]]]]]].
  exists (c1 ++ c2), (l1 ++ l2), (d1 ++ d2).
  split; [rewrite HC1, HC2; apply app_assoc|].
  split; [rewrite HL1, HL2; apply app_assoc|].
  split; [rewrite HD2, HD1; symmetry; apply app_assoc|].
  split; [rewrite !length_app; lia|].
  split.
  { apply Forall_app. split; eapply Forall_impl; try eassumption;
      intros a Ha; apply in_or_app; [left | right]; exact Ha. }
  split.
  { apply Forall_app. split; eapply Forall_impl; try eassumption;
      intros a Ha; [apply came_from_app_l | apply came_from_app_r]; exact Ha. }
  split.
  { apply Forall_app. split; eapply Forall_impl; try eassumption;
      intros a Ha; [apply aqm_drop_app_l | apply aqm_drop_app_r]; exact Ha. }
  rewrite Hv2. exact Hv1.
Qed.

(** [taken] only reads the two internal queues, the drop log and the PI2
    members. *)
Lemma taken_same_l s0 s s' oC oL :
  classicQ s0 = classicQ s -> l4sQ s0 = l4sQ s -> dropLog s0 = dropLog s ->
  pi2_view s0 = pi2_view s ->
  taken s s' oC oL -> taken s0 s' oC oL.
Proof.
  intros EC EL ED EV [c [l [d H]]]. exists c, l, d.
  rewrite EC, EL, ED, EV. exact H.
Qed.

Lemma taken_same_r s s' s0 oC oL :
  classicQ s0 = classicQ s' -> l4sQ s0 = l4sQ s' -> dropLog s0 = dropLog s' ->
  pi2_view s0 = pi2_view s' ->
  taken s s' oC oL -> taken s s0 oC oL.
Proof.
  intros EC EL ED EV [c [l [d H]]]. exists c, l, d.
  rewrite EC, EL, ED, EV. exact H.
Qed.

Lemma drops_of_length r q : length (drops_of r q) = length q.
Proof. unfold drops_of. apply length_map. Qed.

Lemma DequeueFromL4sQueue_taken now marked s r m s' :
  DequeueFromL4sQueue now marked s = Ok (r, m, s') ->
  taken s s' [] (handed_out r) /\
  m_classicStagingQueue s' = m_classicStagingQueue s /\
  m_l4sStagingQueue s' = m_l4sStagingQueue s.
Proof.
  intros H. pose proof (DequeueFromL4sQueue_shape now marked s) as Hs.
  rewrite H in Hs. destruct Hs as [He [gone [Hd [_ Hr]]]].
  apply l4s_erased_fields in He. destruct He as [Hv [HC [HSC [HSL _]]]].
  split; [|split; assumption].
  destruct r as [item|].
  - destruct Hr as [orig [Hq Hserved]].
    exists [], (gone ++ [orig]), (drops_of UNFORCED_L4S_DROP gone).
    split; [rewrite HC; reflexivity|].
    split; [rewrite Hq, <- app_assoc; reflexivity|].
    split; [exact Hd|].
    split; [rewrite length_app, drops_of_length; cbn; lia|].
    split; [constructor|].
    split.
    { constructor; [|constructor]. exists orig.
      split; [apply in_or_app; right; left; reflexivity|].
      destruct Hserved as [[-> _]|[-> _]]; [left | right]; reflexivity. }
    split; [|exact Hv].
    apply Forall_forall. intros d Hin. right. unfold drops_of in Hin.
    apply in_map_iff in Hin. destruct Hin as [x [<- Hx]]. cbn.
    split; [apply in_or_app; left; exact Hx | reflexivity].
  - destruct Hr as [Hq [Hn _]].
    exists [], gone, (drops_of UNFORCED_L4S_DROP gone).
    split; [rewrite HC; reflexivity|].
    split; [rewrite Hq, Hn; symmetry; apply app_nil_r|].
    split; [exact Hd|].
    split; [rewrite drops_of_length; cbn; lia|].
    split; [constructor|]. split; [constructor|].
    split; [|exact Hv].
    apply Forall_forall. intros d Hin. right. unfold drops_of in Hin.
    apply in_map_iff in Hin. destruct Hin as [x [<- Hx]]. cbn.
    split; [exact Hx | reflexivity].
Qed.

Lemma DequeueFromClassicQueue_taken dropped s r d s' :
  DequeueFromClassicQueue dropped s = (r, d, s') ->
  taken s s' (handed_out r) [] /\
  m_classicStagingQueue s' = m_classicStagingQueue s /\
  m_l4sStagingQueue s' = m_l4sStagingQueue s.
Proof.
  intros H. pose proof (DequeueFromClassicQueue_shape dropped s) as Hs.
  rewrite H in Hs. destruct Hs as [He [gone [Hd [_ [_ Hr]]]]].
  apply classic_erased_fields in He. destruct He as [Hv [HL [HSC [HSL _]]]].
  split; [|split; assumption].
  destruct r as [item|].
  - exists (gone ++ [item]), [], (drops_of UNFORCED_CLASSIC_DROP gone).
    split; [rewrite Hr, <- app_assoc; reflexivity|].
    split; [rewrite HL; reflexivity|].
    split; [exact Hd|].
    split; [rewrite length_app, drops_of_length; cbn; lia|].
    split; [constructor; [apply in_or_app; right; left; reflexivity | constructor]|].
    split; [constructor|].
    split; [|exact Hv].
    apply Forall_forall. intros x Hin. left. unfold drops_of in Hin.
    apply in_map_iff in Hin. destruct Hin as [y [<- Hy]]. cbn.
    split; [apply in_or_app; left; exact Hy | reflexivity].
  - destruct Hr as [Hq Hn].
    exists gone, [], (drops_of UNFORCED_CLASSIC_DROP gone).
    split; [rewrite Hq, Hn; symmetry; apply app_nil_r|].
    split; [rewrite HL; reflexivity|].
    split; [exact Hd|].
    split; [rewrite drops_of_length; cbn; lia|].
    split; [constructor|]. split; [constructor|].
    split; [|exact Hv].
    apply Forall_forall. intros x Hin. left. unfold drops_of in Hin.
    apply in_map_iff in Hin. destruct Hin as [y [<- Hy]]. cbn.
    split; [exact Hy | reflexivity].
Qed.

Lemma Scheduler_taken eligible s sel s' :
  Scheduler eligible s = Ok (sel, s') ->
  taken s s' [] [] /\
  m_classicStagingQueue s' = m_classicStagingQueue s /\
  m_l4sStagingQueue s' = m_l4sStagingQueue s.
Proof.
  intros H. pose proof (Scheduler_spec eligible s) as Hs. rewrite H in Hs.
  destruct Hs as [He _]. apply drr_erased_fields in He.
  destruct He as [Hv [_ [_ [HC [HL [HSC [HSL HD]]]]]]].
  split; [|split; assumption].
  apply (taken_same_r s s s'); try assumption. apply taken_refl.
Qed.

(** * Claim on the pending-dequeue mark top-up *)




Lemma DoDequeue_loop_taken now fuel :
  forall s r s',
    DoDequeue_loop fuel now s = Ok (r, s') ->
    (exists outC outL, taken s s' outC outL /\ outC ++ outL = handed_out r) /\
    m_classicStagingQueue s' = m_classicStagingQueue s /\
    m_l4sStagingQueue s' = m_l4sStagingQueue s /\
    (r = None -> GetQueueSize s' = 0 \/ disc_GetNPackets s' = 0).
Proof.
  assert (Hstop : forall s r s',
             (0 <? GetQueueSize s) = false ->
             Ok (None, s) = Ok (r, s') ->
             (exists outC outL, taken s s' outC outL /\ outC ++ outL = handed_out r) /\
             m_classicStagingQueue s' = m_classicStagingQueue s /\
             m_l4sStagingQueue s' = m_l4sStagingQueue s /\
             (r = None -> GetQueueSize s' = 0 \/ disc_GetNPackets s' = 0)).
  { intros s r s' E H. inversion H; subst.
    split; [exists [], []; split; [apply taken_refl | reflexivity]|].
    split; [reflexivity|]. split; [reflexivity|]. intros _. left.
    apply Z.ltb_ge in E. pose proof (u32_range (GetNBytes (GetInternalQueue CLASSIC s')
                                                + GetNBytes (GetInternalQueue L4S s'))).
    unfold GetQueueSize, is_u32 in *. lia. }
  induction fuel as [|fuel IH]; intros s r s'; cbn [DoDequeue_loop].
  - destruct (0 <? GetQueueSize s) eqn:E; [discriminate|]. apply Hstop, E.
  - destruct (0 <? GetQueueSize s) eqn:E; [|apply Hstop, E].
    pose proof (Scheduler_spec (true, true) s) as Hspec.
    destruct (Scheduler (true, true) s) as [[sel s1]|f] eqn:ES; cbn [bind];
      [|discriminate].
    destruct (Scheduler_taken _ _ _ _ ES) as [T1 [SC1 SL1]].
    destruct sel.
    + destruct (DequeueFromClassicQueue false s1) as [[qd d] s2] eqn:ED.
      destruct (DequeueFromClassicQueue_taken _ _ _ _ _ ED) as [T2 [SC2 SL2]].
      pose proof (taken_trans _ _ _ _ _ _ _ T1 T2) as T. cbn [app] in T.
      destruct qd as [qd|].
      * intros H; inversion H; subst.
        split; [exists [qd], []; split; [exact T | reflexivity]|].
        split; [congruence|]. split; [congruence | discriminate].
      * intros H. destruct (IH _ _ _ H) as [[oC [oL [T3 Ho]]] [SC3 [SL3 Hn]]].
        split; [exists oC, oL; split;
                [exact (taken_trans _ _ _ _ _ _ _ T T3) | exact Ho]|].
        split; [congruence|]. split; [congruence | exact Hn].
    + destruct (DequeueFromL4sQueue now false s1) as [[[qd d] s2]|f] eqn:ED;
        cbn [bind]; [|discriminate].
      destruct (DequeueFromL4sQueue_taken _ _ _ _ _ _ ED) as [T2 [SC2 SL2]].
      pose proof (taken_trans _ _ _ _ _ _ _ T1 T2) as T. cbn [app] in T.
      destruct qd as [qd|].
      * intros H; inversion H; subst.
        split; [exists [], [qd]; split; [exact T | reflexivity]|].
        split; [congruence|]. split; [congruence | discriminate].
      * intros H. destruct (IH _ _ _ H) as [[oC [oL [T3 Ho]]] [SC3 [SL3 Hn]]].
        split; [exists oC, oL; split;
                [exact (taken_trans _ _ _ _ _ _ _ T T3) | exact Ho]|].
        split; [congruence|]. split; [congruence | exact Hn].
    + intros H; inversion H; subst. destruct Hspec as [_ [Hs Hz]].
      split; [exists [], []; split; [exact T1 | reflexivity]|].
      split; [exact SC1|]. split; [exact SL1|]. intros _. right.
      rewrite Hs. exact Hz.
Qed.

Lemma wifi_bytes_app q1 q2 : wifi_bytes (q1 ++ q2) = wifi_bytes q1 + wifi_bytes q2.
Proof. induction q1 as [|x q1 IH]; cbn; [reflexivity | rewrite IH; lia]. Qed.

Lemma wifi_bytes_nonneg q : 0 <= wifi_bytes q.
Proof.
  induction q as [|x q IH]; cbn; [lia|].
  pose proof (u32_range (GetSize x + 38)). unfold is_u32 in *. lia.
Qed.

Lemma PendingDequeue_batch_taken now passes :
  forall i left markedCount s s' n,
    is_u32 left ->
    PendingDequeue_batch passes now i left markedCount s = Ok (s', n) ->
    exists outC outL,
      taken s s' outC outL /\
      m_classicStagingQueue s' = m_classicStagingQueue s ++ outC /\
      m_l4sStagingQueue s' = m_l4sStagingQueue s ++ outL /\
      wifi_bytes outC + wifi_bytes outL <= left.
Proof.
  assert (Hstop : forall left s s' (n n' : Z),
             is_u32 left -> Ok (s, n) = Ok (s', n') ->
             exists outC outL,
               taken s s' outC outL /\
               m_classicStagingQueue s' = m_classicStagingQueue s ++ outC /\
               m_l4sStagingQueue s' = m_l4sStagingQueue s ++ outL /\
               wifi_bytes outC + wifi_bytes outL <= left).
  { intros left s s' n n' Hl H. inversion H; subst. exists [], [].
    split; [apply taken_refl|]. rewrite !app_nil_r.
    split; [reflexivity|]. split; [reflexivity|]. unfold is_u32 in Hl. cbn. lia. }
  assert (Hleft : forall left w, is_u32 left -> is_u32 w -> w <= left ->
             is_u32 (u32 (left - w)) /\ u32 (left - w) = left - w).
  { intros left w Hl Hw Hle. rewrite u32_small by (unfold is_u32 in *; lia).
    split; [unfold is_u32 in *; lia | reflexivity]. }
  induction passes as [|passes IH]; intros i left mc s s' n Hl;
    cbn [PendingDequeue_batch]; [apply Hstop, Hl|].
  destruct (i <? 1000); cbn [assert bind]; [|discriminate].
  destruct (negb (fst (CanSchedule left s)) && negb (snd (CanSchedule left s)));
    [apply Hstop, Hl|].
  destruct (Scheduler (CanSchedule left s) s) as [[sel s1]|f] eqn:ES; cbn [bind];
    [|discriminate].
  destruct (Scheduler_taken _ _ _ _ ES) as [T1 [SC1 SL1]].
  destruct sel.
  - destruct (DequeueFromClassicQueue false s1) as [[qd d] s2] eqn:ED.
    destruct (DequeueFromClassicQueue_taken _ _ _ _ _ ED) as [T2 [SC2 SL2]].
    pose proof (taken_trans _ _ _ _ _ _ _ T1 T2) as T. cbn [app] in T.
    destruct qd as [qd|].
    + destruct (u32 (GetSize qd + 38) <=? left) eqn:Ew; cbn [assert bind];
        [|discriminate].
      apply Z.leb_le in Ew.
      destruct (Hleft left (u32 (GetSize qd + 38)) Hl (u32_range _) Ew) as [Hl' El'].
      intros H. destruct (IH _ _ _ _ _ _ Hl' H) as [oC [oL [T3 [SC3 [SL3 Hb]]]]].
      exists (qd :: oC), oL.
      split.
      { apply (taken_trans s (AddToClassicStagingQueue qd s2) s' [qd] [] oC oL);
          [|exact T3].
        apply (taken_same_r s s2); try reflexivity. exact T. }
      split; [rewrite SC3; cbn; rewrite SC2, SC1, <- app_assoc; reflexivity|].
      split; [rewrite SL3; cbn; rewrite SL2, SL1; reflexivity|].
      cbn [wifi_bytes]. lia.
    + intros H. destruct (IH _ _ _ _ _ _ Hl H) as [oC [oL [T3 [SC3 [SL3 Hb]]]]].
      exists oC, oL.
      split; [exact (taken_trans _ _ _ _ _ _ _ T T3)|].
      split; [rewrite SC3, SC2, SC1; reflexivity|].
      split; [rewrite SL3, SL2, SL1; reflexivity | exact Hb].
  - destruct (DequeueFromL4sQueue now false s1) as [[[qd d] s2]|f] eqn:ED;
      cbn [bind]; [|discriminate].
    destruct (DequeueFromL4sQueue_taken _ _ _ _ _ _ ED) as [T2 [SC2 SL2]].
    pose proof (taken_trans _ _ _ _ _ _ _ T1 T2) as T. cbn [app] in T.
    destruct qd as [qd|].
    + destruct (u32 (GetSize qd + 38) <=? left) eqn:Ew; cbn [assert bind];
        [|discriminate].
      apply Z.leb_le in Ew.
      destruct (Hleft left (u32 (GetSize qd + 38)) Hl (u32_range _) Ew) as [Hl' El'].
      intros H. destruct (IH _ _ _ _ _ _ Hl' H) as [oC [oL [T3 [SC3 [SL3 Hb]]]]].
      exists oC, (qd :: oL).
      split.
      { apply (taken_trans s (AddToL4sStagingQueue qd s2) s' [] [qd] oC oL);
          [|exact T3].
        apply (taken_same_r s s2); try reflexivity. exact T. }
      split; [rewrite SC3; cbn; rewrite SC2, SC1; reflexivity|].
      split; [rewrite SL3; cbn; rewrite SL2, SL1, <- app_assoc; reflexivity|].
      cbn [wifi_bytes]. lia.
    + intros H. destruct (IH _ _ _ _ _ _ Hl H) as [oC [oL [T3 [SC3 [SL3 Hb]]]]].
      exists oC, oL.
      split; [exact (taken_trans _ _ _ _ _ _ _ T T3)|].
      split; [rewrite SC3, SC2, SC1; reflexivity|].
      split; [rewrite SL3, SL2, SL1; reflexivity | exact Hb].
  - pose proof (Scheduler_spec (CanSchedule left s) s) as Hspec.
    rewrite ES in Hspec. destruct Hspec as [_ [-> _]]. apply Hstop, Hl.
Qed.

Lemma taken_held s s' outC outL :
  taken s s' outC outL ->
  exists drops,
    dropLog s' = dropLog s ++ drops /\
    Forall (fun d => snd d = UNFORCED_CLASSIC_DROP \/ snd d = UNFORCED_L4S_DROP) drops /\
    (length (classicQ s) + length (l4sQ s)
     = length (classicQ s') + length (l4sQ s')
       + length outC + length outL + length drops)%nat.
Proof.
  intros [c [l [d [HC [HL [HD [Hn [_ [_ [Hd _]]]]]]]]]]. exists d.
  split; [exact HD|]. split.
  - eapply Forall_impl; [|exact Hd]. intros x [[_ H]|[_ H]]; [left | right]; exact H.
  - rewrite HC, HL, !length_app. lia.
Qed.

Lemma taken_remainders s s' outC outL :
  taken s s' outC outL ->
  remainder_of (classicQ s') (classicQ s) /\ remainder_of (l4sQ s') (l4sQ s) /\
  Forall (fun item => In item (classicQ s)) outC /\
  Forall (came_from (l4sQ s)) outL /\
  pi2_view s' = pi2_view s.
Proof.
  intros [c [l [d [HC [HL [_ [_ [HoC [HoL [_ Hv]]]]]]]]]].
  split; [exists c; exact HC|]. split; [exists l; exact HL|].
  split; [|split; [|exact Hv]].
  - eapply Forall_impl; [|exact HoC]. intros x Hx. rewrite HC.
    apply in_or_app. left. exact Hx.
  - eapply Forall_impl; [|exact HoL]. intros x Hx. rewrite HL.
    apply came_from_app_l. exact Hx.
Qed.

Lemma Scheduler_asserts eligible s :
  fst eligible || snd eligible = true ->
  Scheduler eligible s <> Fatal NeitherEligible.
Proof.
  intros He. unfold Scheduler. rewrite He. cbn [assert bind].
  destruct (disc_GetNPackets s =? 0); [discriminate|].
  destruct (iterate _ _ _) as [x|r] eqn:EI; [discriminate|].
  pose proof (iterate_inv
    (Scheduler_body eligible (hol_size (GetInternalQueue L4S s))
                    (hol_size (GetInternalQueue CLASSIC s)))
    (fun _ => True)
    (fun r => r <> Fatal NeitherEligible)) as Hinv.
  assert (Hb : forall x, True ->
     match Scheduler_body eligible (hol_size (GetInternalQueue L4S s))
             (hol_size (GetInternalQueue CLASSIC s)) x with
     | Continue _ => True
     | Break r => r <> Fatal NeitherEligible
     end).
  { intros [[i m] s0] _. unfold Scheduler_body.
    repeat match goal with
           | |- context [if ?b then _ else _] => destruct b
           end; try exact I; discriminate. }
  specialize (Hinv Hb Scheduler_passes (0, 1000, s) I). rewrite EI in Hinv.
  exact Hinv.
Qed.

Lemma Scheduler_aborts eligible s f :
  fst eligible || snd eligible = true ->
  Scheduler eligible s = Fatal f -> f = DrrLogicError.
Proof.
  intros He E. pose proof (Scheduler_spec eligible s) as Hs. rewrite E in Hs.
  destruct Hs as [Hs|[Hs|Hs]]; [|exact Hs|]; exfalso; subst f.
  - exact (Scheduler_asserts eligible s He E).
  - exact (Scheduler_never_out_of_fuel eligible s E).
Qed.

Lemma DoDequeue_loop_fatal now fuel :
  forall s f,
    DoDequeue_loop fuel now s = Fatal f ->
    f = CannotMarkL4s \/ f = DrrLogicError \/ f = OutOfFuel.
Proof.
  induction fuel as [|fuel IH]; intros s f; cbn [DoDequeue_loop].
  - destruct (0 <? GetQueueSize s); [|discriminate].
    intros H; inversion H. right. right. reflexivity.
  - destruct (0 <? GetQueueSize s); [|discriminate].
    pose proof (Scheduler_spec (true, true) s) as Hs.
    destruct (Scheduler (true, true) s) as [[sel s1]|f1] eqn:ES; cbn [bind].
    + destruct sel.
      * destruct (DequeueFromClassicQueue false s1) as [[qd d] s2].
        destruct qd; [discriminate | apply IH].
      * pose proof (DequeueFromL4sQueue_shape now false s1) as Hq.
        destruct (DequeueFromL4sQueue now false s1) as [[[qd d] s2]|f2]; cbn [bind].
        -- destruct qd; [discriminate | apply IH].
        -- intros H; inversion H. left. congruence.
      * discriminate.
    + intros H; inversion H; subst. right. left.
      exact (Scheduler_aborts (true, true) s f eq_refl ES).
Qed.

(** * Packet accounting *)

(** [DequeueFromL4sQueue] (lines 643-705) works through the L4S queue in FIFO
    order.  When it returns, only the L4S queue, the L4S counter, [m_pL] and
    the drop log have changed; the packets [dropped] were taken from the head
    of the queue one after the other and logged, in that order, as
    UNFORCED_L4S_DROP, none of them while [m_pCL < m_pLmax]; the packet
    handed out is the next one in the queue, as it was or set to CE (then the
    [marked] flag is raised), and the queue keeps what followed it.  With no
    packet handed out the queue has been emptied.  The only abort is the
    assertion that the packet picked for marking can be marked. *)
Theorem DequeueFromL4sQueue_fifo (now : Time) (marked : bool) (s : DualPi2QueueDisc) :
  match DequeueFromL4sQueue now marked s with
  | Ok (r, m, s') =>
      l4s_erased s' = l4s_erased s /\
      exists dropped,
        dropLog s' = dropLog s ++ drops_of UNFORCED_L4S_DROP dropped /\
        (Qltb (m_pCL s) (m_pLmax s) = true -> dropped = []) /\
        match r with
        | Some item =>
            exists orig,
              l4sQ s = dropped ++ orig :: l4sQ s' /\
              served_l4s orig item marked m
        | None => l4sQ s = dropped /\ l4sQ s' = [] /\ m = marked
        end
  | Fatal f => f = CannotMarkL4s
  end.
Proof.
  unfold DequeueFromL4sQueue. cbn [GetInternalQueue SetInternalQueue].
  destruct (l4sQ s) as [|qdItem q] eqn:Eq.
  - split; [reflexivity|]. exists []. split; [symmetry; apply app_nil_r|].
    split; [reflexivity|]. split; [reflexivity|].
    split; [first [exact Eq | reflexivity] | reflexivity].
  - pose proof (DequeueFromL4sQueue_loop_shape now q marked qdItem
                  (set_l4sQ q s) eq_refl) as H.
    destruct (DequeueFromL4sQueue_loop now marked qdItem q (set_l4sQ q s))
      as [[[r m] s']|f]; exact H.
Qed.

(** [DequeueFromClassicQueue] (lines 707-735) works through the Classic queue
    in FIFO order.  Only the Classic queue, the Classic counter and the drop
    log change; the packets [gone] were taken from the head of the queue one
    after the other and logged, in that order, as UNFORCED_CLASSIC_DROP; the
    packet handed out is the next one in the queue, unchanged (a Classic
    packet is never marked), and the queue keeps what followed it.  The
    [dropped] flag is raised exactly when a packet was dropped, and nothing
    is dropped when fewer than two MTUs of bytes follow the first packet. *)
Theorem DequeueFromClassicQueue_fifo (dropped : bool) (s : DualPi2QueueDisc) :
  match DequeueFromClassicQueue dropped s with
  | (r, d, s') =>
      classic_erased s' = classic_erased s /\
      exists gone,
        dropLog s' = dropLog s ++ drops_of UNFORCED_CLASSIC_DROP gone /\
        d = (dropped || negb (length gone =? 0)%nat) /\
        (GetNBytes (tl (classicQ s)) < u32 (2 * m_mtu (attrs s)) -> gone = []) /\
        match r with
        | Some item => classicQ s = gone ++ item :: classicQ s'
        | None => classicQ s = gone /\ classicQ s' = []
        end
  end.
Proof.
  unfold DequeueFromClassicQueue. cbn [GetInternalQueue SetInternalQueue].
  destruct (classicQ s) as [|qdItem q] eqn:Eq; cbn [Dequeue].
  - destruct (_ <? _); (split; [reflexivity|]); exists [];
      (split; [symmetry; apply app_nil_r|]);
      (split; [cbn; apply eq_sym, orb_false_r|]);
      (split; [reflexivity|]); (split; [first [exact Eq | reflexivity] | reflexivity]).
  - cbn [tl attrs set_classicQ classicQ].
    destruct (GetNBytes q <? u32 (2 * m_mtu (attrs s))) eqn:E2.
    + split; [reflexivity|]. exists []. split; [symmetry; apply app_nil_r|].
      split; [cbn; apply eq_sym, orb_false_r|]. split; reflexivity.
    + pose proof (DequeueFromClassicQueue_loop_shape q dropped qdItem
                    (set_classicQ q s) eq_refl) as H.
      destruct (DequeueFromClassicQueue_loop dropped qdItem q (set_classicQ q s))
        as [[r d] s'].
      destruct H as [He [gone [Hd [Hf Hr]]]].
      split; [exact He|]. exists gone. split; [exact Hd|]. split; [exact Hf|].
      split; [|exact Hr].
      intros Hlt. apply Z.ltb_ge in E2. lia.
Qed.

Lemma DoDequeue_taken now s r s' :
  DoDequeue now s = Ok (r, s') ->
  (exists item,
      r = Some item /\
      ((m_l4sStagingQueue s = item :: m_l4sStagingQueue s' /\
        m_classicStagingQueue s' = m_classicStagingQueue s) \/
       (m_l4sStagingQueue s = [] /\ m_l4sStagingQueue s' = [] /\
        m_classicStagingQueue s = item :: m_classicStagingQueue s')) /\
      taken s s' [] []) \/
  (m_l4sStagingQueue s = [] /\ m_classicStagingQueue s = [] /\
   m_l4sStagingQueue s' = [] /\ m_classicStagingQueue s' = [] /\
   (exists outC outL, taken s s' outC outL /\ outC ++ outL = handed_out r) /\
   (r = None -> GetQueueSize s' = 0 \/ disc_GetNPackets s' = 0)).
Proof.
  unfold DoDequeue, DequeueFromL4sStagingQueue, DequeueFromClassicStagingQueue.
  destruct (m_l4sStagingQueue s) as [|x restL] eqn:EL.
  - destruct (m_classicStagingQueue s) as [|y restC] eqn:EC.
    + intros H. apply DoDequeue_loop_taken in H.
      destruct H as [HT [HSC [HSL Hn]]]. right.
      split; [reflexivity|]. split; [reflexivity|].
      split; [congruence|]. split; [congruence|]. split; [exact HT | exact Hn].
    + intros H; inversion H; subst. left. exists y. split; [reflexivity|].
      split; [right; cbn; rewrite EL; repeat split|].
      apply (taken_same_r s s); try reflexivity. apply taken_refl.
  - intros H; inversion H; subst. left. exists x. split; [reflexivity|].
    split; [left; cbn; split; reflexivity|].
    apply (taken_same_r s s); try reflexivity. apply taken_refl.
Qed.

Lemma DoDequeue_counts (now : Time) (s : DualPi2QueueDisc) :
  match DoDequeue now s with
  | Ok (r, s') =>
      (exists drops,
          dropLog s' = dropLog s ++ drops /\
          Forall (fun d => snd d = UNFORCED_CLASSIC_DROP \/ snd d = UNFORCED_L4S_DROP)
                 drops /\
          held s = (held s' + length (handed_out r) + length drops)%nat) /\
      match r with
      | Some item =>
          In item (m_l4sStagingQueue s) \/ In item (m_classicStagingQueue s) \/
          In item (classicQ s) \/ came_from (l4sQ s) item
      | None =>
          m_l4sStagingQueue s = [] /\ m_classicStagingQueue s = [] /\
          (GetQueueSize s' = 0 \/ disc_GetNPackets s' = 0)
      end
  | Fatal f => f = CannotMarkL4s \/ f = DrrLogicError
  end.
Proof.
  destruct (DoDequeue now s) as [[r s']|f] eqn:E.
  - destruct (DoDequeue_taken _ _ _ _ E)
      as [[item [-> [Hst HT]]]|[HL [HC [HL' [HC' [[oC [oL [HT Ho]]] Hn]]]]]].
    + destruct (taken_held _ _ _ _ HT) as [drops [HD [HF Hlen]]]. split.
      * exists drops. split; [exact HD|]. split; [exact HF|].
        unfold held. cbn [handed_out length] in *.
        destruct Hst as [[H1 H2]|[H1 [H2 H3]]].
        -- rewrite H1, H2. cbn [length]. lia.
        -- rewrite H1, H2, H3. cbn [length]. lia.
      * destruct Hst as [[H1 _]|[_ [_ H3]]].
        -- left. rewrite H1. left. reflexivity.
        -- right. left. rewrite H3. left. reflexivity.
    + destruct (taken_held _ _ _ _ HT) as [drops [HD [HF Hlen]]].
      destruct (taken_remainders _ _ _ _ HT) as [_ [_ [HoC [HoL _]]]]. split.
      * exists drops. split; [exact HD|]. split; [exact HF|].
        unfold held. rewrite HL, HC, HL', HC', <- Ho, length_app. cbn [length]. lia.
      * destruct r as [item|].
        -- cbn [handed_out] in Ho. destruct oC as [|x oC].
           ++ cbn [app] in Ho. subst oL. inversion HoL; subst.
              right. right. right. assumption.
           ++ inversion Ho; subst. inversion HoC; subst.
              right. right. left. assumption.
        -- split; [exact HL|]. split; [exact HC|]. apply Hn. reflexivity.
  - unfold DoDequeue, DequeueFromL4sStagingQueue, DequeueFromClassicStagingQueue in E.
    destruct (m_l4sStagingQueue s); [|discriminate].
    destruct (m_classicStagingQueue s); [|discriminate].
    pose proof (DoDequeue_loop_fuel now _ s (Nat.lt_succ_diag_r _)) as Hfuel.
    destruct (DoDequeue_loop_fatal _ _ _ _ E) as [H|[H|H]];
      [left; exact H | right; exact H |].
    exfalso. apply Hfuel. rewrite E, H. reflexivity.
Qed.

Lemma PendingDequeue_batch_aborts now passes :
  forall i left markedCount s f,
    PendingDequeue_batch passes now i left markedCount s = Fatal f ->
    f = InfiniteLoop \/ f = DrrLogicError \/ f = InsufficientPending \/
    f = CannotMarkL4s.
Proof.
  induction passes as [|passes IH]; intros i left mc s f;
    cbn [PendingDequeue_batch]; [discriminate|].
  destruct (i <? 1000); cbn [assert bind];
    [|intros H; inversion H; left; reflexivity].
  destruct (negb (fst (CanSchedule left s)) && negb (snd (CanSchedule left s)))
    eqn:Eel; [discriminate|].
  assert (He : fst (CanSchedule left s) || snd (CanSchedule left s) = true).
  { destruct (fst (CanSchedule left s)), (snd (CanSchedule left s));
      try reflexivity. discriminate Eel. }
  destruct (Scheduler (CanSchedule left s) s) as [[sel s1]|f1] eqn:ES; cbn [bind].
  - destruct sel.
    + destruct (DequeueFromClassicQueue false s1) as [[qd d] s2].
      destruct qd as [qd|]; [|apply IH].
      destruct (u32 (GetSize qd + 38) <=? left); cbn [assert bind]; [apply IH|].
      intros H; inversion H. right. right. left. reflexivity.
    + pose proof (DequeueFromL4sQueue_shape now false s1) as Hq.
      destruct (DequeueFromL4sQueue now false s1) as [[[qd d] s2]|f2]; cbn [bind].
      * destruct qd as [qd|]; [|apply IH].
        destruct (u32 (GetSize qd + 38) <=? left); cbn [assert bind]; [apply IH|].
        intros H; inversion H. right. right. left. reflexivity.
      * intros H; inversion H. right. right. right. congruence.
    + discriminate.
  - intros H; inversion H; subst. right. left.
    exact (Scheduler_aborts _ s f He ES).
Qed.

Lemma TopUpWalk_wifi_bytes staging :
  forall pendingMarks, wifi_bytes (TopUpWalk pendingMarks staging) = wifi_bytes staging.
Proof.
  induction staging as [|item rest IH]; intros p; [reflexivity|].
  rewrite TopUpWalk_cons. destruct (p =? 0); [reflexivity|].
  destruct (is_ECT1 item); cbn [wifi_bytes set_CE GetSize]; rewrite IH; reflexivity.
Qed.

Lemma PendingDequeue_topup_staging markedCount s :
  length (m_l4sStagingQueue (PendingDequeue_topup markedCount s))
  = length (m_l4sStagingQueue s) /\
  wifi_bytes (m_l4sStagingQueue (PendingDequeue_topup markedCount s))
  = wifi_bytes (m_l4sStagingQueue s) /\
  set_m_l4sStagingQueue [] (PendingDequeue_topup markedCount s)
  = set_m_l4sStagingQueue [] s.
Proof.
  unfold PendingDequeue_topup. destruct (_ <? _); cbn.
  - rewrite TopUpWalk_length, TopUpWalk_wifi_bytes. repeat split.
  - repeat split.
Qed.

Lemma PendingDequeueCallback_counts (now : Time) (txQueueStopped : bool)
    (pendingBytes : Z) (s : DualPi2QueueDisc) :
  is_u32 pendingBytes ->
  match PendingDequeueCallback now txQueueStopped pendingBytes s with
  | Ok s' =>
      (exists drops,
          dropLog s' = dropLog s ++ drops /\
          Forall (fun d => snd d = UNFORCED_CLASSIC_DROP \/ snd d = UNFORCED_L4S_DROP)
                 drops /\
          held s = (held s' + length drops)%nat) /\
      (exists newC,
          m_classicStagingQueue s' = m_classicStagingQueue s ++ newC /\
          Forall (fun item => In item (classicQ s)) newC) /\
      (length (m_l4sStagingQueue s) <= length (m_l4sStagingQueue s'))%nat /\
      wifi_bytes (m_classicStagingQueue s') + wifi_bytes (m_l4sStagingQueue s')
      <= wifi_bytes (m_classicStagingQueue s) + wifi_bytes (m_l4sStagingQueue s)
         + pendingBytes /\
      (txQueueStopped = false -> s' = refresh_samples now s)
  | Fatal f =>
      f = InfiniteLoop \/ f = DrrLogicError \/ f = InsufficientPending \/
      f = CannotMarkL4s \/ f = MarksWithoutCoupling
  end.
Proof.
  intros Hpb.
  assert (Hsame : forall s0,
             s0 = refresh_samples now s ->
             (exists drops,
                 dropLog s0 = dropLog s ++ drops /\
                 Forall (fun d => snd d = UNFORCED_CLASSIC_DROP
                                  \/ snd d = UNFORCED_L4S_DROP) drops /\
                 held s = (held s0 + length drops)%nat) /\
             (exists newC,
                 m_classicStagingQueue s0 = m_classicStagingQueue s ++ newC /\
                 Forall (fun item => In item (classicQ s)) newC) /\
             (length (m_l4sStagingQueue s) <= length (m_l4sStagingQueue s0))%nat /\
             wifi_bytes (m_classicStagingQueue s0) + wifi_bytes (m_l4sStagingQueue s0)
             <= wifi_bytes (m_classicStagingQueue s) + wifi_bytes (m_l4sStagingQueue s)
                + pendingBytes).
  { intros s0 ->. split.
    - exists []. split; [symmetry; apply app_nil_r|]. split; [constructor|].
      unfold held. cbn. lia.
    - split; [exists []; split; [symmetry; apply app_nil_r | constructor]|].
      split; [cbn; lia|]. cbn. unfold is_u32 in Hpb. lia. }
  unfold PendingDequeueCallback. destruct txQueueStopped; cbn [negb].
  2:{ destruct (Hsame _ eq_refl) as [H1 [H2 [H3 H4]]].
      repeat (split; [assumption|]). intros _. reflexivity. }
  destruct (_ <? pendingBytes).
  { destruct (Hsame _ eq_refl) as [H1 [H2 [H3 H4]]].
    repeat (split; [assumption|]). discriminate. }
  destruct (PendingDequeue_batch 1001 now 0 pendingBytes 0 (refresh_samples now s))
    as [[s1 n]|f] eqn:EB; cbn [bind].
  2:{ destruct (PendingDequeue_batch_aborts _ _ _ _ _ _ _ EB) as [H|[H|[H|H]]];
        tauto. }
  assert (Hok : (exists drops,
                 dropLog (PendingDequeue_topup n s1) = dropLog s ++ drops /\
                 Forall (fun d => snd d = UNFORCED_CLASSIC_DROP
                                  \/ snd d = UNFORCED_L4S_DROP) drops /\
                 held s = (held (PendingDequeue_topup n s1) + length drops)%nat) /\
             (exists newC,
                 m_classicStagingQueue (PendingDequeue_topup n s1)
                 = m_classicStagingQueue s ++ newC /\
                 Forall (fun item => In item (classicQ s)) newC) /\
             (length (m_l4sStagingQueue s)
              <= length (m_l4sStagingQueue (PendingDequeue_topup n s1)))%nat /\
             wifi_bytes (m_classicStagingQueue (PendingDequeue_topup n s1))
             + wifi_bytes (m_l4sStagingQueue (PendingDequeue_topup n s1))
             <= wifi_bytes (m_classicStagingQueue s) + wifi_bytes (m_l4sStagingQueue s)
                + pendingBytes).
  { destruct (PendingDequeue_batch_taken _ _ _ _ _ _ _ _ Hpb EB)
      as [oC [oL [HT [HSC [HSL Hb]]]]].
    destruct (taken_held _ _ _ _ HT) as [drops [HD [HF Hlen]]].
    destruct (taken_remainders _ _ _ _ HT) as [_ [_ [HoC _]]].
    destruct (PendingDequeue_topup_staging n s1) as [Tl [Tw Te]].
    assert (EC : classicQ (PendingDequeue_topup n s1) = classicQ s1)
      by (change (classicQ (set_m_l4sStagingQueue [] (PendingDequeue_topup n s1))
                  = classicQ (set_m_l4sStagingQueue [] s1)); rewrite Te; reflexivity).
    assert (EL : l4sQ (PendingDequeue_topup n s1) = l4sQ s1)
      by (change (l4sQ (set_m_l4sStagingQueue [] (PendingDequeue_topup n s1))
                  = l4sQ (set_m_l4sStagingQueue [] s1)); rewrite Te; reflexivity).
    assert (ED : dropLog (PendingDequeue_topup n s1) = dropLog s1)
      by (change (dropLog (set_m_l4sStagingQueue [] (PendingDequeue_topup n s1))
                  = dropLog (set_m_l4sStagingQueue [] s1)); rewrite Te; reflexivity).
    assert (ESC : m_classicStagingQueue (PendingDequeue_topup n s1)
                  = m_classicStagingQueue s1)
      by (change (m_classicStagingQueue
                    (set_m_l4sStagingQueue [] (PendingDequeue_topup n s1))
                  = m_classicStagingQueue (set_m_l4sStagingQueue [] s1));
          rewrite Te; reflexivity).
    cbn [refresh_samples classicQ l4sQ dropLog m_classicStagingQueue
         m_l4sStagingQueue set_m_cLatencySample set_m_lLatencySample
         set_m_cBytesSample] in HD, Hlen, HSC, HSL, HoC.
    split.
    - exists drops. rewrite ED. split; [exact HD|]. split; [exact HF|].
      unfold held. rewrite EC, EL, ESC, Tl, HSC, HSL, !length_app. lia.
    - split; [exists oC; rewrite ESC; split; [exact HSC | exact HoC]|].
      split; [rewrite Tl, HSL, length_app; lia|].
      rewrite ESC, Tw, HSC, HSL, !wifi_bytes_app. lia. }
  destruct (n =? 0); cbn [bind].
  - destruct Hok as [H1 [H2 [H3 H4]]]. repeat (split; [assumption|]). discriminate.
  - destruct (Qltb 0 (m_pCL s1)); cbn [assert bind].
    + destruct Hok as [H1 [H2 [H3 H4]]]. repeat (split; [assumption|]). discriminate.
    + right. right. right. right. reflexivity.
Qed.

(** * Staged packets come out first *)

Lemma drain_classic_staging now :
  forall C s,
    m_l4sStagingQueue s = [] -> m_classicStagingQueue s = C ->
    drain (length C) now s
    = Ok (C, set_m_classicStagingQueue [] (set_m_l4sStagingQueue [] s)).
Proof.
  induction C as [|y C IH]; intros s HL HC.
  - cbn [length drain]. destruct s. cbn in *. subst. reflexivity.
  - cbn [length drain]. unfold DoDequeue, DequeueFromL4sStagingQueue,
      DequeueFromClassicStagingQueue. rewrite HL, HC. cbn [bind].
    rewrite (IH (set_m_classicStagingQueue C s) HL eq_refl). reflexivity.
Qed.

(** Packets staged by the pending-dequeue protocol are what [DoDequeue]
    (lines 743-761) hands out first: as many calls as there are staged
    packets return the L4S staging queue and then the Classic staging
    queue, each in FIFO order and each packet as it was staged; the AQM is
    not applied again and nothing else in the discipline changes. *)
Theorem drain_staged_first (now : Time) (s : DualPi2QueueDisc) :
  drain (length (m_l4sStagingQueue s) + length (m_classicStagingQueue s)) now s
  = Ok (m_l4sStagingQueue s ++ m_classicStagingQueue s,
        set_m_classicStagingQueue [] (set_m_l4sStagingQueue [] s)).
Proof.
  remember (m_l4sStagingQueue s) as L eqn:HL. symmetry in HL.
  revert s HL. induction L as [|x L IH]; intros s HL.
  - cbn [length Nat.add app]. apply drain_classic_staging; [exact HL | reflexivity].
  - cbn [length Nat.add drain app]. unfold DoDequeue at 1.
    unfold DequeueFromL4sStagingQueue. rewrite HL. cbn [bind].
    pose proof (IH (set_m_l4sStagingQueue L s) eq_refl) as H.
    cbn [m_classicStagingQueue set_m_l4sStagingQueue] in H. rewrite H. reflexivity.
Qed.

(** * Invariants of the queues *)

Lemma PendingDequeue_topup_fields markedCount s :
  classicQ (PendingDequeue_topup markedCount s) = classicQ s /\
  l4sQ (PendingDequeue_topup markedCount s) = l4sQ s /\
  dropLog (PendingDequeue_topup markedCount s) = dropLog s /\
  pi2_view (PendingDequeue_topup markedCount s) = pi2_view s /\
  m_classicStagingQueue (PendingDequeue_topup markedCount s) = m_classicStagingQueue s /\
  (m_l4sStagingQueue (PendingDequeue_topup markedCount s) = m_l4sStagingQueue s \/
   exists k, m_l4sStagingQueue (PendingDequeue_topup markedCount s)
             = TopUpWalk k (m_l4sStagingQueue s)).
Proof.
  unfold PendingDequeue_topup. destruct (_ <? _); cbn.
  - repeat split. right. eexists. reflexivity.
  - repeat split. left. reflexivity.
Qed.

Lemma PendingDequeueCallback_taken now stopped pendingBytes s s' :
  is_u32 pendingBytes ->
  PendingDequeueCallback now stopped pendingBytes s = Ok s' ->
  exists outC outL,
    taken s s' outC outL /\
    m_classicStagingQueue s' = m_classicStagingQueue s ++ outC /\
    (m_l4sStagingQueue s' = m_l4sStagingQueue s ++ outL \/
     exists k, m_l4sStagingQueue s' = TopUpWalk k (m_l4sStagingQueue s ++ outL)).
Proof.
  intros Hpb. unfold PendingDequeueCallback.
  assert (Hsame : Ok (refresh_samples now s) = Ok s' ->
            exists outC outL,
              taken s s' outC outL /\
              m_classicStagingQueue s' = m_classicStagingQueue s ++ outC /\
              (m_l4sStagingQueue s' = m_l4sStagingQueue s ++ outL \/
               exists k, m_l4sStagingQueue s'
                         = TopUpWalk k (m_l4sStagingQueue s ++ outL))).
  { intros H; inversion H; subst. exists [], [].
    split; [apply (taken_same_r s s); try reflexivity; apply taken_refl|].
    cbn. rewrite !app_nil_r. split; [reflexivity | left; reflexivity]. }
  destruct (negb stopped); [exact Hsame|].
  destruct (_ <? pendingBytes); [exact Hsame|]. clear Hsame.
  destruct (PendingDequeue_batch 1001 now 0 pendingBytes 0 (refresh_samples now s))
    as [[s1 n]|f] eqn:EB; cbn [bind]; [|discriminate].
  intros H.
  assert (Hs' : s' = PendingDequeue_topup n s1).
  { destruct (n =? 0); [|destruct (Qltb 0 (m_pCL s1))]; cbn [assert bind] in H;
      try discriminate; inversion H; reflexivity. }
  clear H. subst s'.
  destruct (PendingDequeue_batch_taken _ _ _ _ _ _ _ _ Hpb EB)
    as [oC [oL [HT [HSC [HSL _]]]]].
  destruct (PendingDequeue_topup_fields n s1) as [EC [EL [ED [EV [ESC ESL]]]]].
  exists oC, oL. split.
  - apply (taken_same_r s s1); try assumption.
  - split; [rewrite ESC; exact HSC|].
    change (m_l4sStagingQueue (refresh_samples now s)) with (m_l4sStagingQueue s) in HSL.
    destruct ESL as [E|[k E]]; rewrite E, HSL; [left; reflexivity|].
    right. exists k. reflexivity.
Qed.

Lemma IsL4s_set_CE item : IsL4s item = true -> IsL4s (set_CE item) = true.
Proof.
  unfold IsL4s, set_CE. cbn [dsField]. destruct (dsField item) as [tos|];
    [|discriminate]. cbn [option_map]. intros H. unfold ecn_bits in *.
  rewrite Z.land_lor_distr_l. change (Z.land 3 3) with 3.
  apply orb_true_iff in H. destruct H as [H|H]; apply Z.eqb_eq in H; rewrite H;
    reflexivity.
Qed.

Lemma came_from_IsL4s q item :
  Forall (fun x => IsL4s x = true) q -> came_from q item -> IsL4s item = true.
Proof.
  intros HF [orig [Hin H]]. rewrite Forall_forall in HF. specialize (HF _ Hin).
  destruct H as [->| ->]; [exact HF | apply IsL4s_set_CE, HF].
Qed.

Lemma TopUpWalk_IsL4s staging :
  forall k, Forall (fun x => IsL4s x = true) staging ->
            Forall (fun x => IsL4s x = true) (TopUpWalk k staging).
Proof.
  induction staging as [|item rest IH]; intros k HF; [constructor|].
  rewrite TopUpWalk_cons. inversion HF; subst.
  destruct (k =? 0); [exact HF|].
  destruct (is_ECT1 item); constructor; auto using IsL4s_set_CE.
Qed.

Lemma Forall_remainder (P : QueueDiscItem -> Prop) q' q :
  remainder_of q' q -> Forall P q -> Forall P q'.
Proof.
  intros [pre ->] H. apply Forall_app in H. exact (proj2 H).
Qed.

Lemma taken_classified s s' outC outL :
  taken s s' outC outL ->
  Forall (fun item => IsL4s item = true) (l4sQ s) ->
  Forall (fun item => IsL4s item = false) (classicQ s) ->
  Forall (fun item => IsL4s item = true) (l4sQ s') /\
  Forall (fun item => IsL4s item = false) (classicQ s') /\
  Forall (fun item => IsL4s item = true) outL /\
  Forall (fun item => IsL4s item = false) outC.
Proof.
  intros HT HL HC.
  destruct (taken_remainders _ _ _ _ HT) as [RC [RL [HoC [HoL _]]]].
  split; [exact (Forall_remainder _ _ _ RL HL)|].
  split; [exact (Forall_remainder _ _ _ RC HC)|].
  split.
  - eapply Forall_impl; [|exact HoL]. intros x Hx.
    exact (came_from_IsL4s _ _ HL Hx).
  - eapply Forall_impl; [|exact HoC]. intros x Hx.
    rewrite Forall_forall in HC. exact (HC _ Hx).
Qed.

Lemma InitializeParams_queues devMtu a c s :
  InitializeParams devMtu (set_base c (fresh a)) = Ok s ->
  classicQ s = [] /\ l4sQ s = [] /\
  m_classicStagingQueue s = [] /\ m_l4sStagingQueue s = [] /\
  m_llDeficit s = 0 /\ m_classicDeficit s = 0 /\
  m_queueLimit (attrs s) = m_queueLimit a /\ dropLog s = [].
Proof.
  unfold InitializeParams. destruct (negb _); cbn [assert bind]; [|discriminate].
  intros H; inversion H; subst. cbn. repeat split.
Qed.

Lemma DualPi2Update_queues now s s' :
  DualPi2Update now s = Ok s' -> update_erased s' = update_erased s.
Proof.
  unfold DualPi2Update.
  match goal with
  | |- bind ?c _ = _ -> _ => destruct c; cbn [bind]; [|discriminate]
  end.
  intros H; inversion H; subst. reflexivity.
Qed.

Lemma update_erased_fields s s' :
  update_erased s' = update_erased s ->
  attrs s' = attrs s /\
  classicQ s' = classicQ s /\ l4sQ s' = l4sQ s /\
  m_classicStagingQueue s' = m_classicStagingQueue s /\
  m_l4sStagingQueue s' = m_l4sStagingQueue s /\
  m_llDeficit s' = m_llDeficit s /\ m_classicDeficit s' = m_classicDeficit s /\
  dropLog s' = dropLog s.
Proof.
  destruct s, s'. unfold update_erased. cbn. intros H.
  inversion H; subst. repeat split.
Qed.

Lemma InitializeParams_classified devMtu a c s :
  InitializeParams devMtu (set_base c (fresh a)) = Ok s -> classified s.
Proof.
  intros H. destruct (InitializeParams_queues _ _ _ _ H) as [HC [HL [HSC [HSL _]]]].
  unfold classified. rewrite HC, HL, HSC, HSL. repeat split; constructor.
Qed.

Lemma DoEnqueue_classified item s :
  classified s -> classified (snd (DoEnqueue item s)).
Proof.
  intros [IL [IC [ISL ISC]]]. unfold DoEnqueue, InternalEnqueue.
  destruct (_ <? _); [repeat split; assumption|].
  destruct (IsL4s item) eqn:E; cbn [GetInternalQueue]; destruct (_ <? _);
    try (repeat split; assumption); unfold classified; cbn.
  - split; [apply Forall_app; split; [exact IL | repeat constructor; exact E]|].
    repeat split; assumption.
  - split; [exact IL|].
    split; [apply Forall_app; split; [exact IC | repeat constructor; exact E]|].
    split; assumption.
Qed.

Lemma DoDequeue_classified now s r s' :
  DoDequeue now s = Ok (r, s') -> classified s -> classified s'.
Proof.
  intros H [IL [IC [ISL ISC]]].
  destruct (DoDequeue_taken _ _ _ _ H)
    as [[item [_ [Hst HT]]]|[HL [HC [HL' [HC' [[oC [oL [HT _]]] _]]]]]];
    destruct (taken_classified _ _ _ _ HT IL IC) as [IL' [IC' _]];
    (split; [exact IL'|]); (split; [exact IC'|]).
  - destruct Hst as [[H1 H2]|[H1 [H2 H3]]].
    + rewrite H1 in ISL. inversion ISL; subst. rewrite H2.
      split; assumption.
    + rewrite H3 in ISC. inversion ISC; subst. rewrite H2.
      split; [constructor | assumption].
  - rewrite HL', HC'. split; constructor.
Qed.

Lemma PendingDequeueCallback_classified now stopped pendingBytes s s' :
  is_u32 pendingBytes ->
  PendingDequeueCallback now stopped pendingBytes s = Ok s' ->
  classified s -> classified s'.
Proof.
  intros Hpb H [IL [IC [ISL ISC]]].
  destruct (PendingDequeueCallback_taken _ _ _ _ _ Hpb H)
    as [oC [oL [HT [HSC HSL]]]].
  destruct (taken_classified _ _ _ _ HT IL IC) as [IL' [IC' [HoL HoC]]].
  split; [exact IL'|]. split; [exact IC'|]. split.
  - assert (HF : Forall (fun x => IsL4s x = true) (m_l4sStagingQueue s ++ oL))
      by (apply Forall_app; split; assumption).
    destruct HSL as [E|[k E]]; rewrite E; [exact HF|].
    apply TopUpWalk_IsL4s, HF.
  - rewrite HSC. apply Forall_app. split; assumption.
Qed.

Lemma DualPi2Update_classified now s s' :
  DualPi2Update now s = Ok s' -> classified s -> classified s'.
Proof.
  intros H [IL [IC [ISL ISC]]].
  apply DualPi2Update_queues, update_erased_fields in H.
  destruct H as [_ [HC [HL [HSC [HSL _]]]]].
  unfold classified. rewrite HC, HL, HSC, HSL. repeat split; assumption.
Qed.

Lemma reachable_two_l4s : reachable ex_two_l4s.
Proof.
  apply reachable_after_enqueue; [apply wf_ex_packet; lia|].
  apply reachable_after_enqueue; [apply wf_ex_packet; lia|].
  apply reachable_ex_init.
Qed.

(** In every state the discipline reaches, each packet is where its
    classification at enqueue ([IsL4s], lines 350-365) put it: the L4S queue
    and the L4S staging queue hold only packets [IsL4s] accepts, the Classic
    queue and the Classic staging queue only packets it rejects.  The
    dequeues and the pending-dequeue protocol move packets from a queue to
    the staging queue of the same class only, and CE-marking keeps an L4S
    packet L4S. *)
Theorem reachable_classified (s : DualPi2QueueDisc) :
  reachable s -> classified s.
Proof.
  induction 1 as [a c c' devMtu s _ H | s s' _ IH Hstep].
  - exact (InitializeParams_classified _ _ _ _ H).
  - destruct Hstep as [item s _ | now s r s' H | now st pb s s' Hpb H | now s s' H
                      | lim s _ | limit s _].
    + exact (DoEnqueue_classified item s IH).
    + exact (DoDequeue_classified _ _ _ _ H IH).
    + exact (PendingDequeueCallback_classified _ _ _ _ _ Hpb H IH).
    + exact (DualPi2Update_classified _ _ _ H IH).
    + exact IH.
    + exact IH.
Qed.

Lemma reachable_classified_witness : classified ex_two_l4s.
Proof. apply (reachable_classified ex_two_l4s). exact reachable_two_l4s. Defined.

Lemma nbytes_concat q1 q2 : nbytes (q1 ++ q2) = nbytes q1 + nbytes q2.
Proof. induction q1 as [|x q1 IH]; cbn; [reflexivity | rewrite IH; lia]. Qed.

Lemma pi2_view_attrs s s' : pi2_view s' = pi2_view s -> attrs s' = attrs s.
Proof. unfold pi2_view. intros H. inversion H. reflexivity. Qed.

Lemma taken_limit s s' outC outL :
  taken s s' outC outL -> sizes_ok s ->
  sizes_ok s' /\ attrs s' = attrs s /\
  nbytes (classicQ s') + nbytes (l4sQ s') <= nbytes (classicQ s) + nbytes (l4sQ s).
Proof.
  intros HT [HC HL].
  destruct (taken_remainders _ _ _ _ HT) as [[c EC] [[l EL] [_ [_ Hv]]]].
  rewrite EC in HC. rewrite EL in HL.
  apply Forall_app in HC. apply Forall_app in HL.
  destruct HC as [HC1 HC2]. destruct HL as [HL1 HL2].
  split; [split; assumption|]. split; [exact (pi2_view_attrs _ _ Hv)|].
  rewrite EC, EL, !nbytes_concat.
  apply nbytes_nonneg in HC1. apply nbytes_nonneg in HL1. lia.
Qed.

Lemma DoEnqueue_limit item s :
  wf_item item -> sizes_ok s -> within_limit s ->
  m_queueLimit (attrs s) + GetSize item < two32 ->
  sizes_ok (snd (DoEnqueue item s)) /\ within_limit (snd (DoEnqueue item s)).
Proof.
  intros Hw [HC HL] Hin Hfit. unfold within_limit in Hin.
  pose proof (nbytes_nonneg _ HC) as HC0. pose proof (nbytes_nonneg _ HL) as HL0.
  pose proof (proj1 Hw) as Hsz. unfold is_u32 in Hsz.
  unfold DoEnqueue. rewrite (GetQueueSize_small s HC HL) by lia.
  rewrite u32_small by (unfold is_u32; lia).
  destruct (Z.ltb_spec (m_queueLimit (attrs s))
                       (nbytes (classicQ s) + nbytes (l4sQ s) + GetSize item))
    as [E|E].
  { cbn. split; [split; assumption | exact Hin]. }
  unfold InternalEnqueue.
  destruct (IsL4s item); cbn [GetInternalQueue SetInternalQueue];
    destruct (_ <? _); cbn [snd];
    try (split; [split; assumption | exact Hin]);
    unfold sizes_ok, within_limit; cbn.
  - split; [split; [exact HC | apply Forall_app; split;
                               [exact HL | constructor; [exact Hw | constructor]]]|].
    rewrite nbytes_concat. cbn [nbytes]. lia.
  - split; [split; [apply Forall_app; split;
                    [exact HC | constructor; [exact Hw | constructor]] | exact HL]|].
    rewrite nbytes_concat. cbn [nbytes]. lia.
Qed.

Lemma taken_within_limit s s' outC outL :
  taken s s' outC outL -> sizes_ok s -> within_limit s ->
  sizes_ok s' /\ within_limit s'.
Proof.
  intros HT Hs Hin. destruct (taken_limit _ _ _ _ HT Hs) as [Hs' [Ha Hle]].
  split; [exact Hs'|]. unfold within_limit in *. rewrite Ha. lia.
Qed.

(** The shared byte limit of the specification,
    [sum_bytes(Q_C) + sum_bytes(Q_L) <= queue_limit], is kept from one
    operation to the next under two conditions that the code needs.
    [DoEnqueue] (lines 367-395) tests the sum in 32 bits, so it keeps the
    bound for an item whose size added to the limit fits 32 bits; and
    [SetQueueLimit] (lines 176-181) drops nothing, so it keeps the bound
    exactly when the new limit is not below the bytes queued.  [DoDequeue],
    [PendingDequeueCallback] and [DualPi2Update] add no bytes to the
    internal queues and leave the limit alone. *)
Theorem within_limit_preserved (s : DualPi2QueueDisc) :
  sizes_ok s -> within_limit s ->
  let kept s' := sizes_ok s' /\ within_limit s' in
  (forall item, wf_item item -> m_queueLimit (attrs s) + GetSize item < two32 ->
     kept (snd (DoEnqueue item s))) /\
  (forall now r s', DoDequeue now s = Ok (r, s') -> kept s') /\
  (forall now stopped pendingBytes s',
     is_u32 pendingBytes ->
     PendingDequeueCallback now stopped pendingBytes s = Ok s' -> kept s') /\
  (forall now s', DualPi2Update now s = Ok s' -> kept s') /\
  (forall lim,
     kept (SetQueueLimit lim s) <-> nbytes (classicQ s) + nbytes (l4sQ s) <= lim) /\
  (forall limit, kept (SetAggregationBufferLimit limit s)).
Proof.
  intros Hs Hin kept. subst kept. cbv beta.
  split; [intros item Hw Hfit; exact (DoEnqueue_limit item s Hw Hs Hin Hfit)|].
  split.
  { intros now r s' H.
    destruct (DoDequeue_taken _ _ _ _ H)
      as [[item [_ [_ HT]]]|[_ [_ [_ [_ [[oC [oL [HT _]]] _]]]]]];
      exact (taken_within_limit _ _ _ _ HT Hs Hin). }
  split.
  { intros now stopped pendingBytes s' Hpb H.
    destruct (PendingDequeueCallback_taken _ _ _ _ _ Hpb H) as [oC [oL [HT _]]].
    exact (taken_within_limit _ _ _ _ HT Hs Hin). }
  split.
  { intros now s' H. apply DualPi2Update_queues, update_erased_fields in H.
    destruct H as [Ha [HC [HL _]]].
    unfold sizes_ok, within_limit in *. rewrite Ha, HC, HL. split; assumption. }
  split.
  - intros lim. unfold sizes_ok, within_limit. cbn. split.
    + intros [_ H]. exact H.
    + intros H. split; [exact Hs | exact H].
  - intros limit. split; [exact Hs | exact Hin].
Qed.

(** Two packets of 1500 bytes are queued under the default limit; a third
    one keeps the bound. *)
Lemma within_limit_preserved_witness :
  within_limit (snd (DoEnqueue (ex_packet 1500 7 0) ex_two_l4s)).
Proof.
  apply (proj1 (within_limit_preserved ex_two_l4s
                  ltac:(split; repeat constructor; vm_compute; congruence)
                  ltac:(vm_compute; discriminate))
               (ex_packet 1500 7 0)).
  - apply wf_ex_packet; lia.
  - vm_compute. reflexivity.
Defined.

(** * [DoDequeue] runs to completion *)

Lemma Scheduler_deficits eligible s sel s' :
  Scheduler eligible s = Ok (sel, s') ->
  0 <= m_llDeficit s -> 0 <= m_classicDeficit s ->
  0 <= m_llDeficit s' /\ 0 <= m_classicDeficit s'.
Proof.
  intros H HL HC. unfold Scheduler in H.
  destruct (fst eligible || snd eligible); cbn [assert bind] in H; [|discriminate].
  destruct (disc_GetNPackets s =? 0); [inversion H; subst; split; assumption|].
  pose proof (iterate_inv
    (Scheduler_body eligible (hol_size (GetInternalQueue L4S s))
                    (hol_size (GetInternalQueue CLASSIC s)))
    (fun x => 0 <= m_llDeficit (snd x) /\ 0 <= m_classicDeficit (snd x))
    (fun r => match r with
              | Ok (_, s') => 0 <= m_llDeficit s' /\ 0 <= m_classicDeficit s'
              | Fatal _ => True
              end)) as Hinv.
  assert (Hb : forall x,
     0 <= m_llDeficit (snd x) /\ 0 <= m_classicDeficit (snd x) ->
     match Scheduler_body eligible (hol_size (GetInternalQueue L4S s))
             (hol_size (GetInternalQueue CLASSIC s)) x with
     | Continue x' => 0 <= m_llDeficit (snd x') /\ 0 <= m_classicDeficit (snd x')
     | Break r => match r with
                  | Ok (_, s') => 0 <= m_llDeficit s' /\ 0 <= m_classicDeficit s'
                  | Fatal _ => True
                  end
     end).
  { intros [[i m] s0] [H1 H2]. cbn [snd] in H1, H2. unfold Scheduler_body.
    destruct (negb (i <? m)); [exact I|].
    assert (H3 : 0 <= m_llDeficit (if bits_none (m_drrQueues s0)
                                   then start_round s0 else s0)
                 /\ 0 <= m_classicDeficit (if bits_none (m_drrQueues s0)
                                           then start_round s0 else s0)).
    { destruct (bits_none (m_drrQueues s0)); [|split; assumption].
      unfold start_round. cbn. split; apply u32_range. }
    revert H3. generalize (if bits_none (m_drrQueues s0) then start_round s0 else s0).
    intros s1 [H3 H4].
    repeat match goal with
           | |- context [if ?b then _ else _] => destruct b
           end; cbn; split;
      first [assumption | apply u32_range | lia]. }
  specialize (Hinv Hb Scheduler_passes (0, 1000, s) (conj HL HC)).
  destruct (iterate _ _ _) as [x|r]; [discriminate|]. subst r. exact Hinv.
Qed.

Lemma l4s_erased_drr s s' :
  l4s_erased s' = l4s_erased s ->
  m_llDeficit s' = m_llDeficit s /\ m_classicDeficit s' = m_classicDeficit s.
Proof.
  destruct s, s'. unfold l4s_erased. cbn. intros H. inversion H; subst. split; reflexivity.
Qed.

Lemma classic_erased_drr s s' :
  classic_erased s' = classic_erased s ->
  m_llDeficit s' = m_llDeficit s /\ m_classicDeficit s' = m_classicDeficit s.
Proof.
  destruct s, s'. unfold classic_erased. cbn. intros H. inversion H; subst.
  split; reflexivity.
Qed.

Lemma DequeueFromL4sQueue_loop_ok now q :
  forall marked qdItem s,
    IsL4s qdItem = true -> Forall (fun x => IsL4s x = true) q ->
    exists r, DequeueFromL4sQueue_loop now marked qdItem q s = Ok r.
Proof.
  induction q as [|next q' IH]; intros marked qdItem s Hi Hq;
    rewrite DequeueFromL4sQueue_loop_eq; cbv zeta; rewrite (Mark_IsL4s _ Hi);
    cbn [assert bind].
  - repeat match goal with
           | |- context [if ?b then _ else _] => destruct b
           | |- context [let '(_, _) := ?p in _] => destruct p
           end; eexists; reflexivity.
  - inversion Hq; subst.
    destruct (Qltb (m_pCL s) (m_pLmax s)).
    + repeat match goal with
             | |- context [if ?b then _ else _] => destruct b
             | |- context [let '(_, _) := ?p in _] => destruct p
             end; eexists; reflexivity.
    + destruct (Recur (m_l4sCount s) (m_pC s)) as [[|] count].
      * apply IH; assumption.
      * repeat match goal with
               | |- context [if ?b then _ else _] => destruct b
               | |- context [let '(_, _) := ?p in _] => destruct p
               end; eexists; reflexivity.
Qed.

Lemma DequeueFromL4sQueue_ok now marked s :
  Forall (fun x => IsL4s x = true) (l4sQ s) ->
  exists r, DequeueFromL4sQueue now marked s = Ok r.
Proof.
  intros H. unfold DequeueFromL4sQueue. cbn [GetInternalQueue].
  destruct (l4sQ s) as [|x q]; [eexists; reflexivity|].
  inversion H; subst. apply DequeueFromL4sQueue_loop_ok; assumption.
Qed.

Lemma servable_room a x :
  1 <= m_drrQuantum a -> (1 <= m_schedulingWeight a)%Q ->
  (inject_Z x + inject_Z (m_drrQuantum a) * m_schedulingWeight a
   < inject_Z (two32 - 1000))%Q ->
  x + m_drrQuantum a < two32 - 1000.
Proof.
  intros Hq Hw H. rewrite Zlt_Qlt. eapply Qle_lt_trans; [|exact H].
  rewrite inject_Z_plus. apply Qplus_le_r.
  apply Qle_trans with (inject_Z (m_drrQuantum a) * 1)%Q.
  - rewrite Qmult_1_r. apply Qle_refl.
  - apply Qmult_le_l; [|exact Hw].
    change 0%Q with (inject_Z 0). rewrite <- Zlt_Qlt. lia.
Qed.

Lemma servable_head a q :
  Forall (servable a) q ->
  (q = [] /\ hol_size q = 0) \/
  (0 < hol_size q /\
   (inject_Z (hol_size q) + inject_Z (m_drrQuantum a) * m_schedulingWeight a
    < inject_Z (two32 - 1000))%Q).
Proof.
  intros H. destruct q as [|x q]; [left; split; reflexivity|].
  right. inversion H; subst. cbn. assumption.
Qed.

Lemma room_mono x y w :
  0 <= x <= y ->
  (inject_Z y + w < inject_Z (two32 - 1000))%Q ->
  (inject_Z x + w < inject_Z (two32 - 1000))%Q.
Proof.
  intros Hxy H. eapply Qle_lt_trans; [|exact H]. apply Qplus_le_l.
  rewrite <- Zle_Qle. lia.
Qed.

Lemma DoDequeue_loop_succeeds now fuel :
  forall s,
    1 <= m_drrQuantum (attrs s) -> (1 <= m_schedulingWeight (attrs s))%Q ->
    Forall (fun x => IsL4s x = true) (l4sQ s) ->
    Forall (servable (attrs s)) (classicQ s) ->
    Forall (servable (attrs s)) (l4sQ s) ->
    0 <= m_llDeficit s -> 0 <= m_classicDeficit s ->
    (length (classicQ s) + length (l4sQ s) < fuel)%nat ->
    exists r s', DoDequeue_loop fuel now s = Ok (r, s').
Proof.
  induction fuel as [|fuel IH]; intros s Hq Hw HI HSC HSL HdL HdC Hlt; [lia|].
  cbn [DoDequeue_loop]. destruct (0 <? GetQueueSize s) eqn:EQ;
    [|eexists _, _; reflexivity].
  assert (Hsel : disc_GetNPackets s <> 0 -> selects (Scheduler (true, true) s)).
  { intros Hn. apply Scheduler_selects_when_both_eligible; try assumption.
    - destruct (servable_head _ _ HSL) as [[_ ->]|[H _]]; lia.
    - destruct (servable_head _ _ HSC) as [[_ ->]|[H _]]; lia.
    - destruct (servable_head _ _ HSL) as [[EL _]|[H _]]; [|left; lia].
      destruct (servable_head _ _ HSC) as [[EC _]|[H _]]; [|right; lia].
      exfalso. unfold GetQueueSize in EQ. cbn [GetInternalQueue] in EQ.
      rewrite EL, EC in EQ. discriminate EQ.
    - destruct (servable_head _ _ HSC) as [[EC ->]|[H0 H]].
      + destruct (servable_head _ _ HSL) as [[EL _]|[H0 H]].
        * exfalso. unfold GetQueueSize in EQ. cbn [GetInternalQueue] in EQ.
          rewrite EL, EC in EQ. discriminate EQ.
        * apply (servable_room _ 0 Hq Hw).
          apply (room_mono 0 (hol_size (l4sQ s)) _ ltac:(lia) H).
      + apply (servable_room _ _ Hq Hw H).
    - destruct (servable_head _ _ HSL) as [[EL ->]|[H0 H]]; [|exact H].
      destruct (servable_head _ _ HSC) as [[EC _]|[H0 H]].
      + exfalso. unfold GetQueueSize in EQ. cbn [GetInternalQueue] in EQ.
        rewrite EL, EC in EQ. discriminate EQ.
      + apply (room_mono 0 (hol_size (classicQ s)) _ ltac:(lia) H). }
  pose proof (Scheduler_spec (true, true) s) as Hspec.
  destruct (Scheduler (true, true) s) as [[sel s1]|f] eqn:ES; cbn [bind].
  2:{ exfalso. destruct (Z.eq_dec (disc_GetNPackets s) 0) as [En|En].
      - unfold Scheduler in ES. cbn [fst snd orb assert bind] in ES.
        apply Z.eqb_eq in En. rewrite En in ES. discriminate ES.
      - destruct (Hsel En) as [x [y [Hxy _]]]. discriminate Hxy. }
  destruct (Scheduler_deficits _ _ _ _ ES HdL HdC) as [HdL1 HdC1].
  destruct Hspec as [He Hspec]. apply drr_erased_fields in He.
  destruct He as [Hv1 [_ [_ [HC1 [HL1 _]]]]].
  pose proof (pi2_view_attrs _ _ Hv1) as Ha1.
  destruct sel.
  - destruct Hspec as [Hne _].
    pose proof (DequeueFromClassicQueue_queues false s1) as Hqs.
    pose proof (DequeueFromClassicQueue_shape false s1) as Hsh.
    destruct (DequeueFromClassicQueue false s1) as [[qd d] s2].
    destruct qd as [qd|]; [eexists _, _; reflexivity|].
    destruct Hqs as [HL2 [pre [Hpre Hpre0]]]. destruct Hsh as [Hce _].
    destruct (classic_erased_drr _ _ Hce) as [D1 D2].
    apply classic_erased_fields in Hce. destruct Hce as [Hv2 _].
    pose proof (pi2_view_attrs _ _ Hv2) as Ha2.
    apply IH.
    + rewrite Ha2, Ha1. exact Hq.
    + rewrite Ha2, Ha1. exact Hw.
    + rewrite HL2, HL1. exact HI.
    + rewrite Ha2, Ha1. rewrite <- HC1, Hpre in HSC.
      apply Forall_app in HSC. exact (proj2 HSC).
    + rewrite Ha2, Ha1, HL2, HL1. exact HSL.
    + rewrite D1. exact HdL1.
    + rewrite D2. exact HdC1.
    + rewrite HL2, HL1. rewrite <- HC1, Hpre, length_app in Hlt.
      rewrite HC1 in Hpre0. specialize (Hpre0 Hne).
      destruct pre; [congruence|]. cbn [length] in Hlt. lia.
  - destruct Hspec as [Hne _].
    pose proof (DequeueFromL4sQueue_queues now false s1) as Hqs.
    pose proof (DequeueFromL4sQueue_shape now false s1) as Hsh.
    destruct (DequeueFromL4sQueue_ok now false s1) as [r Hr];
      [rewrite HL1; exact HI|].
    rewrite Hr in *. cbn [bind]. destruct r as [[qd d] s2].
    destruct qd as [qd|]; [eexists _, _; reflexivity|].
    destruct Hqs as [HC2 [pre [Hpre Hpre0]]]. destruct Hsh as [Hle _].
    destruct (l4s_erased_drr _ _ Hle) as [D1 D2].
    apply l4s_erased_fields in Hle. destruct Hle as [Hv2 _].
    pose proof (pi2_view_attrs _ _ Hv2) as Ha2.
    apply IH.
    + rewrite Ha2, Ha1. exact Hq.
    + rewrite Ha2, Ha1. exact Hw.
    + rewrite <- HL1, Hpre in HI. apply Forall_app in HI. exact (proj2 HI).
    + rewrite Ha2, Ha1, HC2, HC1. exact HSC.
    + rewrite Ha2, Ha1. rewrite <- HL1, Hpre in HSL.
      apply Forall_app in HSL. exact (proj2 HSL).
    + rewrite D1. exact HdL1.
    + rewrite D2. exact HdC1.
    + rewrite HC2, HC1. rewrite <- HL1, Hpre, length_app in Hlt.
      rewrite HL1 in Hpre0. specialize (Hpre0 Hne).
      destruct pre; [congruence|]. cbn [length] in Hlt. lia.
  - eexists _, _; reflexivity.
Qed.

Lemma DoDequeue_returns (now : Time) (s : DualPi2QueueDisc) :
  1 <= m_drrQuantum (attrs s) -> (1 <= m_schedulingWeight (attrs s))%Q ->
  Forall (fun x => IsL4s x = true) (l4sQ s) ->
  Forall (servable (attrs s)) (classicQ s) ->
  Forall (servable (attrs s)) (l4sQ s) ->
  0 <= m_llDeficit s -> 0 <= m_classicDeficit s ->
  exists r s', DoDequeue now s = Ok (r, s').
Proof.
  intros Hq Hw HI HSC HSL HdL HdC.
  unfold DoDequeue, DequeueFromL4sStagingQueue, DequeueFromClassicStagingQueue.
  destruct (m_l4sStagingQueue s); [|eexists _, _; reflexivity].
  destruct (m_classicStagingQueue s); [|eexists _, _; reflexivity].
  apply DoDequeue_loop_succeeds; try assumption. lia.
Qed.

Lemma DoDequeue_loop_deficits now fuel :
  forall s r s',
    DoDequeue_loop fuel now s = Ok (r, s') ->
    0 <= m_llDeficit s -> 0 <= m_classicDeficit s ->
    0 <= m_llDeficit s' /\ 0 <= m_classicDeficit s'.
Proof.
  induction fuel as [|fuel IH]; intros s r s'; cbn [DoDequeue_loop].
  - destruct (0 <? GetQueueSize s); [discriminate|].
    intros H; inversion H; subst. split; assumption.
  - destruct (0 <? GetQueueSize s);
      [|intros H; inversion H; subst; split; assumption].
    destruct (Scheduler (true, true) s) as [[sel s1]|f] eqn:ES; cbn [bind];
      [|discriminate].
    intros H HL HC. destruct (Scheduler_deficits _ _ _ _ ES HL HC) as [HL1 HC1].
    destruct sel.
    + pose proof (DequeueFromClassicQueue_shape false s1) as Hsh.
      destruct (DequeueFromClassicQueue false s1) as [[qd d] s2].
      destruct Hsh as [He _]. destruct (classic_erased_drr _ _ He) as [D1 D2].
      rewrite <- D1 in HL1. rewrite <- D2 in HC1.
      destruct qd; [inversion H; subst; split; assumption|].
      exact (IH _ _ _ H HL1 HC1).
    + pose proof (DequeueFromL4sQueue_shape now false s1) as Hsh.
      destruct (DequeueFromL4sQueue now false s1) as [[[qd d] s2]|f]; cbn [bind] in H;
        [|discriminate].
      destruct Hsh as [He _]. destruct (l4s_erased_drr _ _ He) as [D1 D2].
      rewrite <- D1 in HL1. rewrite <- D2 in HC1.
      destruct qd; [inversion H; subst; split; assumption|].
      exact (IH _ _ _ H HL1 HC1).
    + inversion H; subst. split; assumption.
Qed.

Lemma PendingDequeue_batch_deficits now passes :
  forall i left markedCount s s' n,
    PendingDequeue_batch passes now i left markedCount s = Ok (s', n) ->
    0 <= m_llDeficit s -> 0 <= m_classicDeficit s ->
    0 <= m_llDeficit s' /\ 0 <= m_classicDeficit s'.
Proof.
  induction passes as [|passes IH]; intros i left mc s s' n;
    cbn [PendingDequeue_batch].
  - intros H; inversion H; subst. split; assumption.
  - destruct (i <? 1000); cbn [assert bind]; [|discriminate].
    destruct (negb (fst (CanSchedule left s)) && negb (snd (CanSchedule left s)));
      [intros H; inversion H; subst; split; assumption|].
    destruct (Scheduler (CanSchedule left s) s) as [[sel s1]|f] eqn:ES; cbn [bind];
      [|discriminate].
    intros H HL HC. destruct (Scheduler_deficits _ _ _ _ ES HL HC) as [HL1 HC1].
    destruct sel.
    + pose proof (DequeueFromClassicQueue_shape false s1) as Hsh.
      destruct (DequeueFromClassicQueue false s1) as [[qd d] s2].
      destruct Hsh as [He _]. destruct (classic_erased_drr _ _ He) as [D1 D2].
      rewrite <- D1 in HL1. rewrite <- D2 in HC1.
      destruct qd as [qd|]; [|exact (IH _ _ _ _ _ _ H HL1 HC1)].
      destruct (u32 (GetSize qd + 38) <=? left); cbn [assert bind] in H;
        [|discriminate].
      exact (IH _ _ _ _ _ _ H HL1 HC1).
    + pose proof (DequeueFromL4sQueue_shape now false s1) as Hsh.
      destruct (DequeueFromL4sQueue now false s1) as [[[qd d] s2]|f]; cbn [bind] in H;
        [|discriminate].
      destruct Hsh as [He _]. destruct (l4s_erased_drr _ _ He) as [D1 D2].
      rewrite <- D1 in HL1. rewrite <- D2 in HC1.
      destruct qd as [qd|]; [|exact (IH _ _ _ _ _ _ H HL1 HC1)].
      destruct (u32 (GetSize qd + 38) <=? left); cbn [assert bind] in H;
        [|discriminate].
      exact (IH _ _ _ _ _ _ H HL1 HC1).
    + inversion H; subst. split; assumption.
Qed.

Lemma reachable_deficits s :
  reachable s -> 0 <= m_llDeficit s /\ 0 <= m_classicDeficit s.
Proof.
  induction 1 as [a c c' devMtu s _ H | s s' _ IH Hstep].
  - destruct (InitializeParams_queues _ _ _ _ H) as [_ [_ [_ [_ [HL [HC _]]]]]].
    rewrite HL, HC. split; lia.
  - destruct IH as [HL HC].
    destruct Hstep as [item s _ | now s r s' H | now st pb s s' _ H | now s s' H
                      | lim s _ | limit s _].
    + unfold DoEnqueue, InternalEnqueue. destruct (_ <? _); [split; assumption|].
      destruct (IsL4s item); cbn [GetInternalQueue]; destruct (_ <? _);
        split; assumption.
    + unfold DoDequeue, DequeueFromL4sStagingQueue, DequeueFromClassicStagingQueue in H.
      destruct (m_l4sStagingQueue s);
        [|inversion H; subst; split; assumption].
      destruct (m_classicStagingQueue s);
        [|inversion H; subst; split; assumption].
      exact (DoDequeue_loop_deficits _ _ _ _ _ H HL HC).
    + unfold PendingDequeueCallback in H.
      destruct (negb st); [inversion H; subst; split; assumption|].
      destruct (_ <? pb); [inversion H; subst; split; assumption|].
      destruct (PendingDequeue_batch 1001 now 0 pb 0 (refresh_samples now s))
        as [[s1 n]|f] eqn:EB; cbn [bind] in H; [|discriminate].
      assert (Hs' : s' = PendingDequeue_topup n s1).
      { destruct (n =? 0); [|destruct (Qltb 0 (m_pCL s1))]; cbn [assert bind] in H;
          try discriminate; inversion H; reflexivity. }
      subst s'. apply PendingDequeue_batch_deficits in EB; try assumption.
      unfold PendingDequeue_topup. destruct (_ <? _); exact EB.
    + apply DualPi2Update_queues, update_erased_fields in H.
      destruct H as [_ [_ [_ [_ [_ [D1 [D2 _]]]]]]]. rewrite D1, D2.
      split; assumption.
    + split; assumption.
    + split; assumption.
Qed.

(** [DoDequeue] (lines 737-815) cannot abort on a well-configured
    discipline.  In every state the discipline reaches, with a DRR quantum
    and a scheduling weight of at least 1 and queued packets that have
    bytes and whose size leaves the 32-bit deficit counters room, the call
    returns: the scheduler, called with both classes eligible, selects a
    class before its loop gives up (the deficit counters are never
    negative), and a packet of the L4S queue can always be marked (the
    queue holds L4S-classified packets only).  The pending-dequeue path
    has no such guarantee. *)
Theorem DoDequeue_succeeds (now : Time) (s : DualPi2QueueDisc) :
  reachable s ->
  1 <= m_drrQuantum (attrs s) -> (1 <= m_schedulingWeight (attrs s))%Q ->
  Forall (servable (attrs s)) (classicQ s) ->
  Forall (servable (attrs s)) (l4sQ s) ->
  exists r s', DoDequeue now s = Ok (r, s') /\ reachable s'.
Proof.
  intros Hr Hq Hw HSC HSL.
  destruct (reachable_deficits s Hr) as [HdL HdC].
  destruct (DoDequeue_returns now s Hq Hw (reachable_l4sQ_ok s Hr) HSC HSL HdL HdC)
    as [r [s' E]].
  exists r, s'. split; [exact E|].
  exact (reach_step s s' Hr (step_dequeue now s r s' E)).
Qed.

Lemma DoDequeue_succeeds_witness :
  exists r s', DoDequeue (MilliSeconds 2) ex_two_l4s = Ok (r, s') /\ reachable s'.
Proof.
  apply (DoDequeue_succeeds (MilliSeconds 2) ex_two_l4s).
  - exact reachable_two_l4s.
  - vm_compute. discriminate.
  - vm_compute. discriminate.
  - constructor.
  - repeat constructor; vm_compute; reflexivity.
Defined.

(** * The controller *)

Local Open Scope Q_scope.

Lemma GetSeconds_le a b : (a <= b)%Z -> GetSeconds a <= GetSeconds b.
Proof. intros H. unfold GetSeconds, Qle. simpl. lia. Qed.

Lemma GetSeconds_nonneg t : (0 <= t)%Z -> 0 <= GetSeconds t.
Proof. intros H. unfold GetSeconds, Qle. simpl. lia. Qed.

Lemma GetSeconds_nonpos t : (t <= 0)%Z -> GetSeconds t <= 0.
Proof. intros H. unfold GetSeconds, Qle. simpl. lia. Qed.

Lemma Laqm_le_1 a qDelay : Laqm a qDelay <= 1.
Proof.
  unfold Laqm. destruct (m_disableLaqm a); [lra|].
  destruct (m_minTh a + m_range a <=? qDelay)%Z eqn:E1; [lra|].
  destruct (m_minTh a <? qDelay)%Z eqn:E2; [|lra].
  apply Z.leb_gt in E1. apply Z.ltb_lt in E2.
  apply Qle_shift_div_r; [apply GetSeconds_pos; lia|].
  rewrite Qmult_1_l. apply GetSeconds_le. lia.
Qed.

(** [Laqm] (lines 817-840) is a ramp: whatever the thresholds are, its value
    lies between 0 and 1 and does not decrease when the queue delay grows. *)
Theorem Laqm_ramp (a : Attributes) (d1 d2 : Time) :
  (d1 <= d2)%Z ->
  0 <= Laqm a d1 /\ Laqm a d1 <= Laqm a d2 /\ Laqm a d2 <= 1.
Proof.
  intros Hd. split; [apply Laqm_nonneg|]. split; [|apply Laqm_le_1].
  pose proof (Laqm_nonneg a d2) as H0. pose proof (Laqm_le_1 a d1) as H1.
  unfold Laqm in *. destruct (m_disableLaqm a); [lra|].
  destruct (m_minTh a + m_range a <=? d2)%Z eqn:E2; [exact H1|].
  destruct (m_minTh a + m_range a <=? d1)%Z eqn:E1;
    [apply Z.leb_le in E1; apply Z.leb_gt in E2; lia|].
  destruct (m_minTh a <? d1)%Z eqn:F1.
  - destruct (m_minTh a <? d2)%Z eqn:F2;
      [|apply Z.ltb_lt in F1; apply Z.ltb_ge in F2; lia].
    apply Z.leb_gt in E2. apply Z.ltb_lt in F1.
    unfold Qdiv. apply Qmult_le_compat_r; [apply GetSeconds_le; lia|].
    apply Qinv_le_0_compat, Qlt_le_weak, GetSeconds_pos. lia.
  - exact H0.
Qed.

Lemma Laqm_ramp_witness :
  0 <= Laqm default_attrs (MicroSeconds 900) /\
  Laqm default_attrs (MicroSeconds 900) <= Laqm default_attrs (MicroSeconds 1100) /\
  Laqm default_attrs (MicroSeconds 1100) <= 1.
Proof.
  apply (Laqm_ramp default_attrs (MicroSeconds 900) (MicroSeconds 1100)).
  vm_compute. discriminate.
Defined.

(** [DualPi2Update] (lines 421-472) aborts in one case only, the Wi-Fi
    latency estimator switched on with no aggregation buffer limit set;
    otherwise it returns, and it has then written [m_baseProb], [m_pCL],
    [m_pC] and [m_prevQ] and nothing else: queues, staging queues,
    counters, DRR state, samples and drop log are as they were. *)
Theorem DualPi2Update_outcome (now : Time) (s : DualPi2QueueDisc) :
  match DualPi2Update now s with
  | Ok s' =>
      update_erased s' = update_erased s /\
      (m_enableWifiClassicLatencyEstimator (attrs s) = true ->
       m_aggBufferLimit (attrs s) <> 0%Z)
  | Fatal f =>
      f = AggBufferLimitUnset /\
      m_enableWifiClassicLatencyEstimator (attrs s) = true /\
      m_aggBufferLimit (attrs s) = 0%Z
  end.
Proof.
  unfold DualPi2Update.
  destruct (m_enableWifiClassicLatencyEstimator (attrs s)).
  - destruct (Z.eqb_spec (m_aggBufferLimit (attrs s)) 0) as [E|E];
      cbn [negb assert bind].
    + repeat split. exact E.
    + split; [reflexivity|]. intros _. exact E.
  - cbn [bind]. split; [reflexivity | discriminate].
Qed.

(** The direction of the PI2 step ([DualPi2Update], lines 462-470; the new
    delay sample is what the call leaves in [m_prevQ]).  With gains that are
    not negative and a base probability in [0, 1], a delay sample at or
    above the target that has not fallen since the last update never lowers
    the base probability, and a sample at or below the target that has not
    risen never raises it. *)
Theorem DualPi2Update_direction (now : Time) (s s' : DualPi2QueueDisc) :
  DualPi2Update now s = Ok s' ->
  0 <= m_alpha (attrs s) -> 0 <= m_beta (attrs s) ->
  0 <= m_baseProb s <= 1 ->
  ((m_target (attrs s) <= m_prevQ s')%Z -> (m_prevQ s <= m_prevQ s')%Z ->
   m_baseProb s <= m_baseProb s') /\
  ((m_prevQ s' <= m_target (attrs s))%Z -> (m_prevQ s' <= m_prevQ s)%Z ->
   m_baseProb s' <= m_baseProb s).
Proof.
  unfold DualPi2Update. intros H Ha Hb Hp.
  match type of H with
  | bind ?c _ = _ => destruct c as [cQ|f]; cbn [bind] in H; [|discriminate]
  end.
  inversion H; subst; clear H. cbn. split; intros H1 H2.
  - match type of H1 with
    | (_ <= ?q)%Z =>
        assert (G1 : 0 <= GetSeconds (q - m_target (attrs s))%Z)
          by (apply GetSeconds_nonneg; lia);
        assert (G2 : 0 <= GetSeconds (q - m_prevQ s)%Z)
          by (apply GetSeconds_nonneg; lia)
    end.
    apply std_min_glb; [|lra].
    eapply Qle_trans; [|apply std_max_ge_l].
    match goal with
    | |- _ <= _ + ?al * ?x + ?be * ?y =>
        assert (0 <= al * x) by (apply Qmult_le_0_compat; assumption);
        assert (0 <= be * y) by (apply Qmult_le_0_compat; assumption)
    end.
    lra.
  - match type of H1 with
    | (?q <= _)%Z =>
        assert (G1 : GetSeconds (q - m_target (attrs s))%Z <= 0)
          by (apply GetSeconds_nonpos; lia);
        assert (G2 : GetSeconds (q - m_prevQ s)%Z <= 0)
          by (apply GetSeconds_nonpos; lia)
    end.
    eapply Qle_trans; [apply std_min_le_l|].
    apply std_max_lub; [|lra].
    match goal with
    | |- _ + ?al * ?x + ?be * ?y <= _ =>
        assert (al * x <= 0) by nra;
        assert (be * y <= 0) by nra
    end.
    lra.
Qed.

Lemma DualPi2Update_direction_witness :
  m_baseProb (after_enqueue (ex_packet 1500 0 0)%Z ex_init) <= m_baseProb ex_overload.
Proof.
  apply (proj1 (DualPi2Update_direction 1000000000%Z
                  (after_enqueue (ex_packet 1500 0 0)%Z ex_init) ex_overload
                  eq_refl
                  ltac:(vm_compute; discriminate) ltac:(vm_compute; discriminate)
                  ltac:(split; vm_compute; discriminate)));
    vm_compute; discriminate.
Defined.

(** [InitializeParams] (lines 397-419) aborts exactly when the MTU it
    settles on, the attribute or else the device's, is below 68.  When it
    returns, the MTU is stored, the three probabilities and [m_prevQ] are
    zero, [m_thLen] is 1, [m_pLmax] is 1 and [m_pCmax] is in [0, 1]: it is
    1 for a coupling factor of magnitude 1 or less (zero included) and
    below 1 for a larger one; the base probability and the two counters
    are not reset, and the queues are left alone. *)
Theorem InitializeParams_outcome (devMtu : option Z) (s : DualPi2QueueDisc) :
  let mtu :=
    if (m_mtu (attrs s) =? 0)%Z
    then match devMtu with Some m => m | None => m_mtu (attrs s) end
    else m_mtu (attrs s) in
  let k := m_k (attrs s) in
  match InitializeParams devMtu s with
  | Ok s' =>
      (68 <= mtu)%Z /\ attrs s' = with_mtu mtu (attrs s) /\
      m_pCL s' = 0 /\ m_pC s' = 0 /\ m_pL s' = 0 /\ m_prevQ s' = 0%Z /\
      m_thLen s' = 1%Z /\ m_pLmax s' = 1 /\
      0 <= m_pCmax s' <= 1 /\
      (k * k <= 1 -> m_pCmax s' == 1) /\
      (1 < k * k -> m_pCmax s' < 1) /\
      m_baseProb s' = m_baseProb s /\
      m_l4sCount s' = m_l4sCount s /\ m_classicCount s' = m_classicCount s /\
      classicQ s' = classicQ s /\ l4sQ s' = l4sQ s
  | Fatal f => f = MtuTooSmall /\ (mtu < 68)%Z
  end.
Proof.
  intros mtu k. unfold InitializeParams. fold mtu.
  destruct (Z.ltb_spec mtu 68) as [E|E]; cbn [negb assert bind].
  - split; [reflexivity | exact E].
  - cbn. fold k. split; [exact E|]. repeat (split; [reflexivity|]).
    assert (Hsq : 0 <= k * k) by nra.
    split; [|split; [|split; [|repeat split]]].
    + destruct (Qeq_bool (k * k) 0) eqn:Ek; [lra|].
      apply Qeq_bool_neq in Ek.
      assert (Hk : 0 < k * k) by lra.
      split; [|apply std_min_le_r].
      unfold std_min. destruct (Qltb 1 (1 / (k * k))); [lra|].
      apply Qlt_le_weak, Qlt_shift_div_l; [exact Hk | lra].
    + intros Hk. destruct (Qeq_bool (k * k) 0) eqn:Ek; [reflexivity|].
      apply Qeq_bool_neq in Ek.
      unfold std_min. destruct (Qltb 1 (1 / (k * k))) eqn:El; [reflexivity|].
      apply Qltb_ge in El.
      assert (1 <= 1 / (k * k)) by (apply Qle_shift_div_l; lra).
      lra.
    + intros Hk. destruct (Qeq_bool (k * k) 0) eqn:Ek.
      * apply Qeq_bool_iff in Ek. lra.
      * assert (Hlt : 1 / (k * k) < 1) by (apply Qlt_shift_div_r; lra).
        unfold std_min. destruct (Qltb 1 (1 / (k * k))) eqn:El; [|exact Hlt].
        apply Qltb_lt in El. lra.
Qed.

Local Open Scope Z_scope.

(** * Configuration, peeking and scheduling *)

(** [CheckConfig] (lines 878-931) accepts a set-up exactly when it has no
    classes and no packet filters and either no internal queue, in which
    case two queues of [m_queueLimit] bytes are created, or exactly two
    internal queues whose capacities are both at least [m_queueLimit]; only
    the value of a capacity is compared, not its unit.  An accepted set-up
    is accepted again and left as it is. *)
Theorem CheckConfig_accepts (queueLimit : Z) (c : QueueDiscSetup) :
  (fst (CheckConfig queueLimit c) = true <->
   GetNQueueDiscClasses c = 0%nat /\ GetNPacketFilters c = 0%nat /\
   (internalQueues c = [] \/
    exists q0 q1, internalQueues c = [q0; q1] /\
                  queueLimit <= GetValue q0 /\ queueLimit <= GetValue q1)) /\
  (fst (CheckConfig queueLimit c) = true ->
   internalQueues c = [] ->
   internalQueues (snd (CheckConfig queueLimit c))
   = [mkQueueSize BYTES queueLimit; mkQueueSize BYTES queueLimit]) /\
  (fst (CheckConfig queueLimit c) = true ->
   internalQueues c <> [] -> snd (CheckConfig queueLimit c) = c) /\
  (fst (CheckConfig queueLimit c) = true ->
   CheckConfig queueLimit (snd (CheckConfig queueLimit c))
   = (true, snd (CheckConfig queueLimit c))).
Proof.
  destruct c as [nc nf qs]. unfold CheckConfig, GetNInternalQueues, AddInternalQueue,
    internal_max_value. cbn [GetNQueueDiscClasses GetNPacketFilters internalQueues].
  destruct nc as [|nc]; cbn [Nat.ltb Nat.leb fst snd].
  2:{ split; [split; [discriminate | intros [H _]; discriminate]|].
      repeat split; discriminate. }
  destruct nf as [|nf]; cbn [Nat.ltb Nat.leb fst snd].
  2:{ split; [split; [discriminate | intros [_ [H _]]; discriminate]|].
      repeat split; discriminate. }
  destruct qs as [|q0 [|q1 [|q2 qs]]]; cbn.
  - rewrite Z.ltb_irrefl. cbn. rewrite Z.ltb_irrefl. cbn.
    split; [split; [intros _; repeat split; left; reflexivity | reflexivity]|].
    split; [reflexivity|]. split; [intros _ C; contradiction|]. reflexivity.
  - split; [split; [discriminate|]|repeat split; discriminate].
    intros [_ [_ [C|[a [b [C _]]]]]]; discriminate.
  - destruct (Z.ltb_spec (GetValue q0) queueLimit) as [E0|E0]; cbn.
    + split; [split; [discriminate|]|repeat split; discriminate].
      intros [_ [_ [C|[a [b [C [H0 _]]]]]]]; [discriminate|].
      inversion C; subst. lia.
    + destruct (Z.ltb_spec (GetValue q1) queueLimit) as [E1|E1]; cbn.
      * split; [split; [discriminate|]|repeat split; discriminate].
        intros [_ [_ [C|[a [b [C [_ H1]]]]]]]; [discriminate|].
        inversion C; subst. lia.
      * split.
        { split; [|reflexivity]. intros _. repeat split. right.
          exists q0, q1. repeat split; assumption. }
        split; [discriminate|]. split; [reflexivity|]. intros _.
        destruct (Z.ltb_spec (GetValue q0) queueLimit); [lia|].
        destruct (Z.ltb_spec (GetValue q1) queueLimit); [lia|]. reflexivity.
  - split; [split; [discriminate|]|repeat split; discriminate].
    intros [_ [_ [C|[a [b [C _]]]]]]; discriminate.
Qed.

Lemma GetQueueSize_empty s :
  classicQ s = [] -> l4sQ s = [] -> GetQueueSize s = 0.
Proof.
  intros HC HL. unfold GetQueueSize. cbn [GetInternalQueue]. rewrite HC, HL.
  reflexivity.
Qed.

(** [DoPeek] (lines 855-876) looks at the internal queues only, Classic
    first: it answers with the head of the Classic queue, or else with the
    head of the L4S queue, and has nothing to show exactly when both are
    empty.  Staged packets are not seen: with both internal queues empty
    [DoPeek] shows nothing while [DoDequeue] still hands out what is staged;
    with nothing staged either, [DoDequeue] hands out nothing and leaves the
    discipline as it is. *)
Theorem DoPeek_internal_queues_only (now : Time) (s : DualPi2QueueDisc) :
  (DoPeek s = None <-> classicQ s = [] /\ l4sQ s = []) /\
  (forall item rest, classicQ s = item :: rest -> DoPeek s = Some item) /\
  (classicQ s = [] -> DoPeek s = hd_error (l4sQ s)) /\
  (DoPeek s = None ->
   match m_l4sStagingQueue s, m_classicStagingQueue s with
   | item :: rest, _ =>
       DoDequeue now s = Ok (Some item, set_m_l4sStagingQueue rest s)
   | [], item :: rest =>
       DoDequeue now s = Ok (Some item, set_m_classicStagingQueue rest s)
   | [], [] => DoDequeue now s = Ok (None, s)
   end).
Proof.
  unfold DoPeek, Peek. cbn [GetInternalQueue].
  split; [|split; [|split]].
  - destruct (classicQ s) as [|x q]; destruct (l4sQ s) as [|y r]; cbn;
      split; try discriminate; try (intros [H1 H2]; discriminate); auto.
  - intros item rest ->. reflexivity.
  - intros ->. reflexivity.
  - intros H.
    assert (HE : classicQ s = [] /\ l4sQ s = []).
    { destruct (classicQ s); [|discriminate]. destruct (l4sQ s); [|discriminate].
      split; reflexivity. }
    destruct HE as [HC HL].
    unfold DoDequeue, DequeueFromL4sStagingQueue, DequeueFromClassicStagingQueue.
    destruct (m_l4sStagingQueue s); [|reflexivity].
    destruct (m_classicStagingQueue s); [|reflexivity].
    cbn [DoDequeue_loop]. rewrite (GetQueueSize_empty s HC HL). reflexivity.
Qed.

(** [Scheduler] (lines 553-641) called on the eligibility that
    [CanSchedule] (lines 518-551) computed for a byte limit never answers
    NONE.  When [CanSchedule] finds no class eligible, which includes the
    empty discipline, the call trips the assertion at the head of
    [Scheduler]; that is the only way NONE could have been reached, and it
    is why the batch loop tests the eligibility before it calls.  Otherwise
    the class selected is an eligible one: its queue has a head packet
    which, framed with its 38 bytes, fits the limit.  The scheduler writes
    the DRR members only, and its only other abort is the error at the end
    of its loop. *)
Theorem Scheduler_after_CanSchedule (byteLimit : Z) (s : DualPi2QueueDisc) :
  (CanSchedule byteLimit s = (false, false) <->
   Scheduler (CanSchedule byteLimit s) s = Fatal NeitherEligible) /\
  match Scheduler (CanSchedule byteLimit s) s with
  | Ok (sel, s') =>
      drr_erased s' = drr_erased s /\
      match sel with
      | L4S =>
          exists item rest,
            l4sQ s = item :: rest /\ 0 < u32 (GetSize item + 38) <= byteLimit
      | CLASSIC =>
          exists item rest,
            classicQ s = item :: rest /\ 0 < u32 (GetSize item + 38) <= byteLimit
      | NONE => False
      end
  | Fatal f => f = NeitherEligible \/ f = DrrLogicError
  end.
Proof.
  assert (Hnone : CanSchedule byteLimit s = (false, false) <->
                  Scheduler (CanSchedule byteLimit s) s = Fatal NeitherEligible).
  { split.
    - intros E. rewrite E. reflexivity.
    - intros E. destruct (CanSchedule byteLimit s) as [[|] [|]] eqn:EC;
        try reflexivity; exfalso;
        [exact (Scheduler_asserts (true, true) s eq_refl E)
        |exact (Scheduler_asserts (true, false) s eq_refl E)
        |exact (Scheduler_asserts (false, true) s eq_refl E)]. }
  split; [exact Hnone|].
  pose proof (Scheduler_spec (CanSchedule byteLimit s) s) as H.
  pose proof (Scheduler_never_out_of_fuel (CanSchedule byteLimit s) s) as Hf.
  destruct (Scheduler (CanSchedule byteLimit s) s) as [[sel s']|f] eqn:ES.
  2:{ destruct H as [H|[H|H]]; [left | right |]; try exact H.
      exfalso. apply Hf. rewrite H. reflexivity. }
  destruct H as [He Hsel]. split; [exact He|].
  assert (Hfit : forall q,
             negb (match Peek q with
                   | Some item => u32 (GetSize item + 38)
                   | None => 0
                   end =? 0)
             && (match Peek q with
                 | Some item => u32 (GetSize item + 38)
                 | None => 0
                 end <=? byteLimit) = true ->
             exists item rest,
               q = item :: rest /\ 0 < u32 (GetSize item + 38) <= byteLimit).
  { intros q Hq. destruct q as [|item rest]; [discriminate Hq|].
    exists item, rest. split; [reflexivity|]. cbn [Peek hd_error] in Hq.
    apply andb_true_iff in Hq. destruct Hq as [H1 H2].
    apply negb_true_iff, Z.eqb_neq in H1. apply Z.leb_le in H2.
    pose proof (u32_range (GetSize item + 38)) as Hr. unfold is_u32 in Hr. lia. }
  unfold CanSchedule in Hsel. cbn [GetInternalQueue] in Hsel.
  destruct sel.
  - destruct Hsel as [_ Hsel].
    destruct (disc_GetNPackets s =? 0); [discriminate Hsel|].
    cbn [fst] in Hsel. exact (Hfit _ Hsel).
  - destruct Hsel as [_ Hsel].
    destruct (disc_GetNPackets s =? 0); [discriminate Hsel|].
    cbn [snd] in Hsel. exact (Hfit _ Hsel).
  - destruct Hsel as [_ Hn]. apply Z.eqb_eq in Hn.
    unfold CanSchedule in ES. rewrite Hn in ES. discriminate ES.
Qed.

(** Called with both classes eligible, as [DoDequeue] calls it,
    [Scheduler] (lines 553-641) selects a class whenever there is a packet
    with bytes at the head of a queue: a quantum and a weight of at least
    1, head-of-line sizes that leave the 32-bit deficit counters room and
    deficit counters that are not negative are enough for the loop to reach
    a selection before it gives up. *)
Theorem Scheduler_serves_when_both_eligible (s : DualPi2QueueDisc) :
  let a := attrs s in
  let l := hol_size (l4sQ s) in
  let c := hol_size (classicQ s) in
  disc_GetNPackets s <> 0 ->
  1 <= m_drrQuantum a -> (1 <= m_schedulingWeight a)%Q ->
  0 <= l -> 0 <= c -> l <> 0 \/ c <> 0 ->
  c + m_drrQuantum a < two32 - 1000 ->
  (inject_Z l + inject_Z (m_drrQuantum a) * m_schedulingWeight a
   < inject_Z (two32 - 1000))%Q ->
  0 <= m_llDeficit s -> 0 <= m_classicDeficit s ->
  exists sel s',
    Scheduler (true, true) s = Ok (sel, s') /\ (sel = L4S \/ sel = CLASSIC) /\
    drr_erased s' = drr_erased s.
Proof.
  intros a l c Hn Hq Hw Hl Hc Hb Hcr Hlr HdL HdC.
  destruct (Scheduler_selects_when_both_eligible s Hn Hq Hw Hl Hc Hb Hcr Hlr HdL HdC)
    as [sel [s' [E Hsel]]].
  exists sel, s'. split; [exact E|]. split; [exact Hsel|].
  pose proof (Scheduler_spec (true, true) s) as H. rewrite E in H. exact (proj1 H).
Qed.

Lemma Scheduler_serves_when_both_eligible_witness :
  exists sel s',
    Scheduler (true, true) ex_two_l4s = Ok (sel, s') /\ (sel = L4S \/ sel = CLASSIC) /\
    drr_erased s' = drr_erased ex_two_l4s.
Proof.
  apply (Scheduler_serves_when_both_eligible ex_two_l4s);
    try (vm_compute; (reflexivity || discriminate)).
  left. vm_compute. discriminate.
Defined.

Lemma CanSchedule_zero s : CanSchedule 0 s = (false, false).
Proof.
  unfold CanSchedule. destruct (disc_GetNPackets s =? 0); [reflexivity|].
  assert (H : forall x, negb (u32 x =? 0) && (u32 x <=? 0) = false).
  { intros x. pose proof (u32_range x) as Hr. unfold is_u32 in Hr.
    destruct (Z.eqb_spec (u32 x) 0) as [E|E]; [reflexivity|]. cbn [negb andb].
    apply Z.leb_gt. lia. }
  f_equal.
  - destruct (Peek (GetInternalQueue CLASSIC s)); [apply H | reflexivity].
  - destruct (Peek (GetInternalQueue L4S s)); [apply H | reflexivity].
Qed.

Lemma PendingDequeue_batch_idle passes now i left markedCount s :
  (i <? 1000) = true -> CanSchedule left s = (false, false) ->
  PendingDequeue_batch (S passes) now i left markedCount s = Ok (s, markedCount).
Proof.
  intros Hi He. cbn [PendingDequeue_batch]. rewrite Hi. cbn [assert bind].
  rewrite He. reflexivity.
Qed.

(** A pending-dequeue notification for zero bytes, with the device queue
    stopped ([PendingDequeueCallback], lines 197-348), always returns and
    stages nothing: no class is eligible for zero bytes, so no packet is
    dequeued or dropped.  The samples are refreshed, and the top-up still
    runs with a mark count of zero, so ECT(1) packets already staged may get
    marked, as many as there are packets in the L4S queue. *)
Theorem PendingDequeueCallback_zero_bytes (now : Time) (s : DualPi2QueueDisc) :
  PendingDequeueCallback now true 0 s
  = Ok (PendingDequeue_topup 0 (refresh_samples now s)) /\
  classicQ (PendingDequeue_topup 0 (refresh_samples now s)) = classicQ s /\
  l4sQ (PendingDequeue_topup 0 (refresh_samples now s)) = l4sQ s /\
  dropLog (PendingDequeue_topup 0 (refresh_samples now s)) = dropLog s /\
  m_classicStagingQueue (PendingDequeue_topup 0 (refresh_samples now s))
  = m_classicStagingQueue s /\
  m_l4sStagingQueue (PendingDequeue_topup 0 (refresh_samples now s))
  = (if 0 <? GetNPackets (l4sQ s)
     then TopUpWalk (u32 (GetNPackets (l4sQ s) - 0)) (m_l4sStagingQueue s)
     else m_l4sStagingQueue s).
Proof.
  split.
  - unfold PendingDequeueCallback. cbn [negb].
    assert (E : (queueDiscPending (refresh_samples now s) <? 0) = false).
    { apply Z.ltb_ge. unfold queueDiscPending.
      pose proof (u32_range (disc_GetNBytes (refresh_samples now s)
                             + u32 (38 * disc_GetNPackets (refresh_samples now s)))) as H.
      unfold is_u32 in H. lia. }
    rewrite E.
    rewrite (PendingDequeue_batch_idle 1000 now 0 0 0 (refresh_samples now s)
               eq_refl (CanSchedule_zero _)).
    reflexivity.
  - unfold PendingDequeue_topup. cbn [GetInternalQueue refresh_samples l4sQ
      set_m_cLatencySample set_m_lLatencySample set_m_cBytesSample].
    destruct (0 <? GetNPackets (l4sQ s)); repeat split.
Qed.

(** Lowering the limit below the backlog with [SetQueueLimit] (lines
    176-181) drops nothing that is queued, and from then on [DoEnqueue]
    (lines 367-395) refuses every packet with a forced drop, whatever its
    class, as long as the bytes queued and the packet together stay within
    32 bits. *)
Theorem SetQueueLimit_below_backlog (lim : Z) (item : QueueDiscItem)
    (s : DualPi2QueueDisc) :
  lim < GetQueueSize s -> 0 <= GetSize item ->
  GetQueueSize s + GetSize item < two32 ->
  classicQ (SetQueueLimit lim s) = classicQ s /\
  l4sQ (SetQueueLimit lim s) = l4sQ s /\
  DoEnqueue item (SetQueueLimit lim s)
  = (false, DropBeforeEnqueue item FORCED_DROP (SetQueueLimit lim s)).
Proof.
  intros Hlim Hsz Hfit. split; [reflexivity|]. split; [reflexivity|].
  unfold DoEnqueue.
  change (GetQueueSize (SetQueueLimit lim s)) with (GetQueueSize s).
  change (m_queueLimit (attrs (SetQueueLimit lim s))) with lim.
  pose proof (u32_range (GetNBytes (GetInternalQueue CLASSIC s)
                         + GetNBytes (GetInternalQueue L4S s))) as Hr.
  fold (GetQueueSize s) in Hr. unfold is_u32 in Hr.
  rewrite u32_small by (unfold is_u32; lia).
  replace (lim <? GetQueueSize s + GetSize item) with true
    by (symmetry; apply Z.ltb_lt; lia).
  reflexivity.
Qed.

Lemma SetQueueLimit_below_backlog_witness :
  classicQ (SetQueueLimit 1000 ex_two_l4s) = classicQ ex_two_l4s /\
  l4sQ (SetQueueLimit 1000 ex_two_l4s) = l4sQ ex_two_l4s /\
  DoEnqueue (ex_packet 100 7 2) (SetQueueLimit 1000 ex_two_l4s)
  = (false, DropBeforeEnqueue (ex_packet 100 7 2) FORCED_DROP
              (SetQueueLimit 1000 ex_two_l4s)).
Proof.
  apply (SetQueueLimit_below_backlog 1000 (ex_packet 100 7 2) ex_two_l4s);
    vm_compute; (reflexivity || discriminate).
Defined.

(** With the Wi-Fi latency estimator on, [DualPi2Update] (lines 421-472)
    needs [SetAggregationBufferLimit] (lines 183-188) to have been called
    with a limit other than zero: after such a call the update returns, and
    after a call with zero it aborts.  The call changes nothing but that
    attribute. *)
Theorem SetAggregationBufferLimit_enables_update (now : Time) (limit : Z)
    (s : DualPi2QueueDisc) :
  m_enableWifiClassicLatencyEstimator (attrs s) = true ->
  attrs (SetAggregationBufferLimit limit s) = with_aggBufferLimit limit (attrs s) /\
  set_attrs (attrs s) (SetAggregationBufferLimit limit s) = s /\
  (limit <> 0 -> exists s', DualPi2Update now (SetAggregationBufferLimit limit s) = Ok s') /\
  (limit = 0 ->
   DualPi2Update now (SetAggregationBufferLimit limit s) = Fatal AggBufferLimitUnset).
Proof.
  intros He. split; [reflexivity|]. split; [destruct s; reflexivity|].
  unfold DualPi2Update.
  change (m_enableWifiClassicLatencyEstimator (attrs (SetAggregationBufferLimit limit s)))
    with (m_enableWifiClassicLatencyEstimator (attrs s)).
  change (m_aggBufferLimit (attrs (SetAggregationBufferLimit limit s))) with limit.
  rewrite He. split.
  - intros Hl. apply Z.eqb_neq in Hl. rewrite Hl. cbn [negb assert bind].
    eexists. reflexivity.
  - intros ->. reflexivity.
Qed.

Lemma SetAggregationBufferLimit_enables_update_witness :
  exists s', DualPi2Update (MilliSeconds 30) (SetAggregationBufferLimit 4096 ex_wifi)
             = Ok s'.
Proof.
  apply (proj1 (proj2 (proj2 (SetAggregationBufferLimit_enables_update
                                (MilliSeconds 30) 4096 ex_wifi eq_refl)))).
  discriminate.
Defined.

(** * The two ends of the load range *)

Lemma DequeueFromClassicQueue_loop_overload q :
  forall dropped qdItem s,
    Qle_bool (m_pCmax s) (m_pC s) = true ->
    fst (fst (DequeueFromClassicQueue_loop dropped qdItem q s)) = None.
Proof.
  induction q as [|next q' IH]; intros dropped qdItem s Ho;
    rewrite DequeueFromClassicQueue_loop_eq; cbv zeta;
    destruct (Recur (m_classicCount s) (m_pC s)) as [fire count];
    cbn [m_pCmax m_pC set_m_classicCount]; rewrite Ho, orb_true_r.
  - reflexivity.
  - apply IH. exact Ho.
Qed.

(** Once [m_pC] has reached [m_pCmax], a single call of
    [DequeueFromClassicQueue] (lines 707-735) that gets past the two-MTU
    test empties the Classic queue: every packet in it is dropped and logged
    as UNFORCED_CLASSIC_DROP, in queue order, and no packet is handed
    out. *)
Theorem Classic_overload_flushes_queue (dropped : bool) (s : DualPi2QueueDisc) :
  (m_pCmax s <= m_pC s)%Q ->
  u32 (2 * m_mtu (attrs s)) <= GetNBytes (tl (classicQ s)) ->
  classicQ s <> [] ->
  exists s',
    DequeueFromClassicQueue dropped s = (None, true, s') /\
    classicQ s' = [] /\
    dropLog s' = dropLog s ++ drops_of UNFORCED_CLASSIC_DROP (classicQ s) /\
    classic_erased s' = classic_erased s.
Proof.
  intros Ho H2 Hne. apply Qle_bool_iff in Ho.
  pose proof (DequeueFromClassicQueue_shape dropped s) as Hs.
  assert (Hn : fst (fst (DequeueFromClassicQueue dropped s)) = None).
  { unfold DequeueFromClassicQueue. cbn [GetInternalQueue SetInternalQueue].
    destruct (classicQ s) as [|x q]; [contradiction|]. cbn [Dequeue tl] in *.
    cbn [classicQ set_classicQ attrs].
    replace (GetNBytes q <? u32 (2 * m_mtu (attrs s))) with false
      by (symmetry; apply Z.ltb_ge; exact H2).
    apply DequeueFromClassicQueue_loop_overload. exact Ho. }
  destruct (DequeueFromClassicQueue dropped s) as [[r d] s']. cbn [fst] in Hn.
  subst r. destruct Hs as [He [gone [Hd [Hf [_ [Hq Hq']]]]]].
  exists s'. subst gone.
  assert (Hd' : d = true).
  { rewrite Hf. destruct (classicQ s); [contradiction|]. cbn. apply orb_true_r. }
  rewrite Hd'. repeat split; assumption.
Qed.

Lemma Classic_overload_flushes_queue_witness :
  exists s',
    DequeueFromClassicQueue false ex_three_classic = (None, true, s') /\
    classicQ s' = [] /\
    dropLog s' = dropLog ex_three_classic
                 ++ drops_of UNFORCED_CLASSIC_DROP (classicQ ex_three_classic) /\
    classic_erased s' = classic_erased ex_three_classic.
Proof.
  apply (Classic_overload_flushes_queue false ex_three_classic);
    vm_compute; discriminate.
Defined.

Local Open Scope Q_scope.

(** An uncongested discipline passes packets through untouched.  With
    [m_pC] at zero (and [m_pCmax] above it) [DequeueFromClassicQueue] (lines
    707-735) hands out the head of the Classic queue and drops nothing; with
    [m_pCL] at zero (below [m_pLmax]) and the head of the L4S queue not
    delayed beyond [m_minTh] (and a ramp of positive width),
    [DequeueFromL4sQueue] (lines 643-705) hands
    out the head of the L4S queue, unmarked, and drops nothing.  The
    counters only need to be at most 1. *)
Theorem uncongested_passes_through (now : Time) (flag : bool) (s : DualPi2QueueDisc)
    (item : QueueDiscItem) (rest : list QueueDiscItem) :
  (classicQ s = item :: rest ->
   m_pC s == 0 -> 0 < m_pCmax s -> m_classicCount s <= 1 ->
   exists s',
     DequeueFromClassicQueue flag s = (Some item, flag, s') /\
     classicQ s' = rest /\ dropLog s' = dropLog s) /\
  (l4sQ s = item :: rest ->
   m_pCL s == 0 -> 0 < m_pLmax s -> m_l4sCount s <= 1 ->
   (now - GetTimeStamp item <= m_minTh (attrs s))%Z -> (0 < m_range (attrs s))%Z ->
   exists s',
     DequeueFromL4sQueue now flag s = Ok (Some item, flag, s') /\
     l4sQ s' = rest /\ dropLog s' = dropLog s /\ m_pL s' == 0).
Proof.
  split.
  - intros HQ HpC Hmax Hcnt. unfold DequeueFromClassicQueue.
    cbn [GetInternalQueue SetInternalQueue]. rewrite HQ. cbn [Dequeue].
    destruct (_ <? _)%Z; [eexists; repeat split|].
    rewrite DequeueFromClassicQueue_loop_eq. cbv zeta.
    cbn [m_classicCount m_pC m_pCmax set_classicQ set_m_classicCount].
    rewrite Recur_holds by lra. cbn [orb].
    replace (Qle_bool (m_pCmax s) (m_pC s)) with false.
    + destruct rest; eexists; repeat split.
    + symmetry. destruct (Qle_bool (m_pCmax s) (m_pC s)) eqn:E; [|reflexivity].
      apply Qle_bool_iff in E. lra.
  - intros HQ HpCL Hmax Hcnt Hdelay Hrange. unfold DequeueFromL4sQueue.
    cbn [GetInternalQueue SetInternalQueue]. rewrite HQ.
    rewrite DequeueFromL4sQueue_loop_eq. cbv zeta.
    cbn [m_pCL m_pLmax m_thLen m_l4sCount attrs set_l4sQ set_m_pL set_m_l4sCount
         GetInternalQueue l4sQ].
    replace (Qltb (m_pCL s) (m_pLmax s)) with true
      by (symmetry; apply Qltb_lt; lra).
    assert (HL : Laqm (attrs s) (now - GetTimeStamp item)%Z == 0).
    { unfold Laqm. destruct (m_disableLaqm (attrs s)); [reflexivity|].
      destruct (Z.leb_spec (m_minTh (attrs s) + m_range (attrs s))%Z
                           (now - GetTimeStamp item)%Z) as [E1|E1].
      - destruct (Z.ltb_spec (m_minTh (attrs s)) (now - GetTimeStamp item)%Z);
          [lia|].
        exfalso. lia.
      - destruct (Z.ltb_spec (m_minTh (attrs s)) (now - GetTimeStamp item)%Z);
          [lia | reflexivity]. }
    assert (HpL : std_min (std_max (if (m_thLen s <? GetNPackets rest)%Z
                                    then Laqm (attrs s) (now - GetTimeStamp item)%Z
                                    else 0) (m_pCL s)) 1 == 0).
    { rewrite std_min_spec, std_max_spec.
      destruct (m_thLen s <? GetNPackets rest)%Z.
      - rewrite HL, HpCL. rewrite Q.max_l by lra. apply Q.min_l. lra.
      - rewrite HpCL. rewrite Q.max_l by lra. apply Q.min_l. lra. }
    rewrite Recur_holds by (rewrite HpL; lra).
    destruct rest; eexists; (split; [reflexivity|]); cbn;
      (split; [reflexivity|]); (split; [reflexivity | exact HpL]).
Qed.

Lemma uncongested_passes_through_witness :
  exists s',
    DequeueFromL4sQueue 100%Z false ex_two_l4s
    = Ok (Some (ex_packet 1500 0 1)%Z, false, s') /\
    l4sQ s' = [ex_packet 1500 0 1]%Z /\ dropLog s' = dropLog ex_two_l4s /\
    m_pL s' == 0.
Proof.
  apply (proj2 (uncongested_passes_through 100%Z false ex_two_l4s
                  (ex_packet 1500 0 1)%Z [ex_packet 1500 0 1]%Z));
    vm_compute; (reflexivity || discriminate).
Defined.

Local Open Scope Z_scope.

(** * A notification stages fewer than 1000 packets *)

Lemma PendingDequeue_batch_count now passes :
  forall i left markedCount s s' n,
    0 <= i -> Z.of_nat passes + i = 1001 -> (1 <= passes)%nat ->
    PendingDequeue_batch passes now i left markedCount s = Ok (s', n) ->
    Z.of_nat (length (m_classicStagingQueue s') + length (m_l4sStagingQueue s')) + i
    <= Z.of_nat (length (m_classicStagingQueue s) + length (m_l4sStagingQueue s))
       + 999.
Proof.
  induction passes as [|passes IH]; intros i left mc s s' n Hi Hsum Hp; [lia|].
  cbn [PendingDequeue_batch].
  destruct (Z.ltb_spec i 1000) as [Ei|Ei]; cbn [assert bind]; [|discriminate].
  assert (Hu : u32 (i + 1) = i + 1) by (apply u32_small; unfold is_u32, two32; lia).
  assert (Hstop : forall (m m' : Z), Ok (s, m) = Ok (s', m') ->
            Z.of_nat (length (m_classicStagingQueue s')
                      + length (m_l4sStagingQueue s')) + i
            <= Z.of_nat (length (m_classicStagingQueue s)
                         + length (m_l4sStagingQueue s)) + 999).
  { intros m m' H; inversion H; subst. lia. }
  destruct (negb (fst (CanSchedule left s)) && negb (snd (CanSchedule left s)));
    [apply Hstop|].
  destruct (Scheduler (CanSchedule left s) s) as [[sel s1]|f] eqn:ES; cbn [bind];
    [|discriminate].
  destruct (Scheduler_taken _ _ _ _ ES) as [_ [SC1 SL1]].
  rewrite Hu.
  destruct sel.
  - destruct (DequeueFromClassicQueue false s1) as [[qd d] s2] eqn:ED.
    destruct (DequeueFromClassicQueue_taken _ _ _ _ _ ED) as [_ [SC2 SL2]].
    destruct qd as [qd|].
    + destruct (u32 (GetSize qd + 38) <=? left); cbn [assert bind]; [|discriminate].
      intros H. apply IH in H; try lia.
      cbn [AddToClassicStagingQueue m_classicStagingQueue m_l4sStagingQueue
           set_m_classicStagingQueue] in H.
      rewrite SC2, SC1, SL2, SL1, length_app in H. cbn [length] in H. lia.
    + intros H. apply IH in H; try lia. rewrite SC2, SC1, SL2, SL1 in H. lia.
  - destruct (DequeueFromL4sQueue now false s1) as [[[qd d] s2]|f] eqn:ED;
      cbn [bind]; [|discriminate].
    destruct (DequeueFromL4sQueue_taken _ _ _ _ _ _ ED) as [_ [SC2 SL2]].
    destruct qd as [qd|].
    + destruct (u32 (GetSize qd + 38) <=? left); cbn [assert bind]; [|discriminate].
      intros H. apply IH in H; try lia.
      cbn [AddToL4sStagingQueue m_classicStagingQueue m_l4sStagingQueue
           set_m_l4sStagingQueue] in H.
      rewrite SC2, SC1, SL2, SL1, length_app in H. cbn [length] in H. lia.
    + intros H. apply IH in H; try lia. rewrite SC2, SC1, SL2, SL1 in H. lia.
  - pose proof (Scheduler_spec (CanSchedule left s) s) as Hspec.
    rewrite ES in Hspec. destruct Hspec as [_ [-> _]]. apply Hstop.
Qed.

(** One call of [PendingDequeueCallback] (lines 197-348) that returns has
    added fewer than 1000 packets to the staging queues: the batch loop
    stages at most one packet per pass and asserts, at the start of each
    pass, that fewer than 1000 passes came before, so the pass that would
    follow the 1000th trips "Error: infinite loop" instead of ending the
    loop. *)
Theorem PendingDequeueCallback_stages_below_1000 (now : Time) (txQueueStopped : bool)
    (pendingBytes : Z) (s : DualPi2QueueDisc) :
  match PendingDequeueCallback now txQueueStopped pendingBytes s with
  | Ok s' =>
      (length (m_classicStagingQueue s') + length (m_l4sStagingQueue s')
       <= length (m_classicStagingQueue s) + length (m_l4sStagingQueue s) + 999)%nat
  | Fatal _ => True
  end.
Proof.
  unfold PendingDequeueCallback. destruct (negb txQueueStopped); [cbn; lia|].
  destruct (_ <? pendingBytes); [cbn; lia|].
  destruct (PendingDequeue_batch 1001 now 0 pendingBytes 0 (refresh_samples now s))
    as [[s1 n]|f] eqn:EB; cbn [bind]; [|exact I].
  apply PendingDequeue_batch_count in EB; [|lia|reflexivity|lia].
  assert (Hk : (length (m_classicStagingQueue (PendingDequeue_topup n s1))
                + length (m_l4sStagingQueue (PendingDequeue_topup n s1))
                <= length (m_classicStagingQueue s) + length (m_l4sStagingQueue s)
                   + 999)%nat).
  { destruct (PendingDequeue_topup_fields n s1) as [_ [_ [_ [_ [ESC _]]]]].
    destruct (PendingDequeue_topup_staging n s1) as [Tl _].
    rewrite ESC, Tl.
    cbn [refresh_samples m_classicStagingQueue m_l4sStagingQueue
         set_m_cLatencySample set_m_lLatencySample set_m_cBytesSample] in EB.
    lia. }
  destruct (n =? 0); cbn [bind]; [exact Hk|].
  destruct (Qltb 0 (m_pCL s1)); cbn [assert bind]; [exact Hk | exact I].
Qed.

(** * Carrying a property of the state through the operations

    A property that the scheduler and the two AQM dequeues keep, and that
    does not depend on the staging queues or on the samples, is kept by
    [DoDequeue] and by [PendingDequeueCallback]. *)

Section Preserved.

Variable I : DualPi2QueueDisc -> Prop.

Hypothesis I_Scheduler :
  forall eligible s sel s', I s -> Scheduler eligible s = Ok (sel, s') -> I s'.
Hypothesis I_L4s :
  forall now marked s r m s',
    I s -> DequeueFromL4sQueue now marked s = Ok (r, m, s') -> I s'.
Hypothesis I_Classic :
  forall dropped s, I s -> I (snd (DequeueFromClassicQueue dropped s)).
Hypothesis I_l4sStaging :
  forall q s, I s -> I (set_m_l4sStagingQueue q s).
Hypothesis I_classicStaging :
  forall q s, I s -> I (set_m_classicStagingQueue q s).
Hypothesis I_samples :
  forall now s, I s -> I (refresh_samples now s).

Lemma DoDequeue_loop_preserves now fuel :
  forall s r s', I s -> DoDequeue_loop fuel now s = Ok (r, s') -> I s'.
Proof.
induction fuel as [|fuel IH]; intros s r s' HI; cbn [DoDequeue_loop].
- destruct (0 <? GetQueueSize s); [discriminate|].
  intros H; inversion H; subst. exact HI.
- destruct (0 <? GetQueueSize s); [|intros H; inversion H; subst; exact HI].
  destruct (Scheduler (true, true) s) as [[sel s1]|f] eqn:ES; cbn [bind];
    [|discriminate].
  pose proof (I_Scheduler _ _ _ _ HI ES) as H1.
  destruct sel.
  + pose proof (I_Classic false s1 H1) as H2.
    destruct (DequeueFromClassicQueue false s1) as [[qd d] s2]. cbn [snd] in H2.
    destruct qd; [intros H; inversion H; subst; exact H2 | apply IH, H2].
  + destruct (DequeueFromL4sQueue now false s1) as [[[qd d] s2]|f] eqn:ED;
      cbn [bind]; [|discriminate].
    pose proof (I_L4s _ _ _ _ _ _ H1 ED) as H2.
    destruct qd; [intros H; inversion H; subst; exact H2 | apply IH, H2].
  + intros H; inversion H; subst. exact H1.
Qed.

Lemma DoDequeue_preserves now s r s' :
  I s -> DoDequeue now s = Ok (r, s') -> I s'.
Proof.
intros HI. unfold DoDequeue, DequeueFromL4sStagingQueue,
  DequeueFromClassicStagingQueue.
destruct (m_l4sStagingQueue s) as [|x restL].
- destruct (m_classicStagingQueue s) as [|y restC].
  + apply DoDequeue_loop_preserves, HI.
  + intros H; inversion H; subst. apply I_classicStaging, HI.
- intros H; inversion H; subst. apply I_l4sStaging, HI.
Qed.

Lemma PendingDequeue_batch_preserves now passes :
  forall i left markedCount s s' n,
    I s -> PendingDequeue_batch passes now i left markedCount s = Ok (s', n) -> I s'.
Proof.
induction passes as [|passes IH]; intros i left mc s s' n HI;
  cbn [PendingDequeue_batch].
- intros H; inversion H; subst. exact HI.
- destruct (i <? 1000); cbn [assert bind]; [|discriminate].
  destruct (negb (fst (CanSchedule left s)) && negb (snd (CanSchedule left s)));
    [intros H; inversion H; subst; exact HI|].
  destruct (Scheduler (CanSchedule left s) s) as [[sel s1]|f] eqn:ES; cbn [bind];
    [|discriminate].
  pose proof (I_Scheduler _ _ _ _ HI ES) as H1.
  destruct sel.
  + pose proof (I_Classic false s1 H1) as H2.
    destruct (DequeueFromClassicQueue false s1) as [[qd d] s2]. cbn [snd] in H2.
    destruct qd as [qd|]; [|apply IH, H2].
    destruct (u32 (GetSize qd + 38) <=? left); cbn [assert bind]; [|discriminate].
    apply IH. apply I_classicStaging, H2.
  + destruct (DequeueFromL4sQueue now false s1) as [[[qd d] s2]|f] eqn:ED;
      cbn [bind]; [|discriminate].
    pose proof (I_L4s _ _ _ _ _ _ H1 ED) as H2.
    destruct qd as [qd|]; [|apply IH, H2].
    destruct (u32 (GetSize qd + 38) <=? left); cbn [assert bind]; [|discriminate].
    apply IH. apply I_l4sStaging, H2.
  + intros H; inversion H; subst. exact H1.
Qed.

Lemma PendingDequeueCallback_preserves now stopped pendingBytes s s' :
  I s -> PendingDequeueCallback now stopped pendingBytes s = Ok s' -> I s'.
Proof.
intros HI. unfold PendingDequeueCallback.
pose proof (I_samples now s HI) as H0.
destruct (negb stopped); [intros H; inversion H; subst; exact H0|].
destruct (_ <? pendingBytes); [intros H; inversion H; subst; exact H0|].
destruct (PendingDequeue_batch 1001 now 0 pendingBytes 0 (refresh_samples now s))
  as [[s1 n]|f] eqn:EB; cbn [bind]; [|discriminate].
pose proof (PendingDequeue_batch_preserves _ _ _ _ _ _ _ _ H0 EB) as H1.
assert (H2 : I (PendingDequeue_topup n s1)).
{ unfold PendingDequeue_topup. destruct (_ <? _); [apply I_l4sStaging|]; exact H1. }
destruct (n =? 0); [|destruct (Qltb 0 (m_pCL s1))]; cbn [assert bind];
  try discriminate; intros H; inversion H; subst; exact H2.
Qed.

End Preserved.

(** * The probabilities in every reachable state *)

(** The members that only [InitializeParams] writes, and [m_pL]. *)
Lemma drr_erased_pL s s' :
  drr_erased s' = drr_erased s -> m_pL s' = m_pL s.
Proof.
  destruct s, s'. unfold drr_erased. cbn. intros H. inversion H; subst. reflexivity.
Qed.

Lemma DequeueFromL4sQueue_loop_pL now q :
  forall marked qdItem s r m s',
    (0 <= m_pL s <= 1)%Q ->
    DequeueFromL4sQueue_loop now marked qdItem q s = Ok (r, m, s') ->
    (0 <= m_pL s' <= 1)%Q.
Proof.
  induction q as [|next q' IH]; intros marked qdItem s r m s' HI;
    rewrite DequeueFromL4sQueue_loop_eq; cbv zeta.
  - destruct (Qltb (m_pCL s) (m_pLmax s)).
    + pose proof (l4s_pL_bounds (m_thLen s <? GetNPackets (GetInternalQueue L4S s))
                                (Laqm (attrs s) (now - GetTimeStamp qdItem))
                                (m_pCL s) (Laqm_nonneg _ _)) as Hb.
      split_cases; intros H; inversion H; subst; cbn; exact Hb.
    + split_cases; intros H; inversion H; subst; cbn; exact HI.
  - destruct (Qltb (m_pCL s) (m_pLmax s)).
    + pose proof (l4s_pL_bounds (m_thLen s <? GetNPackets (GetInternalQueue L4S s))
                                (Laqm (attrs s) (now - GetTimeStamp qdItem))
                                (m_pCL s) (Laqm_nonneg _ _)) as Hb.
      split_cases; intros H; inversion H; subst; cbn; exact Hb.
    + destruct (Recur (m_l4sCount s) (m_pC s)) as [[|] count].
      * apply IH. exact HI.
      * split_cases; intros H; inversion H; subst; cbn; exact HI.
Qed.

Lemma pL_preserved_by_DoDequeue now s r s' :
  (0 <= m_pL s <= 1)%Q -> DoDequeue now s = Ok (r, s') -> (0 <= m_pL s' <= 1)%Q.
Proof.
  apply (DoDequeue_preserves (fun s => (0 <= m_pL s <= 1)%Q)).
  - intros e s0 sel s1 HI ES. pose proof (Scheduler_spec e s0) as H.
    rewrite ES in H. rewrite (drr_erased_pL _ _ (proj1 H)). exact HI.
  - intros now0 marked s0 r0 m s1 HI. unfold DequeueFromL4sQueue.
    cbn [GetInternalQueue SetInternalQueue].
    destruct (l4sQ s0) as [|x q]; [intros H; inversion H; subst; exact HI|].
    apply DequeueFromL4sQueue_loop_pL. exact HI.
  - intros d s0 HI. pose proof (DequeueFromClassicQueue_shape d s0) as H.
    destruct (DequeueFromClassicQueue d s0) as [[r0 d0] s1]. cbn [snd].
    destruct H as [He _]. apply classic_erased_fields in He.
    destruct He as [_ [_ [_ [_ [_ E]]]]]. rewrite E. exact HI.
  - intros q s0 HI. exact HI.
  - intros q s0 HI. exact HI.
Qed.

Lemma pL_preserved_by_PendingDequeueCallback now stopped pendingBytes s s' :
  (0 <= m_pL s <= 1)%Q ->
  PendingDequeueCallback now stopped pendingBytes s = Ok s' ->
  (0 <= m_pL s' <= 1)%Q.
Proof.
  apply (PendingDequeueCallback_preserves (fun s => (0 <= m_pL s <= 1)%Q)).
  - intros e s0 sel s1 HI ES. pose proof (Scheduler_spec e s0) as H.
    rewrite ES in H. rewrite (drr_erased_pL _ _ (proj1 H)). exact HI.
  - intros now0 marked s0 r0 m s1 HI. unfold DequeueFromL4sQueue.
    cbn [GetInternalQueue SetInternalQueue].
    destruct (l4sQ s0) as [|x q]; [intros H; inversion H; subst; exact HI|].
    apply DequeueFromL4sQueue_loop_pL. exact HI.
  - intros d s0 HI. pose proof (DequeueFromClassicQueue_shape d s0) as H.
    destruct (DequeueFromClassicQueue d s0) as [[r0 d0] s1]. cbn [snd].
    destruct H as [He _]. apply classic_erased_fields in He.
    destruct He as [_ [_ [_ [_ [_ E]]]]]. rewrite E. exact HI.
  - intros q s0 HI. exact HI.
  - intros q s0 HI. exact HI.
  - intros now0 s0 HI. exact HI.
Qed.

Lemma reachable_pL s : reachable s -> (0 <= m_pL s <= 1)%Q.
Proof.
  induction 1 as [a c c' devMtu s _ H | s s' _ IH Hstep].
  - unfold InitializeParams in H. destruct (negb _); cbn [assert bind] in H;
      [|discriminate]. inversion H; subst. cbn. lra.
  - destruct Hstep as [item s _ | now s r s' H | now st pb s s' _ H | now s s' H
                      | lim s _ | limit s _].
    + unfold DoEnqueue, InternalEnqueue. destruct (_ <? _); [exact IH|].
      destruct (IsL4s item); cbn [GetInternalQueue]; destruct (_ <? _); exact IH.
    + exact (pL_preserved_by_DoDequeue _ _ _ _ IH H).
    + exact (pL_preserved_by_PendingDequeueCallback _ _ _ _ _ IH H).
    + unfold DualPi2Update in H.
      match type of H with
      | bind ?c _ = _ => destruct c; cbn [bind] in H; [|discriminate]
      end.
      inversion H; subst. exact IH.
    + exact IH.
    + exact IH.
Qed.

Local Open Scope Q_scope.

(** The coupling of the two controllers holds in every state the
    discipline reaches, not only right after an update
    ([InitializeParams], lines 412-418; [DualPi2Update], lines 462-470;
    [DequeueFromL4sQueue], lines 673-675): the base probability is in
    [0, 1], the Classic probability is its square, the coupled probability
    is [k] times the base probability capped at 1, and the L4S probability
    last traced is in [0, 1]. *)
Theorem reachable_coupling (s : DualPi2QueueDisc) :
  reachable s ->
  0 <= m_baseProb s <= 1 /\
  m_pC s == m_baseProb s * m_baseProb s /\
  m_pCL s == Qmin (m_k (attrs s) * m_baseProb s) 1 /\
  0 <= m_pL s <= 1 /\
  m_pLmax s == 1.
Proof.
  intros Hr. destruct (reachable_PC s Hr) as [[Hb [HC [HCL Hmax]]] _].
  split; [exact Hb|]. split; [exact HC|].
  split; [rewrite HCL, std_min_spec, Qmult_comm; reflexivity|].
  split; [exact (reachable_pL s Hr) | exact Hmax].
Qed.

Lemma reachable_coupling_witness :
  0 <= m_baseProb ex_overload <= 1 /\
  m_pC ex_overload == m_baseProb ex_overload * m_baseProb ex_overload /\
  m_pCL ex_overload == Qmin (m_k (attrs ex_overload) * m_baseProb ex_overload) 1 /\
  0 <= m_pL ex_overload <= 1 /\
  m_pLmax ex_overload == 1.
Proof. apply (reachable_coupling ex_overload). exact reachable_ex_overload. Defined.

Local Open Scope Z_scope.

(** * The order of service within a pass *)

Lemma iterate_first {X R : Type} (body : X -> loop_result X R) (r : R) :
  forall n x, body x = Break r -> iterate body n x = Break r.
Proof.
  induction n as [p IH|p IH|]; intros x H; cbn [iterate].
  - rewrite H. reflexivity.
  - rewrite (IH x H). reflexivity.
  - exact H.
Qed.

(** [Scheduler] (lines 553-641) tries the L4S queue first in every pass.
    On a discipline that holds packets, in a round in progress, or after
    the round start that is due when the round mask is empty and whose
    credit is a whole number of bytes that fits 32 bits: if L4S is
    eligible, has a head packet with bytes and a deficit that covers it,
    L4S is selected at once and its deficit charged, whatever the Classic
    queue holds; Classic is selected in that pass only when L4S is not
    served and Classic is eligible with a head packet its own deficit
    covers. *)
Theorem Scheduler_L4S_first (eligible : bool * bool) (s : DualPi2QueueDisc) :
  let l := hol_size (l4sQ s) in
  let c := hol_size (classicQ s) in
  let s1 := if bits_none (m_drrQueues s) then start_round s else s in
  let serveL := negb (l =? 0) && snd eligible && (l <=? m_llDeficit s1) in
  let serveC := negb (c =? 0) && fst eligible && (c <=? m_classicDeficit s1) in
  disc_GetNPackets s <> 0 ->
  fst eligible || snd eligible = true ->
  (bits_none (m_drrQueues s) = true -> credit_exact s) ->
  (serveL = true ->
   Scheduler eligible s = Ok (L4S, set_m_llDeficit (u32 (m_llDeficit s1 - l)) s1)) /\
  (serveL = false -> serveC = true ->
   exists s', Scheduler eligible s = Ok (CLASSIC, s') /\
              m_classicDeficit s' = u32 (m_classicDeficit s1 - c) /\
              m_llDeficit s' = (if l =? 0 then 0 else m_llDeficit s1)).
Proof.
  intros l c s1 serveL serveC Hn He _. unfold Scheduler. rewrite He.
  cbn [assert bind GetInternalQueue]. apply Z.eqb_neq in Hn. rewrite Hn.
  fold l c. split.
  - intros HL. rewrite (iterate_first _ (Ok (L4S, set_m_llDeficit
                                                   (u32 (m_llDeficit s1 - l)) s1)));
      [reflexivity|].
    unfold Scheduler_body. cbn [Z.ltb Z.compare negb]. fold s1.
    unfold serveL in HL. rewrite HL. reflexivity.
  - intros HL HC. unfold serveL in HL. unfold serveC in HC.
    apply andb_true_iff in HC. destruct HC as [HC1 HC2].
    set (s2 := if negb (l =? 0) && snd eligible then reset_L4S s1 else s1).
    set (s3 := if l =? 0 then reset_L4S (set_m_llDeficit 0 s2) else s2).
    assert (E3 : m_classicDeficit s3 = m_classicDeficit s1).
    { unfold s3, s2. destruct (l =? 0); destruct (negb _ && snd eligible);
        reflexivity. }
    exists (set_m_classicDeficit (u32 (m_classicDeficit s3 - c)) s3). split.
    + rewrite (iterate_first _ (Ok (CLASSIC, set_m_classicDeficit
                                               (u32 (m_classicDeficit s3 - c)) s3)));
        [reflexivity|].
      unfold Scheduler_body. cbn [Z.ltb Z.compare negb]. fold s1.
      rewrite HL. fold s2. fold s3. rewrite HC1, E3, HC2. reflexivity.
    + cbn [m_classicDeficit m_llDeficit set_m_classicDeficit]. rewrite E3.
      split; [reflexivity|]. unfold s3, s2.
      destruct (l =? 0); [reflexivity|]. cbn [negb andb].
      destruct (snd eligible); reflexivity.
Qed.

Lemma Scheduler_L4S_first_witness :
  exists s', Scheduler (true, true) ex_two_l4s = Ok (L4S, s') /\ m_llDeficit s' = 12000.
Proof.
  eexists. split.
  - apply (proj1 (Scheduler_L4S_first (true, true) ex_two_l4s
                    ltac:(vm_compute; discriminate) eq_refl
                    ltac:(intros _; exists 9; repeat split;
                          vm_compute; congruence))).
    vm_compute. reflexivity.
  - vm_compute. reflexivity.
Defined.

(** * No packet is lost or made up over a run *)

Lemma DoEnqueue_held item s :
  (held (snd (DoEnqueue item s)) + length (dropLog (snd (DoEnqueue item s)))
   = S (held s + length (dropLog s)))%nat.
Proof.
  unfold DoEnqueue, InternalEnqueue, held.
  destruct (_ <? _); [cbn; rewrite length_app; cbn; lia|].
  destruct (IsL4s item); cbn [GetInternalQueue SetInternalQueue];
    destruct (_ <? _); cbn; rewrite length_app; cbn; lia.
Qed.

Lemma DoDequeue_held now s r s' :
  DoDequeue now s = Ok (r, s') ->
  (held s + length (dropLog s)
   = held s' + length (handed_out r) + length (dropLog s'))%nat.
Proof.
  intros E.
  destruct (DoDequeue_taken _ _ _ _ E)
    as [[item [-> [Hst HT]]]|[HL [HC [HL' [HC' [[oC [oL [HT Ho]]] _]]]]]];
    destruct (taken_held _ _ _ _ HT) as [drops [HD [_ Hlen]]];
    rewrite HD, length_app; unfold held; cbn [handed_out length] in *.
  - destruct Hst as [[H1 H2]|[H1 [H2 H3]]].
    + rewrite H1, H2. cbn [length]. lia.
    + rewrite H1, H2, H3. cbn [length]. lia.
  - rewrite HL, HC, HL', HC', <- Ho, length_app. cbn [length]. lia.
Qed.

Lemma PendingDequeueCallback_held now stopped pendingBytes s s' :
  is_u32 pendingBytes ->
  PendingDequeueCallback now stopped pendingBytes s = Ok s' ->
  (held s + length (dropLog s) = held s' + length (dropLog s'))%nat.
Proof.
  intros Hpb E.
  destruct (PendingDequeueCallback_taken _ _ _ _ _ Hpb E)
    as [oC [oL [HT [HSC HSL]]]].
  destruct (taken_held _ _ _ _ HT) as [drops [HD [_ Hlen]]].
  rewrite HD, length_app. unfold held. rewrite HSC, length_app.
  assert (HlenL : length (m_l4sStagingQueue s')
                  = (length (m_l4sStagingQueue s) + length oL)%nat).
  { destruct HSL as [H|[k H]]; rewrite H, ?TopUpWalk_length, length_app;
      reflexivity. }
  rewrite HlenL. lia.
Qed.

(** Over any run of the discipline from its initialisation, whatever the
    order of enqueues ([DoEnqueue], lines 367-395), dequeues ([DoDequeue],
    lines 737-815), pending-dequeue notifications
    ([PendingDequeueCallback], lines 197-348) and timer updates
    ([DualPi2Update], lines 421-472), every packet offered is accounted for
    exactly once: the packets offered are as many as the packets still held
    in the queues and staging queues, the packets handed out and the
    entries of the drop log together. *)
Theorem run_conservation (s : DualPi2QueueDisc) (offered served : list QueueDiscItem) :
  history s offered served ->
  length offered = (held s + length served + length (dropLog s))%nat.
Proof.
  induction 1 as [a c c' devMtu s _ H
                 | item s offered served _ IH
                 | now s r s' offered served _ IH H
                 | now st pb s s' offered served _ IH Hpb H
                 | now s s' offered served _ IH H
                 | lim s offered served _ IH _
                 | limit s offered served _ IH _].
  - destruct (InitializeParams_queues _ _ _ _ H)
      as [HC [HL [HSC [HSL [_ [_ [_ HD]]]]]]].
    unfold held. rewrite HC, HL, HSC, HSL, HD. reflexivity.
  - pose proof (DoEnqueue_held item s). rewrite length_app. cbn [length]. lia.
  - pose proof (DoDequeue_held _ _ _ _ H). rewrite length_app. lia.
  - pose proof (PendingDequeueCallback_held _ _ _ _ _ Hpb H). lia.
  - apply DualPi2Update_queues, update_erased_fields in H.
    destruct H as [_ [HC [HL [HSC [HSL [_ [_ HD]]]]]]].
    unfold held in *. rewrite HC, HL, HSC, HSL, HD. exact IH.
  - exact IH.
  - exact IH.
Qed.

Lemma history_example :
  history (after_dequeue 5 ex_two_l4s)
          [ex_packet 1500 0 1; ex_packet 1500 0 1] [ex_packet 1500 0 1].
Proof.
  apply (history_dequeue 5 ex_two_l4s (Some (ex_packet 1500 0 1))
           (after_dequeue 5 ex_two_l4s)
           [ex_packet 1500 0 1; ex_packet 1500 0 1] []).
  - apply (history_enqueue (ex_packet 1500 0 1)
             (after_enqueue (ex_packet 1500 0 1) ex_init) [ex_packet 1500 0 1] []).
    apply (history_enqueue (ex_packet 1500 0 1) ex_init [] []).
    eapply (history_init default_attrs (mkSetup 0 0 []) _ (Some 1500));
      reflexivity.
  - vm_compute. reflexivity.
Qed.

Lemma run_conservation_witness :
  length [ex_packet 1500 0 1; ex_packet 1500 0 1]
  = (held (after_dequeue 5%Z ex_two_l4s) + length [ex_packet 1500 0 1]%Z
     + length (dropLog (after_dequeue 5%Z ex_two_l4s)))%nat.
Proof.
  apply (run_conservation (after_dequeue 5 ex_two_l4s)
           [ex_packet 1500 0 1; ex_packet 1500 0 1] [ex_packet 1500 0 1]).
  exact history_example.
Defined.

(** * When the byte budget of a batch can be overrun *)

Lemma CanSchedule_fits byteLimit s :
  (fst (CanSchedule byteLimit s) = true ->
   exists item rest,
     classicQ s = item :: rest /\ 0 < u32 (GetSize item + 38) <= byteLimit) /\
  (snd (CanSchedule byteLimit s) = true ->
   exists item rest,
     l4sQ s = item :: rest /\ 0 < u32 (GetSize item + 38) <= byteLimit).
Proof.
  assert (Hfit : forall q,
             negb (match Peek q with
                   | Some item => u32 (GetSize item + 38)
                   | None => 0
                   end =? 0)
             && (match Peek q with
                 | Some item => u32 (GetSize item + 38)
                 | None => 0
                 end <=? byteLimit) = true ->
             exists item rest,
               q = item :: rest /\ 0 < u32 (GetSize item + 38) <= byteLimit).
  { intros q Hq. destruct q as [|item rest]; [discriminate Hq|].
    exists item, rest. split; [reflexivity|]. cbn [Peek hd_error] in Hq.
    apply andb_true_iff in Hq. destruct Hq as [H1 H2].
    apply negb_true_iff, Z.eqb_neq in H1. apply Z.leb_le in H2.
    pose proof (u32_range (GetSize item + 38)) as Hr. unfold is_u32 in Hr. lia. }
  unfold CanSchedule. cbn [GetInternalQueue].
  destruct (disc_GetNPackets s =? 0); [split; discriminate|].
  cbn [fst snd]. split; apply Hfit.
Qed.

Lemma drops_of_nil r (q : list QueueDiscItem) (log : list (QueueDiscItem * DropReason)) :
  log ++ drops_of r q = log -> q = [].
Proof.
  intros H. rewrite <- (app_nil_r log) in H at 2. apply app_inv_head in H.
  destruct q; [reflexivity | discriminate H].
Qed.

(** The assertion "insufficient pending bytes" of the batch loop of
    [PendingDequeueCallback] (lines 276-277 and 300-301) can only fail after
    an AQM drop in the same pass.  When the class that [Scheduler] selected
    from the eligibility [CanSchedule] computed for the bytes left is
    dequeued without a drop, the packet handed out is the head-of-line
    packet that [CanSchedule] measured (CE-marking does not change its
    size), so its framed size fits the bytes left. *)
Theorem pending_budget_holds_without_drop (now : Time) (left : Z) (flag : bool)
    (s s1 s2 : DualPi2QueueDisc) (item : QueueDiscItem) (flag' : bool) :
  (Scheduler (CanSchedule left s) s = Ok (L4S, s1) ->
   DequeueFromL4sQueue now flag s1 = Ok (Some item, flag', s2) ->
   dropLog s2 = dropLog s1 ->
   u32 (GetSize item + 38) <= left) /\
  (Scheduler (CanSchedule left s) s = Ok (CLASSIC, s1) ->
   DequeueFromClassicQueue flag s1 = (Some item, flag', s2) ->
   dropLog s2 = dropLog s1 ->
   u32 (GetSize item + 38) <= left).
Proof.
  split; intros ES ED Hlog;
    pose proof (Scheduler_spec (CanSchedule left s) s) as Hs; rewrite ES in Hs;
    destruct Hs as [He [_ Hel]]; apply drr_erased_fields in He;
    destruct He as [_ [_ [_ [HC [HL _]]]]].
  - destruct (proj2 (CanSchedule_fits left s) Hel) as [hd [rest [Hq Hfit]]].
    pose proof (DequeueFromL4sQueue_shape now flag s1) as Hsh. rewrite ED in Hsh.
    destruct Hsh as [_ [gone [Hd [_ [orig [Hq1 Hserved]]]]]].
    rewrite Hlog in Hd. symmetry in Hd. apply drops_of_nil in Hd. subst gone.
    cbn [app] in Hq1. rewrite HL, Hq in Hq1. inversion Hq1; subst.
    destruct Hserved as [[-> _]|[-> _]]; cbn [set_CE GetSize]; lia.
  - destruct (proj1 (CanSchedule_fits left s) Hel) as [hd [rest [Hq Hfit]]].
    pose proof (DequeueFromClassicQueue_shape flag s1) as Hsh. rewrite ED in Hsh.
    destruct Hsh as [_ [gone [Hd [_ [_ Hq1]]]]].
    rewrite Hlog in Hd. symmetry in Hd. apply drops_of_nil in Hd. subst gone.
    cbn [app] in Hq1. rewrite HC, Hq in Hq1. inversion Hq1; subst. lia.
Qed.

Lemma pending_budget_holds_without_drop_witness :
  u32 (GetSize (ex_packet 1500 0 1) + 38) <= 6152.
Proof.
  apply (proj1 (pending_budget_holds_without_drop 100 6152 false ex_eight_l4s
                  (match Scheduler (CanSchedule 6152 ex_eight_l4s) ex_eight_l4s with
                   | Ok (_, s) => s
                   | Fatal _ => ex_eight_l4s
                   end)
                  (match DequeueFromL4sQueue 100 false
                           (match Scheduler (CanSchedule 6152 ex_eight_l4s)
                                            ex_eight_l4s with
                            | Ok (_, s) => s
                            | Fatal _ => ex_eight_l4s
                            end) with
                   | Ok (_, _, s) => s
                   | Fatal _ => ex_eight_l4s
                   end)
                  (ex_packet 1500 0 1) false));
    vm_compute; reflexivity.
Defined.

(** * Packets without bytes *)

Lemma nbytes_zero q : Forall (fun item => GetSize item = 0) q -> nbytes q = 0.
Proof. induction 1 as [|x q Hx _ IH]; cbn; [reflexivity | lia]. Qed.

(** The loop of [DoDequeue] (lines 763-813) runs while [GetQueueSize ()],
    a byte count, is positive: with nothing staged, internal queues that
    hold only packets of size zero are never served.  [DoDequeue] hands out
    nothing and leaves the discipline as it is, however many such packets
    are queued. *)
Theorem DoDequeue_skips_empty_packets (now : Time) (s : DualPi2QueueDisc) :
  m_l4sStagingQueue s = [] -> m_classicStagingQueue s = [] ->
  Forall (fun item => GetSize item = 0) (classicQ s) ->
  Forall (fun item => GetSize item = 0) (l4sQ s) ->
  DoDequeue now s = Ok (None, s).
Proof.
  intros HSL HSC HC HL.
  unfold DoDequeue, DequeueFromL4sStagingQueue, DequeueFromClassicStagingQueue.
  rewrite HSL, HSC. cbn [DoDequeue_loop].
  unfold GetQueueSize, GetNBytes. cbn [GetInternalQueue].
  rewrite (nbytes_zero _ HC), (nbytes_zero _ HL). reflexivity.
Qed.

Lemma DoDequeue_skips_empty_packets_witness :
  DoDequeue 7 (after_enqueue (ex_packet 0 0 1) ex_init)
  = Ok (None, after_enqueue (ex_packet 0 0 1) ex_init).
Proof.
  apply (DoDequeue_skips_empty_packets 7 (after_enqueue (ex_packet 0 0 1) ex_init));
    try reflexivity.
  - constructor.
  - repeat constructor.
Defined.

(** * The order of the packets of a class *)

Lemma subseq_refl {A : Type} (l : list A) : subseq l l.
Proof. induction l; constructor; assumption. Qed.

Lemma subseq_nil_l {A : Type} (l : list A) : subseq [] l.
Proof. induction l; constructor; assumption. Qed.

Lemma subseq_app {A : Type} (l1 l2 l3 l4 : list A) :
  subseq l1 l2 -> subseq l3 l4 -> subseq (l1 ++ l3) (l2 ++ l4).
Proof.
  intros H12 H34. induction H12; cbn; [exact H34 | |]; constructor; assumption.
Qed.

Lemma subseq_trans {A : Type} (l1 l2 l3 : list A) :
  subseq l1 l2 -> subseq l2 l3 -> subseq l1 l3.
Proof.
  intros H12 H23. revert l1 H12.
  induction H23 as [|x l2 l3 _ IH|x l2 l3 _ IH]; intros l1 H12.
  - exact H12.
  - constructor. apply IH, H12.
  - inversion H12; subst; constructor; apply IH; assumption.
Qed.

Lemma subseq_map {A B : Type} (f : A -> B) (l1 l2 : list A) :
  subseq l1 l2 -> subseq (map f l1) (map f l2).
Proof. induction 1; cbn; constructor; assumption. Qed.

Lemma subseq_Forall {A : Type} (P : A -> Prop) (l1 l2 : list A) :
  subseq l1 l2 -> Forall P l2 -> Forall P l1.
Proof.
  induction 1 as [|x l1 l2 _ IH|x l1 l2 _ IH]; intros HF.
  - constructor.
  - inversion HF; subst. apply IH. assumption.
  - inversion HF; subst. constructor; [assumption | apply IH; assumption].
Qed.

Lemma subseq_drop_prefix {A : Type} (p l : list A) : subseq l (p ++ l).
Proof.
  change l with ([] ++ l) at 1. apply subseq_app; [apply subseq_nil_l | apply subseq_refl].
Qed.

Lemma subseq_app_r {A : Type} (l1 l2 l3 : list A) :
  subseq l1 l2 -> subseq l1 (l2 ++ l3).
Proof.
  intros H. rewrite <- (app_nil_r l1). apply subseq_app; [exact H | apply subseq_nil_l].
Qed.

(** ** The moves of a dequeue, for any way of describing them *)

Section Moves.

Variable T : DualPi2QueueDisc -> DualPi2QueueDisc ->
             list QueueDiscItem -> list QueueDiscItem -> Prop.

Hypothesis T_refl : forall s, T s s [] [].
Hypothesis T_trans :
  forall s s1 s2 oC1 oL1 oC2 oL2,
    T s s1 oC1 oL1 -> T s1 s2 oC2 oL2 -> T s s2 (oC1 ++ oC2) (oL1 ++ oL2).
Hypothesis T_Scheduler :
  forall eligible s sel s', Scheduler eligible s = Ok (sel, s') -> T s s' [] [].
Hypothesis T_L4s :
  forall now marked s r m s',
    DequeueFromL4sQueue now marked s = Ok (r, m, s') -> T s s' [] (handed_out r).
Hypothesis T_Classic :
  forall dropped s r d s',
    DequeueFromClassicQueue dropped s = (r, d, s') -> T s s' (handed_out r) [].
Hypothesis T_l4sStaging :
  forall q s s' oC oL, T s s' oC oL -> T s (set_m_l4sStagingQueue q s') oC oL.
Hypothesis T_classicStaging :
  forall q s s' oC oL, T s s' oC oL -> T s (set_m_classicStagingQueue q s') oC oL.
Hypothesis T_samples :
  forall now s s' oC oL, T (refresh_samples now s) s' oC oL -> T s s' oC oL.

Lemma DoDequeue_loop_moves now fuel :
  forall s r s',
    DoDequeue_loop fuel now s = Ok (r, s') ->
    exists outC outL, T s s' outC outL /\ outC ++ outL = handed_out r.
Proof.
induction fuel as [|fuel IH]; intros s r s'; cbn [DoDequeue_loop].
- destruct (0 <? GetQueueSize s); [discriminate|].
  intros H; inversion H; subst. exists [], []. split; [apply T_refl | reflexivity].
- destruct (0 <? GetQueueSize s);
    [|intros H; inversion H; subst; exists [], [];
      split; [apply T_refl | reflexivity]].
  destruct (Scheduler (true, true) s) as [[sel s1]|f] eqn:ES; cbn [bind];
    [|discriminate].
  pose proof (T_Scheduler _ _ _ _ ES) as T1.
  destruct sel.
  + destruct (DequeueFromClassicQueue false s1) as [[qd d] s2] eqn:ED.
    pose proof (T_trans _ _ _ _ _ _ _ T1 (T_Classic _ _ _ _ _ ED)) as T2.
    cbn [app] in T2. destruct qd as [qd|].
    * intros H; inversion H; subst. exists [qd], []. split; [exact T2 | reflexivity].
    * intros H. destruct (IH _ _ _ H) as [oC [oL [T3 Ho]]].
      exists oC, oL. split; [exact (T_trans _ _ _ _ _ _ _ T2 T3) | exact Ho].
  + destruct (DequeueFromL4sQueue now false s1) as [[[qd d] s2]|f] eqn:ED;
      cbn [bind]; [|discriminate].
    pose proof (T_trans _ _ _ _ _ _ _ T1 (T_L4s _ _ _ _ _ _ ED)) as T2.
    cbn [app] in T2. destruct qd as [qd|].
    * intros H; inversion H; subst. exists [], [qd]. split; [exact T2 | reflexivity].
    * intros H. destruct (IH _ _ _ H) as [oC [oL [T3 Ho]]].
      exists oC, oL. split; [exact (T_trans _ _ _ _ _ _ _ T2 T3) | exact Ho].
  + intros H; inversion H; subst. exists [], []. split; [exact T1 | reflexivity].
Qed.

Lemma DoDequeue_moves now s r s' :
  DoDequeue now s = Ok (r, s') ->
  (exists item,
      r = Some item /\ m_l4sStagingQueue s = item :: m_l4sStagingQueue s' /\
      m_classicStagingQueue s' = m_classicStagingQueue s /\ T s s' [] []) \/
  (exists item,
      r = Some item /\ m_l4sStagingQueue s = [] /\ m_l4sStagingQueue s' = [] /\
      m_classicStagingQueue s = item :: m_classicStagingQueue s' /\ T s s' [] []) \/
  (m_l4sStagingQueue s = [] /\ m_classicStagingQueue s = [] /\
   m_l4sStagingQueue s' = [] /\ m_classicStagingQueue s' = [] /\
   exists outC outL, T s s' outC outL /\ outC ++ outL = handed_out r).
Proof.
unfold DoDequeue, DequeueFromL4sStagingQueue, DequeueFromClassicStagingQueue.
destruct (m_l4sStagingQueue s) as [|x restL] eqn:EL.
- destruct (m_classicStagingQueue s) as [|y restC] eqn:EC.
  + intros H. right. right.
    destruct (DoDequeue_loop_taken _ _ _ _ _ H) as [_ [HSC [HSL _]]].
    split; [reflexivity|]. split; [reflexivity|].
    split; [congruence|]. split; [congruence|].
    exact (DoDequeue_loop_moves _ _ _ _ _ H).
  + intros H; inversion H; subst. right. left. exists y.
    split; [reflexivity|]. split; [reflexivity|]. split; [exact EL|].
    split; [reflexivity|]. apply T_classicStaging, T_refl.
- intros H; inversion H; subst. left. exists x.
  split; [reflexivity|]. split; [reflexivity|]. split; [reflexivity|].
  apply T_l4sStaging, T_refl.
Qed.

Lemma PendingDequeue_batch_moves now passes :
  forall i left markedCount s s' n,
    PendingDequeue_batch passes now i left markedCount s = Ok (s', n) ->
    exists outC outL,
      T s s' outC outL /\
      m_classicStagingQueue s' = m_classicStagingQueue s ++ outC /\
      m_l4sStagingQueue s' = m_l4sStagingQueue s ++ outL.
Proof.
assert (Hstop : forall s s' (n n' : Z),
           Ok (s, n) = Ok (s', n') ->
           exists outC outL,
             T s s' outC outL /\
             m_classicStagingQueue s' = m_classicStagingQueue s ++ outC /\
             m_l4sStagingQueue s' = m_l4sStagingQueue s ++ outL).
{ intros s s' n n' H. inversion H; subst. exists [], [].
  split; [apply T_refl|]. rewrite !app_nil_r. split; reflexivity. }
induction passes as [|passes IH]; intros i left mc s s' n;
  cbn [PendingDequeue_batch]; [apply Hstop|].
destruct (i <? 1000); cbn [assert bind]; [|discriminate].
destruct (negb (fst (CanSchedule left s)) && negb (snd (CanSchedule left s)));
  [apply Hstop|].
destruct (Scheduler (CanSchedule left s) s) as [[sel s1]|f] eqn:ES; cbn [bind];
  [|discriminate].
pose proof (T_Scheduler _ _ _ _ ES) as T1.
destruct (Scheduler_taken _ _ _ _ ES) as [_ [SC1 SL1]].
destruct sel.
- destruct (DequeueFromClassicQueue false s1) as [[qd d] s2] eqn:ED.
  pose proof (T_trans _ _ _ _ _ _ _ T1 (T_Classic _ _ _ _ _ ED)) as T2.
  destruct (DequeueFromClassicQueue_taken _ _ _ _ _ ED) as [_ [SC2 SL2]].
  cbn [app] in T2. destruct qd as [qd|].
  + destruct (u32 (GetSize qd + 38) <=? left); cbn [assert bind]; [|discriminate].
    intros H. destruct (IH _ _ _ _ _ _ H) as [oC [oL [T3 [SC3 SL3]]]].
    exists (qd :: oC), oL. split.
    { apply (T_trans s (AddToClassicStagingQueue qd s2) s' [qd] [] oC oL);
        [|exact T3].
      apply T_classicStaging. exact T2. }
    split; [rewrite SC3; cbn; rewrite SC2, SC1, <- app_assoc; reflexivity|].
    rewrite SL3. cbn. rewrite SL2, SL1. reflexivity.
  + intros H. destruct (IH _ _ _ _ _ _ H) as [oC [oL [T3 [SC3 SL3]]]].
    exists oC, oL. split; [exact (T_trans _ _ _ _ _ _ _ T2 T3)|].
    split; [rewrite SC3, SC2, SC1; reflexivity | rewrite SL3, SL2, SL1; reflexivity].
- destruct (DequeueFromL4sQueue now false s1) as [[[qd d] s2]|f] eqn:ED;
    cbn [bind]; [|discriminate].
  pose proof (T_trans _ _ _ _ _ _ _ T1 (T_L4s _ _ _ _ _ _ ED)) as T2.
  destruct (DequeueFromL4sQueue_taken _ _ _ _ _ _ ED) as [_ [SC2 SL2]].
  cbn [app] in T2. destruct qd as [qd|].
  + destruct (u32 (GetSize qd + 38) <=? left); cbn [assert bind]; [|discriminate].
    intros H. destruct (IH _ _ _ _ _ _ H) as [oC [oL [T3 [SC3 SL3]]]].
    exists oC, (qd :: oL). split.
    { apply (T_trans s (AddToL4sStagingQueue qd s2) s' [] [qd] oC oL);
        [|exact T3].
      apply T_l4sStaging. exact T2. }
    split; [rewrite SC3; cbn; rewrite SC2, SC1; reflexivity|].
    rewrite SL3. cbn. rewrite SL2, SL1, <- app_assoc. reflexivity.
  + intros H. destruct (IH _ _ _ _ _ _ H) as [oC [oL [T3 [SC3 SL3]]]].
    exists oC, oL. split; [exact (T_trans _ _ _ _ _ _ _ T2 T3)|].
    split; [rewrite SC3, SC2, SC1; reflexivity | rewrite SL3, SL2, SL1; reflexivity].
- pose proof (Scheduler_spec (CanSchedule left s) s) as Hspec.
  rewrite ES in Hspec. destruct Hspec as [_ [-> _]]. apply Hstop.
Qed.

Lemma PendingDequeueCallback_moves now stopped pendingBytes s s' :
  PendingDequeueCallback now stopped pendingBytes s = Ok s' ->
  exists outC outL,
    T s s' outC outL /\
    m_classicStagingQueue s' = m_classicStagingQueue s ++ outC /\
    (m_l4sStagingQueue s' = m_l4sStagingQueue s ++ outL \/
     exists k, m_l4sStagingQueue s' = TopUpWalk k (m_l4sStagingQueue s ++ outL)).
Proof.
unfold PendingDequeueCallback.
assert (Hsame : Ok (refresh_samples now s) = Ok s' ->
          exists outC outL,
            T s s' outC outL /\
            m_classicStagingQueue s' = m_classicStagingQueue s ++ outC /\
            (m_l4sStagingQueue s' = m_l4sStagingQueue s ++ outL \/
             exists k, m_l4sStagingQueue s'
                       = TopUpWalk k (m_l4sStagingQueue s ++ outL))).
{ intros H; inversion H; subst. exists [], [].
  split; [apply T_samples with (now := now), T_refl|].
  cbn. rewrite !app_nil_r. split; [reflexivity | left; reflexivity]. }
destruct (negb stopped); [exact Hsame|].
destruct (_ <? pendingBytes); [exact Hsame|]. clear Hsame.
destruct (PendingDequeue_batch 1001 now 0 pendingBytes 0 (refresh_samples now s))
  as [[s1 n]|f] eqn:EB; cbn [bind]; [|discriminate].
intros H.
assert (Hs' : s' = PendingDequeue_topup n s1).
{ destruct (n =? 0); [|destruct (Qltb 0 (m_pCL s1))]; cbn [assert bind] in H;
    try discriminate; inversion H; reflexivity. }
clear H. subst s'.
destruct (PendingDequeue_batch_moves _ _ _ _ _ _ _ _ EB) as [oC [oL [HT [HSC HSL]]]].
apply T_samples in HT.
change (m_classicStagingQueue (refresh_samples now s))
  with (m_classicStagingQueue s) in HSC.
change (m_l4sStagingQueue (refresh_samples now s)) with (m_l4sStagingQueue s) in HSL.
exists oC, oL. unfold PendingDequeue_topup. destruct (_ <? _).
- split; [apply T_l4sStaging, HT|]. cbn. split; [exact HSC|].
  right. eexists. rewrite HSL. reflexivity.
- split; [exact HT|]. split; [exact HSC | left; exact HSL].
Qed.

End Moves.

(** ** The moves, in order *)

Lemma taken_in_order_refl s : taken_in_order s s [] [].
Proof.
  exists [], [], []. repeat split; constructor.
Qed.

Lemma taken_in_order_trans s s1 s2 oC1 oL1 oC2 oL2 :
  taken_in_order s s1 oC1 oL1 -> taken_in_order s1 s2 oC2 oL2 ->
  taken_in_order s s2 (oC1 ++ oC2) (oL1 ++ oL2).
Proof.
  intros [c1 [l1 [o1 [HC1 [HL1 [HoC1 [Ho1 HF1]]]]]]]
         [c2 [l2 [o2 [HC2 [HL2 [HoC2 [Ho2 HF2]]]]]]].
  exists (c1 ++ c2), (l1 ++ l2), (o1 ++ o2).
  split; [rewrite HC1, HC2; apply app_assoc|].
  split; [rewrite HL1, HL2; apply app_assoc|].
  split; [apply subseq_app; assumption|].
  split; [apply subseq_app; assumption|].
  apply Forall2_app; assumption.
Qed.

Lemma taken_in_order_same_r s s' s0 oC oL :
  classicQ s0 = classicQ s' -> l4sQ s0 = l4sQ s' ->
  taken_in_order s s' oC oL -> taken_in_order s s0 oC oL.
Proof.
  intros EC EL [c [l [o H]]]. exists c, l, o. rewrite EC, EL. exact H.
Qed.

Lemma taken_in_order_Scheduler eligible s sel s' :
  Scheduler eligible s = Ok (sel, s') -> taken_in_order s s' [] [].
Proof.
  intros H. pose proof (Scheduler_spec eligible s) as Hs. rewrite H in Hs.
  destruct Hs as [He _]. apply drr_erased_fields in He.
  destruct He as [_ [_ [_ [HC [HL _]]]]].
  apply (taken_in_order_same_r s s s' [] [] HC HL). apply taken_in_order_refl.
Qed.

Lemma taken_in_order_L4s now marked s r m s' :
  DequeueFromL4sQueue now marked s = Ok (r, m, s') ->
  taken_in_order s s' [] (handed_out r).
Proof.
  intros H. pose proof (DequeueFromL4sQueue_shape now marked s) as Hs.
  rewrite H in Hs. destruct Hs as [He [gone [_ [_ Hr]]]].
  apply l4s_erased_fields in He. destruct He as [_ [HC _]].
  destruct r as [item|].
  - destruct Hr as [orig [Hq Hserved]].
    exists [], (gone ++ [orig]), [orig].
    split; [rewrite HC; reflexivity|].
    split; [rewrite Hq, <- app_assoc; reflexivity|].
    split; [constructor|].
    split; [apply subseq_drop_prefix|].
    constructor; [|constructor].
    destruct Hserved as [[-> _]|[-> _]]; [left | right]; reflexivity.
  - destruct Hr as [Hq [Hn _]].
    exists [], gone, [].
    split; [rewrite HC; reflexivity|].
    split; [rewrite Hq, Hn; symmetry; apply app_nil_r|].
    split; [constructor|]. split; [apply subseq_nil_l | constructor].
Qed.

Lemma taken_in_order_Classic dropped s r d s' :
  DequeueFromClassicQueue dropped s = (r, d, s') ->
  taken_in_order s s' (handed_out r) [].
Proof.
  intros H. pose proof (DequeueFromClassicQueue_shape dropped s) as Hs.
  rewrite H in Hs. destruct Hs as [He [gone [_ [_ [_ Hr]]]]].
  apply classic_erased_fields in He. destruct He as [_ [HL _]].
  destruct r as [item|].
  - exists (gone ++ [item]), [], [].
    split; [rewrite Hr, <- app_assoc; reflexivity|].
    split; [rewrite HL; reflexivity|].
    split; [apply subseq_drop_prefix|]. split; constructor.
  - destruct Hr as [Hq Hn].
    exists gone, [], [].
    split; [rewrite Hq, Hn; symmetry; apply app_nil_r|].
    split; [rewrite HL; reflexivity|].
    split; [apply subseq_nil_l|]. split; constructor.
Qed.

Lemma DoDequeue_in_order now s r s' :
  DoDequeue now s = Ok (r, s') ->
  (exists item,
      r = Some item /\ m_l4sStagingQueue s = item :: m_l4sStagingQueue s' /\
      m_classicStagingQueue s' = m_classicStagingQueue s /\
      taken_in_order s s' [] []) \/
  (exists item,
      r = Some item /\ m_l4sStagingQueue s = [] /\ m_l4sStagingQueue s' = [] /\
      m_classicStagingQueue s = item :: m_classicStagingQueue s' /\
      taken_in_order s s' [] []) \/
  (m_l4sStagingQueue s = [] /\ m_classicStagingQueue s = [] /\
   m_l4sStagingQueue s' = [] /\ m_classicStagingQueue s' = [] /\
   exists outC outL, taken_in_order s s' outC outL /\ outC ++ outL = handed_out r).
Proof.
  apply (DoDequeue_moves taken_in_order).
  - exact taken_in_order_refl.
  - exact taken_in_order_trans.
  - exact taken_in_order_Scheduler.
  - exact taken_in_order_L4s.
  - exact taken_in_order_Classic.
  - intros q s0 s1 oC oL H. exact H.
  - intros q s0 s1 oC oL H. exact H.
Qed.

Lemma PendingDequeueCallback_in_order now stopped pendingBytes s s' :
  PendingDequeueCallback now stopped pendingBytes s = Ok s' ->
  exists outC outL,
    taken_in_order s s' outC outL /\
    m_classicStagingQueue s' = m_classicStagingQueue s ++ outC /\
    (m_l4sStagingQueue s' = m_l4sStagingQueue s ++ outL \/
     exists k, m_l4sStagingQueue s' = TopUpWalk k (m_l4sStagingQueue s ++ outL)).
Proof.
  apply (PendingDequeueCallback_moves taken_in_order).
  - exact taken_in_order_refl.
  - exact taken_in_order_trans.
  - exact taken_in_order_Scheduler.
  - exact taken_in_order_L4s.
  - exact taken_in_order_Classic.
  - intros q s0 s1 oC oL H. exact H.
  - intros q s0 s1 oC oL H. exact H.
  - intros now0 s0 s1 oC oL H. exact H.
Qed.

Lemma history_classified s offered served :
  history s offered served -> classified s.
Proof.
  induction 1 as [a c c' devMtu s _ H
                 | item s offered served _ IH
                 | now s r s' offered served _ IH H
                 | now st pb s s' offered served _ IH Hpb H
                 | now s s' offered served _ IH H
                 | lim s offered served _ IH _
                 | limit s offered served _ IH _].
  - exact (InitializeParams_classified _ _ _ _ H).
  - exact (DoEnqueue_classified item s IH).
  - exact (DoDequeue_classified _ _ _ _ H IH).
  - exact (PendingDequeueCallback_classified _ _ _ _ _ Hpb H IH).
  - exact (DualPi2Update_classified _ _ _ H IH).
  - exact IH.
  - exact IH.
Qed.

Lemma set_CE_idem item : set_CE (set_CE item) = set_CE item.
Proof.
  unfold set_CE. cbn [GetSize GetTimeStamp dsField]. f_equal.
  destruct (dsField item) as [tos|]; [|reflexivity]. cbn [option_map]. f_equal.
  rewrite <- Z.lor_assoc. reflexivity.
Qed.

Lemma marked_same_set_CE origL outL :
  Forall2 (fun orig item => item = orig \/ item = set_CE orig) origL outL ->
  map set_CE outL = map set_CE origL.
Proof.
  induction 1 as [|o x origL outL Hx _ IH]; [reflexivity|]. cbn. rewrite IH. f_equal.
  destruct Hx as [->| ->]; [reflexivity | apply set_CE_idem].
Qed.

Lemma marked_IsL4s origL outL :
  Forall2 (fun orig item => item = orig \/ item = set_CE orig) origL outL ->
  Forall (fun x => IsL4s x = true) origL -> Forall (fun x => IsL4s x = true) outL.
Proof.
  induction 1 as [|o x origL outL Hx _ IH]; intros HF; [constructor|].
  inversion HF; subst. constructor; [|apply IH; assumption].
  destruct Hx as [->| ->]; [assumption | apply IsL4s_set_CE; assumption].
Qed.

Lemma TopUpWalk_set_CE staging :
  forall k, map set_CE (TopUpWalk k staging) = map set_CE staging.
Proof.
  induction staging as [|item rest IH]; intros k; [reflexivity|].
  rewrite TopUpWalk_cons. destruct (k =? 0); [reflexivity|].
  destruct (is_ECT1 item); cbn [map]; rewrite IH, ?set_CE_idem; reflexivity.
Qed.

Lemma classic_of_app q1 q2 : classic_of (q1 ++ q2) = classic_of q1 ++ classic_of q2.
Proof. apply filter_app. Qed.

Lemma l4s_of_app q1 q2 : l4s_of (q1 ++ q2) = l4s_of q1 ++ l4s_of q2.
Proof. apply filter_app. Qed.

Lemma classic_of_classic q :
  Forall (fun x => IsL4s x = false) q -> classic_of q = q /\ l4s_of q = [].
Proof.
  induction 1 as [|x q Hx _ [IH1 IH2]]; [split; reflexivity|].
  unfold classic_of, l4s_of in *. cbn [filter]. rewrite Hx, IH1, IH2.
  split; reflexivity.
Qed.

Lemma l4s_of_l4s q :
  Forall (fun x => IsL4s x = true) q -> l4s_of q = q /\ classic_of q = [].
Proof.
  induction 1 as [|x q Hx _ [IH1 IH2]]; [split; reflexivity|].
  unfold classic_of, l4s_of in *. cbn [filter]. rewrite Hx, IH1, IH2.
  split; reflexivity.
Qed.

(** What [taken_in_order] says about the two queues of a classified
    discipline. *)
Lemma order_kept s s' outC outL :
  classified s -> taken_in_order s s' outC outL ->
  subseq (outC ++ classicQ s') (classicQ s) /\
  subseq (map set_CE (outL ++ l4sQ s')) (map set_CE (l4sQ s)) /\
  Forall (fun x => IsL4s x = false) outC /\
  Forall (fun x => IsL4s x = true) outL.
Proof.
  intros [IL [IC _]] [c [l [o [HC [HL [HoC [Ho HF]]]]]]].
  rewrite HC in IC. rewrite HL in IL.
  apply Forall_app in IC. apply Forall_app in IL.
  split; [rewrite HC; apply subseq_app; [exact HoC | apply subseq_refl]|].
  split.
  - rewrite HL, !map_app, (marked_same_set_CE _ _ HF).
    apply subseq_app; [apply subseq_map, Ho | apply subseq_refl].
  - split; [exact (subseq_Forall _ _ _ HoC (proj1 IC))|].
    exact (marked_IsL4s _ _ HF (subseq_Forall _ _ _ Ho (proj1 IL))).
Qed.

Lemma keep_prefix2 {A : Type} (a b c c' : list A) :
  subseq c c' -> subseq (a ++ b ++ c) (a ++ b ++ c').
Proof.
  intros H. apply subseq_app; [apply subseq_refl|].
  apply subseq_app; [apply subseq_refl | exact H].
Qed.

Lemma keep_prefix2_map {A B : Type} (f : A -> B) (a b c c' : list A) :
  subseq (map f c) (map f c') -> subseq (map f (a ++ b ++ c)) (map f (a ++ b ++ c')).
Proof. intros H. rewrite !map_app. apply keep_prefix2, H. Qed.

Ltac same_list :=
  repeat rewrite <- app_assoc; cbn [app]; rewrite ?app_nil_r; reflexivity.

(** No reordering within a class, from end to end.  Over any run of the
    discipline, the Classic packets handed out by [DoDequeue] (lines
    737-815), followed by those staged and those still queued, are, in that
    order, a selection of the Classic packets offered to [DoEnqueue] (lines
    367-395) in the order they were offered: a Classic packet is never
    overtaken by a later Classic packet, never duplicated and never
    altered.  The same holds of the L4S packets, up to the CE marks the
    discipline sets. *)
Theorem fifo_per_class (s : DualPi2QueueDisc) (offered served : list QueueDiscItem) :
  history s offered served ->
  subseq (classic_of served ++ m_classicStagingQueue s ++ classicQ s)
         (classic_of offered) /\
  subseq (map set_CE (l4s_of served ++ m_l4sStagingQueue s ++ l4sQ s))
         (map set_CE (l4s_of offered)).
Proof.
  induction 1 as [a c c' devMtu s _ H
                 | item s offered served Hh IH
                 | now s r s' offered served Hh IH H
                 | now st pb s s' offered served Hh IH Hpb H
                 | now s s' offered served Hh IH H
                 | lim s offered served Hh IH _
                 | limit s offered served Hh IH _].
  - destruct (InitializeParams_queues _ _ _ _ H) as [HC [HL [HSC [HSL _]]]].
    rewrite HC, HL, HSC, HSL. split; constructor.
  - destruct IH as [IHC IHL].
    rewrite classic_of_app, l4s_of_app, (map_app set_CE (l4s_of offered)).
    change (classic_of [item]) with (if negb (IsL4s item) then [item] else []).
    change (l4s_of [item]) with (if IsL4s item then [item] else []).
    unfold DoEnqueue, InternalEnqueue.
    destruct (_ <? _);
      [cbn [snd]; split; apply subseq_app_r; assumption|].
    destruct (IsL4s item) eqn:E; cbn [GetInternalQueue SetInternalQueue negb];
      (destruct (_ <? _); [cbn [snd]; split; apply subseq_app_r; assumption|]);
      cbn [snd classicQ l4sQ m_classicStagingQueue m_l4sStagingQueue
           set_classicQ set_l4sQ].
    + split; [rewrite app_nil_r; exact IHC|].
      replace (l4s_of served ++ m_l4sStagingQueue s ++ l4sQ s ++ [item])
        with ((l4s_of served ++ m_l4sStagingQueue s ++ l4sQ s) ++ [item])
        by same_list.
      rewrite (map_app set_CE (l4s_of served ++ m_l4sStagingQueue s ++ l4sQ s)).
      apply subseq_app; [exact IHL | apply subseq_refl].
    + split; [|rewrite app_nil_r; exact IHL].
      replace (classic_of served ++ m_classicStagingQueue s ++ classicQ s ++ [item])
        with ((classic_of served ++ m_classicStagingQueue s ++ classicQ s) ++ [item])
        by same_list.
      apply subseq_app; [exact IHC | apply subseq_refl].
  - pose proof (history_classified _ _ _ Hh) as Hcs.
    destruct IH as [IHC IHL].
    rewrite classic_of_app, l4s_of_app.
    destruct (DoDequeue_in_order _ _ _ _ H)
      as [[item [-> [HSL [HSC HT]]]]
         |[[item [-> [HSL [HSL' [HSC HT]]]]]
          |[HSL [HSC [HSL' [HSC' [oC [oL [HT Ho]]]]]]]]];
      destruct (order_kept _ _ _ _ Hcs HT) as [KC [KL [FC FL]]];
      cbn [app] in KC, KL.
    + assert (Hi : IsL4s item = true).
      { destruct Hcs as [_ [_ [ISL _]]]. rewrite HSL in ISL.
        inversion ISL; assumption. }
      change (classic_of (handed_out (Some item)))
        with (if negb (IsL4s item) then [item] else []).
      change (l4s_of (handed_out (Some item)))
        with (if IsL4s item then [item] else []).
      rewrite Hi. cbn [negb]. rewrite app_nil_r, HSC. split.
      * eapply subseq_trans; [|exact IHC]. apply keep_prefix2, KC.
      * eapply subseq_trans; [|exact IHL].
        replace ((l4s_of served ++ [item]) ++ m_l4sStagingQueue s' ++ l4sQ s')
          with (l4s_of served ++ m_l4sStagingQueue s ++ l4sQ s')
          by (rewrite HSL; same_list).
        apply keep_prefix2_map, KL.
    + assert (Hi : IsL4s item = false).
      { destruct Hcs as [_ [_ [_ ISC]]]. rewrite HSC in ISC.
        inversion ISC; assumption. }
      change (classic_of (handed_out (Some item)))
        with (if negb (IsL4s item) then [item] else []).
      change (l4s_of (handed_out (Some item)))
        with (if IsL4s item then [item] else []).
      rewrite Hi. cbn [negb]. rewrite app_nil_r, HSL'. split.
      * eapply subseq_trans; [|exact IHC].
        replace ((classic_of served ++ [item]) ++ m_classicStagingQueue s'
                 ++ classicQ s')
          with (classic_of served ++ m_classicStagingQueue s ++ classicQ s')
          by (rewrite HSC; same_list).
        apply keep_prefix2, KC.
      * eapply subseq_trans; [|exact IHL]. rewrite HSL.
        apply keep_prefix2_map, KL.
    + rewrite <- Ho, classic_of_app, l4s_of_app.
      destruct (classic_of_classic _ FC) as [E1 E2].
      destruct (l4s_of_l4s _ FL) as [E3 E4].
      rewrite E1, E2, E3, E4, HSL', HSC'. cbn [app]. rewrite app_nil_r. split.
      * eapply subseq_trans; [|exact IHC]. rewrite HSC.
        replace ((classic_of served ++ oC) ++ classicQ s')
          with (classic_of served ++ [] ++ oC ++ classicQ s') by same_list.
        apply keep_prefix2, KC.
      * eapply subseq_trans; [|exact IHL]. rewrite HSL.
        replace ((l4s_of served ++ oL) ++ l4sQ s')
          with (l4s_of served ++ [] ++ oL ++ l4sQ s') by same_list.
        apply keep_prefix2_map, KL.
  - pose proof (history_classified _ _ _ Hh) as Hcs.
    destruct IH as [IHC IHL].
    destruct (PendingDequeueCallback_in_order _ _ _ _ _ H)
      as [oC [oL [HT [HSC HSL]]]].
    destruct (order_kept _ _ _ _ Hcs HT) as [KC [KL _]]. split.
    + eapply subseq_trans; [|exact IHC]. rewrite HSC.
      replace (classic_of served ++ (m_classicStagingQueue s ++ oC) ++ classicQ s')
        with (classic_of served ++ m_classicStagingQueue s ++ oC ++ classicQ s')
        by same_list.
      apply keep_prefix2, KC.
    + eapply subseq_trans; [|exact IHL].
      assert (E : map set_CE (l4s_of served ++ m_l4sStagingQueue s' ++ l4sQ s')
                  = map set_CE (l4s_of served ++ m_l4sStagingQueue s
                                ++ oL ++ l4sQ s')).
      { assert (E0 : map set_CE (m_l4sStagingQueue s')
                     = map set_CE (m_l4sStagingQueue s ++ oL))
          by (destruct HSL as [->|[k ->]]; [reflexivity | apply TopUpWalk_set_CE]).
        rewrite (map_app set_CE (l4s_of served)),
                (map_app set_CE (m_l4sStagingQueue s')), E0.
        replace (m_l4sStagingQueue s ++ oL ++ l4sQ s')
          with ((m_l4sStagingQueue s ++ oL) ++ l4sQ s') by same_list.
        rewrite (map_app set_CE (l4s_of served)),
                (map_app set_CE (m_l4sStagingQueue s ++ oL)).
        reflexivity. }
      rewrite E. apply keep_prefix2_map, KL.
  - destruct IH as [IHC IHL].
    apply DualPi2Update_queues, update_erased_fields in H.
    destruct H as [_ [HC [HL [HSC [HSL _]]]]].
    rewrite HC, HL, HSC, HSL. split; assumption.
  - exact IH.
  - exact IH.
Qed.

Lemma fifo_per_class_witness :
  subseq (classic_of [ex_packet 1500 0 1]
          ++ m_classicStagingQueue (after_dequeue 5 ex_two_l4s)
          ++ classicQ (after_dequeue 5 ex_two_l4s))
         (classic_of [ex_packet 1500 0 1; ex_packet 1500 0 1]) /\
  subseq (map set_CE (l4s_of [ex_packet 1500 0 1]
                      ++ m_l4sStagingQueue (after_dequeue 5 ex_two_l4s)
                      ++ l4sQ (after_dequeue 5 ex_two_l4s)))
         (map set_CE (l4s_of [ex_packet 1500 0 1; ex_packet 1500 0 1])).
Proof.
  apply (fifo_per_class (after_dequeue 5 ex_two_l4s)
           [ex_packet 1500 0 1; ex_packet 1500 0 1] [ex_packet 1500 0 1]).
  exact history_example.
Defined.

(** * A quantum of zero *)

Lemma zero_credit (w : Q) : Qfloor (inject_Z 0 + inject_Z 0 * w)%Q = 0.
Proof.
  assert (E : (inject_Z 0 + inject_Z 0 * w == inject_Z 0)%Q) by ring.
  rewrite (Qfloor_comp _ _ E). apply Qfloor_Z.
Qed.

Lemma zero_quantum_idle l c s :
  m_drrQuantum (attrs s) = 0 ->
  m_drrQueues s = mkBits false false ->
  m_llDeficit s = 0 -> m_classicDeficit s = 0 ->
  0 <= l -> 0 <= c ->
  idle_pass (true, true) l c s.
Proof.
  intros Hq Hm HL HC Hl Hc i m Him.
  destruct s as [a cq lq scq slq bp pcl pc pl pcm plm pq th lc cc dq ld cd
                 cls lls cbs dl].
  cbn in Hq, Hm, HL, HC. subst dq ld cd.
  unfold Scheduler_body. rewrite Him.
  cbn [negb fst snd m_drrQueues bits_none bit_CLASSIC bit_L4S andb].
  unfold start_round, reset_L4S, reset_CLASSIC.
  cbn [attrs m_llDeficit m_classicDeficit m_drrQueues set_m_drrQueues
       set_m_llDeficit set_m_classicDeficit].
  rewrite Hq, zero_credit. change (u32 0) with 0. change (u32 (0 + 0)) with 0.
  destruct (Z.eqb_spec l 0) as [El|El]; destruct (Z.eqb_spec c 0) as [Ec|Ec];
    cbn [negb andb attrs m_llDeficit m_classicDeficit m_drrQueues
         set_m_drrQueues set_m_llDeficit set_m_classicDeficit
         bit_CLASSIC bit_L4S];
    try (replace (l <=? 0) with false by (symmetry; apply Z.leb_gt; lia));
    try (replace (c <=? 0) with false by (symmetry; apply Z.leb_gt; lia));
    cbn [negb andb attrs m_llDeficit m_classicDeficit m_drrQueues
         set_m_drrQueues set_m_llDeficit set_m_classicDeficit
         bit_CLASSIC bit_L4S];
    reflexivity.
Qed.

(** The DRR quantum has to be positive.  On a discipline whose quantum is
    zero and whose DRR state is at rest (empty round mask, both deficits
    zero, as after construction), with nothing staged and bytes in the
    internal queues, [DoDequeue] (lines 737-815) aborts: no round ever
    credits a deficit, [Scheduler] (lines 553-641) runs its loop to the end
    without a selection and reaches its fatal error. *)
Theorem zero_quantum_is_fatal (now : Time) (s : DualPi2QueueDisc) :
  m_drrQuantum (attrs s) = 0 ->
  m_drrQueues s = mkBits false false ->
  m_llDeficit s = 0 -> m_classicDeficit s = 0 ->
  m_l4sStagingQueue s = [] -> m_classicStagingQueue s = [] ->
  0 < GetQueueSize s -> disc_GetNPackets s <> 0 ->
  0 <= hol_size (l4sQ s) -> 0 <= hol_size (classicQ s) ->
  Scheduler (true, true) s = Fatal DrrLogicError /\
  DoDequeue now s = Fatal DrrLogicError.
Proof.
  intros Hq Hm HL HC HSL HSC Hbytes Hn Hl Hc.
  assert (ES : Scheduler (true, true) s = Fatal DrrLogicError).
  { unfold Scheduler. cbn [fst snd orb assert bind GetInternalQueue].
    apply Z.eqb_neq in Hn. rewrite Hn.
    rewrite (idle_loop_is_fatal _ _ _ _ (zero_quantum_idle _ _ s Hq Hm HL HC Hl Hc)).
    reflexivity. }
  split; [exact ES|].
  unfold DoDequeue, DequeueFromL4sStagingQueue, DequeueFromClassicStagingQueue.
  rewrite HSL, HSC. cbn [DoDequeue_loop].
  apply Z.ltb_lt in Hbytes. rewrite Hbytes, ES. reflexivity.
Qed.

Lemma zero_quantum_is_fatal_witness :
  DoDequeue 5 (after_enqueue (ex_packet 1500 0 1)
                 (fresh (mkAttrs 1500 (15 # 100) 3 (MilliSeconds 15) 1562500
                                 (MilliSeconds 15) (MicroSeconds 800)
                                 (MicroSeconds 400) 2 9 0 false false 0)))
  = Fatal DrrLogicError.
Proof.
  apply (proj2 (zero_quantum_is_fatal 5
                  (after_enqueue (ex_packet 1500 0 1)
                     (fresh (mkAttrs 1500 (15 # 100) 3 (MilliSeconds 15) 1562500
                                     (MilliSeconds 15) (MicroSeconds 800)
                                     (MicroSeconds 400) 2 9 0 false false 0)))
                  eq_refl eq_refl eq_refl eq_refl eq_refl eq_refl eq_refl
                  ltac:(vm_compute; discriminate)
                  ltac:(vm_compute; discriminate)
                  ltac:(vm_compute; discriminate))).
Defined.

(** * Every packet goes to exactly one place *)

Lemma Permutation_shuffle {A : Type} (a1 b1 a2 b2 : list A) :
  Permutation ((a1 ++ b1) ++ (a2 ++ b2)) ((a1 ++ a2) ++ (b1 ++ b2)).
Proof.
  rewrite <- !app_assoc. apply Permutation_app_head.
  rewrite !app_assoc. apply Permutation_app_tail. apply Permutation_app_comm.
Qed.

Lemma drops_of_app r q1 q2 : drops_of r (q1 ++ q2) = drops_of r q1 ++ drops_of r q2.
Proof. apply map_app. Qed.

Lemma taken_exactly_refl s : taken_exactly s s [] [].
Proof.
  exists [], [], [], [], [], [].
  split; [reflexivity|]. split; [reflexivity|].
  split; [symmetry; apply app_nil_r|]. repeat split; constructor.
Qed.

Lemma taken_exactly_trans s s1 s2 oC1 oL1 oC2 oL2 :
  taken_exactly s s1 oC1 oL1 -> taken_exactly s1 s2 oC2 oL2 ->
  taken_exactly s s2 (oC1 ++ oC2) (oL1 ++ oL2).
Proof.
  intros [c1 [l1 [gC1 [gL1 [o1 [d1 [HC1 [HL1 [HD1 [Pd1 [PC1 [PL1 HF1]]]]]]]]]]]]
         [c2 [l2 [gC2 [gL2 [o2 [d2 [HC2 [HL2 [HD2 [Pd2 [PC2 [PL2 HF2]]]]]]]]]]]].
  exists (c1 ++ c2), (l1 ++ l2), (gC1 ++ gC2), (gL1 ++ gL2), (o1 ++ o2), (d1 ++ d2).
  split; [rewrite HC1, HC2; apply app_assoc|].
  split; [rewrite HL1, HL2; apply app_assoc|].
  split; [rewrite HD2, HD1; symmetry; apply app_assoc|].
  split.
  { rewrite !drops_of_app.
    eapply Permutation_trans; [apply Permutation_app; eassumption|].
    apply Permutation_shuffle. }
  split.
  { eapply Permutation_trans; [apply Permutation_app; eassumption|].
    apply Permutation_shuffle. }
  split.
  { eapply Permutation_trans; [apply Permutation_app; eassumption|].
    apply Permutation_shuffle. }
  apply Forall2_app; assumption.
Qed.

Lemma taken_exactly_Scheduler eligible s sel s' :
  Scheduler eligible s = Ok (sel, s') -> taken_exactly s s' [] [].
Proof.
  intros H. pose proof (Scheduler_spec eligible s) as Hs. rewrite H in Hs.
  destruct Hs as [He _]. apply drr_erased_fields in He.
  destruct He as [_ [_ [_ [HC [HL [_ [_ HD]]]]]]].
  exists [], [], [], [], [], [].
  split; [rewrite HC; reflexivity|]. split; [rewrite HL; reflexivity|].
  split; [rewrite HD; symmetry; apply app_nil_r|]. repeat split; constructor.
Qed.

Lemma taken_exactly_L4s now marked s r m s' :
  DequeueFromL4sQueue now marked s = Ok (r, m, s') ->
  taken_exactly s s' [] (handed_out r).
Proof.
  intros H. pose proof (DequeueFromL4sQueue_shape now marked s) as Hs.
  rewrite H in Hs. destruct Hs as [He [gone [HD [_ Hr]]]].
  apply l4s_erased_fields in He. destruct He as [_ [HC _]].
  destruct r as [item|].
  - destruct Hr as [orig [Hq Hserved]].
    exists [], (gone ++ [orig]), [], gone, [orig], (drops_of UNFORCED_L4S_DROP gone).
    split; [rewrite HC; reflexivity|].
    split; [rewrite Hq, <- app_assoc; reflexivity|].
    split; [exact HD|].
    split; [apply Permutation_refl|]. split; [apply Permutation_refl|].
    split; [apply Permutation_app_comm|].
    constructor; [|constructor].
    destruct Hserved as [[-> _]|[-> _]]; [left | right]; reflexivity.
  - destruct Hr as [Hq [Hn _]].
    exists [], gone, [], gone, [], (drops_of UNFORCED_L4S_DROP gone).
    split; [rewrite HC; reflexivity|].
    split; [rewrite Hq, Hn; symmetry; apply app_nil_r|].
    split; [exact HD|].
    split; [apply Permutation_refl|]. split; [apply Permutation_refl|].
    split; [apply Permutation_refl | constructor].
Qed.

Lemma taken_exactly_Classic dropped s r d s' :
  DequeueFromClassicQueue dropped s = (r, d, s') ->
  taken_exactly s s' (handed_out r) [].
Proof.
  intros H. pose proof (DequeueFromClassicQueue_shape dropped s) as Hs.
  rewrite H in Hs. destruct Hs as [He [gone [HD [_ [_ Hr]]]]].
  apply classic_erased_fields in He. destruct He as [_ [HL _]].
  destruct r as [item|].
  - exists (gone ++ [item]), [], gone, [], [], (drops_of UNFORCED_CLASSIC_DROP gone).
    split; [rewrite Hr, <- app_assoc; reflexivity|].
    split; [rewrite HL; reflexivity|].
    split; [exact HD|].
    split; [cbn [drops_of map]; rewrite app_nil_r; apply Permutation_refl|].
    split; [apply Permutation_app_comm|].
    split; [apply Permutation_refl | constructor].
  - destruct Hr as [Hq Hn].
    exists gone, [], gone, [], [], (drops_of UNFORCED_CLASSIC_DROP gone).
    split; [rewrite Hq, Hn; symmetry; apply app_nil_r|].
    split; [rewrite HL; reflexivity|].
    split; [exact HD|].
    split; [cbn [drops_of map]; rewrite app_nil_r; apply Permutation_refl|].
    split; [apply Permutation_refl|].
    split; [apply Permutation_refl | constructor].
Qed.

Lemma TopUpWalk_marks staging :
  forall k,
    Forall2 (fun before after => after = before \/ after = set_CE before)
            staging (TopUpWalk k staging).
Proof.
  induction staging as [|item rest IH]; intros k; [constructor|].
  rewrite TopUpWalk_cons. destruct (k =? 0).
  - clear IH. induction (item :: rest) as [|x q IHq]; constructor;
      [left; reflexivity | exact IHq].
  - destruct (is_ECT1 item); constructor;
      [right; reflexivity | apply IH | left; reflexivity | apply IH].
Qed.

(** [DoDequeue] (lines 737-815) loses no packet and makes none up.  Either
    it hands out the packet at the head of the L4S staging queue, or, with
    that queue empty, the packet at the head of the Classic staging queue,
    and then the internal queues and the drop log are as they were.  Or
    nothing is staged, and then every packet taken from an internal queue
    went to exactly one place: the packets gone from the head of the
    Classic queue are, each once, the packet handed out or a packet added
    to the drop log as an unforced Classic drop, and the packets gone from
    the head of the L4S queue are the packet handed out, as it was or set
    to CE, or a packet added to the drop log as an unforced L4S drop; the
    drop log receives nothing else.  No packet is handed out only when the
    internal queues are left without bytes or without packets.  The aborts
    are those of the scheduler loop and of marking. *)
Theorem DoDequeue_accounting (now : Time) (s : DualPi2QueueDisc) :
  match DoDequeue now s with
  | Ok (r, s') =>
      (exists item,
          r = Some item /\
          (m_l4sStagingQueue s = item :: m_l4sStagingQueue s' /\
           m_classicStagingQueue s' = m_classicStagingQueue s \/
           m_l4sStagingQueue s = [] /\ m_l4sStagingQueue s' = [] /\
           m_classicStagingQueue s = item :: m_classicStagingQueue s') /\
          classicQ s' = classicQ s /\ l4sQ s' = l4sQ s /\ dropLog s' = dropLog s) \/
      (m_l4sStagingQueue s = [] /\ m_classicStagingQueue s = [] /\
       m_l4sStagingQueue s' = [] /\ m_classicStagingQueue s' = [] /\
       (exists outC outL,
           taken_exactly s s' outC outL /\ outC ++ outL = handed_out r) /\
       (r = None -> GetQueueSize s' = 0 \/ disc_GetNPackets s' = 0))
  | Fatal f => f = CannotMarkL4s \/ f = DrrLogicError
  end.
Proof.
  pose proof (DoDequeue_counts now s) as Hold.
  destruct (DoDequeue now s) as [[r s']|f] eqn:E; [clear Hold | exact Hold].
  pose proof (DoDequeue_taken _ _ _ _ E) as Hshape.
  unfold DoDequeue, DequeueFromL4sStagingQueue, DequeueFromClassicStagingQueue in E.
  destruct (m_l4sStagingQueue s) as [|x restL] eqn:EL.
  - destruct (m_classicStagingQueue s) as [|y restC] eqn:EC.
    + right.
      destruct Hshape as [[item [_ [[[Hx _]|[_ [_ Hx]]] _]]]
                         |[_ [_ [HL' [HC' [_ Hn]]]]]];
        try discriminate Hx.
      split; [reflexivity|]. split; [reflexivity|].
      split; [exact HL'|]. split; [exact HC'|]. split; [|exact Hn].
      exact (DoDequeue_loop_moves taken_exactly taken_exactly_refl
               taken_exactly_trans taken_exactly_Scheduler taken_exactly_L4s
               taken_exactly_Classic _ _ _ _ _ E).
    + inversion E; subst. left. exists y. split; [reflexivity|].
      split; [right; cbn; rewrite EL; repeat split|]. repeat split.
  - inversion E; subst. left. exists x. split; [reflexivity|].
    split; [left; cbn; split; reflexivity|]. repeat split.
Qed.

(** [PendingDequeueCallback] (lines 197-348) hands nothing out and loses
    no packet.  Every packet taken from an internal queue went to exactly
    one place: the packets gone from the head of the Classic queue are,
    each once, appended to the Classic staging queue as they were or added
    to the drop log as unforced Classic drops; the packets gone from the
    head of the L4S queue are appended to the L4S staging queue, as they
    were or set to CE, or added to the drop log as unforced L4S drops; the
    drop log receives nothing else, and the packets staged before are still
    staged, in place, those of the L4S staging queue as they were or set to
    CE.  The bytes added to the two staging queues, counted as the Wi-Fi
    layer frames them, fit the [pendingBytes] asked for.  When the device
    queue is not stopped only the three samples are refreshed.  The aborts
    are the five assertions of the function and of what it calls. *)
Theorem PendingDequeueCallback_accounting (now : Time) (txQueueStopped : bool)
    (pendingBytes : Z) (s : DualPi2QueueDisc) :
  is_u32 pendingBytes ->
  match PendingDequeueCallback now txQueueStopped pendingBytes s with
  | Ok s' =>
      (exists outC outL,
          taken_exactly s s' outC outL /\
          m_classicStagingQueue s' = m_classicStagingQueue s ++ outC /\
          Forall2 (fun before after => after = before \/ after = set_CE before)
                  (m_l4sStagingQueue s ++ outL) (m_l4sStagingQueue s')) /\
      wifi_bytes (m_classicStagingQueue s') + wifi_bytes (m_l4sStagingQueue s')
      <= wifi_bytes (m_classicStagingQueue s) + wifi_bytes (m_l4sStagingQueue s)
         + pendingBytes /\
      (txQueueStopped = false -> s' = refresh_samples now s)
  | Fatal f =>
      f = InfiniteLoop \/ f = DrrLogicError \/ f = InsufficientPending \/
      f = CannotMarkL4s \/ f = MarksWithoutCoupling
  end.
Proof.
  intros Hpb. pose proof (PendingDequeueCallback_counts now txQueueStopped
                            pendingBytes s Hpb) as Hold.
  destruct (PendingDequeueCallback now txQueueStopped pendingBytes s)
    as [s'|f] eqn:E; [|exact Hold].
  destruct Hold as [_ [_ [_ [Hbytes Hidle]]]].
  split; [|split; [exact Hbytes | exact Hidle]].
  destruct (PendingDequeueCallback_moves taken_exactly taken_exactly_refl
              taken_exactly_trans taken_exactly_Scheduler taken_exactly_L4s
              taken_exactly_Classic
              ltac:(intros q s0 s1 oC oL H; exact H)
              ltac:(intros q s0 s1 oC oL H; exact H)
              ltac:(intros now0 s0 s1 oC oL H; exact H)
              _ _ _ _ _ E) as [oC [oL [HT [HSC HSL]]]].
  exists oC, oL. split; [exact HT|]. split; [exact HSC|].
  destruct HSL as [->|[k ->]].
  - clear. induction (m_l4sStagingQueue s ++ oL) as [|x q IH]; constructor;
      [left; reflexivity | exact IH].
  - apply TopUpWalk_marks.
Qed.

(** Four of eight queued ECT(1) packets fit a budget of 6152 bytes. *)
Lemma PendingDequeueCallback_accounting_witness :
  match PendingDequeueCallback 100 true 6152 ex_eight_l4s with
  | Ok s' =>
      (exists outC outL,
          taken_exactly ex_eight_l4s s' outC outL /\
          m_classicStagingQueue s' = m_classicStagingQueue ex_eight_l4s ++ outC /\
          Forall2 (fun before after => after = before \/ after = set_CE before)
                  (m_l4sStagingQueue ex_eight_l4s ++ outL) (m_l4sStagingQueue s')) /\
      wifi_bytes (m_classicStagingQueue s') + wifi_bytes (m_l4sStagingQueue s')
      <= wifi_bytes (m_classicStagingQueue ex_eight_l4s)
         + wifi_bytes (m_l4sStagingQueue ex_eight_l4s) + 6152 /\
      (true = false -> s' = refresh_samples 100 ex_eight_l4s)
  | Fatal f =>
      f = InfiniteLoop \/ f = DrrLogicError \/ f = InsufficientPending \/
      f = CannotMarkL4s \/ f = MarksWithoutCoupling
  end.
Proof.
  apply (PendingDequeueCallback_accounting 100 true 6152 ex_eight_l4s).
  unfold is_u32, two32. lia.
Defined.
